(** * Generic signatures and generic-argument checking (lib/Sema/TypeCheckGeneric.cpp)

    A shallow embedding of the generics part of the type checker:
    [checkGenericParamList], [gatherGenericParamBindingsText],
    [getOrCreateOpaqueResultType], [checkProtocolSelfRequirements],
    [checkReferencedGenericParams], [checkGenericEnvironment] and
    [checkGenericArguments].

    The AST (types, requirements, declarations) lives in headers that are
    not part of the translated sources; the part of it the functions look
    at is modelled in [Module AST].  Collaborators whose code is elsewhere
    (conformance lookup, substitution, the signature builder) are taken as
    parameters of the functions that call them. *)

From Stdlib Require Import List String ZArith Bool Lia Arith PeanoNat.
From Stdlib Require Import Permutation Sorting.Sorted.
Import ListNotations.

Set Implicit Arguments.
Set Warnings "-register-all".

(* ================================================================== *)
(** ** The AST the checker looks at *)
(* ================================================================== *)

Module AST.

(** [unsigned] arithmetic: 32 bits, wrapping. *)
Definition UINT_MODULUS : Z := 2 ^ 32.
Definition wrap32 (z : Z) : Z := z mod UINT_MODULUS.

(** Types.  A generic parameter is identified by (depth, index); a
    dependent member type is a member [name] of a base type.  Types are
    kept canonical, so [getCanonicalType] is the identity and [isEqual]
    is structural equality. *)
Inductive Ty : Type :=
| ErrorType
| GenericTypeParamType (depth index : Z)
| DependentMemberType (base : Ty) (name : string)
| NominalType (name : string) (args : list Ty)
| ProtocolType (decl : string)
| FunctionType (params : list Ty) (result : Ty).

(** Induction principle that goes through the argument lists. *)
Section Ty_rect_nested.
Variable P : Ty -> Prop.
Hypothesis HErr : P ErrorType.
Hypothesis HGP : forall d i, P (GenericTypeParamType d i).
Hypothesis HDM : forall b n, P b -> P (DependentMemberType b n).
Hypothesis HNom : forall n args, Forall P args -> P (NominalType n args).
Hypothesis HProto : forall d, P (ProtocolType d).
Hypothesis HFun :
  forall ps r, Forall P ps -> P r -> P (FunctionType ps r).

Fixpoint Ty_ind_nested (t : Ty) : P t :=
  let fix go (l : list Ty) : Forall P l :=
    match l with
    | [] => Forall_nil P
    | x :: xs => Forall_cons x (Ty_ind_nested x) (go xs)
    end in
  match t with
  | ErrorType => HErr
  | GenericTypeParamType d i => HGP d i
  | DependentMemberType b n => HDM n (Ty_ind_nested b)
  | NominalType n args => HNom n (go args)
  | ProtocolType d => HProto d
  | FunctionType ps r => HFun (go ps) (Ty_ind_nested r)
  end.
End Ty_rect_nested.

(** [Type::isEqual]. *)
Fixpoint isEqual (a b : Ty) {struct a} : bool :=
  let fix all2 (l1 l2 : list Ty) {struct l1} : bool :=
    match l1, l2 with
    | [], [] => true
    | x :: xs, y :: ys => isEqual x y && all2 xs ys
    | _, _ => false
    end in
  match a, b with
  | ErrorType, ErrorType => true
  | GenericTypeParamType d i, GenericTypeParamType d' i' =>
      Z.eqb d d' && Z.eqb i i'
  | DependentMemberType x n, DependentMemberType y m =>
      isEqual x y && String.eqb n m
  | NominalType n xs, NominalType m ys => String.eqb n m && all2 xs ys
  | ProtocolType d, ProtocolType e => String.eqb d e
  | FunctionType ps r, FunctionType qs s => all2 ps qs && isEqual r s
  | _, _ => false
  end.

(** [hasError]: an error type occurs somewhere in the type. *)
Fixpoint hasError (t : Ty) : bool :=
  match t with
  | ErrorType => true
  | GenericTypeParamType _ _ => false
  | DependentMemberType b _ => hasError b
  | NominalType _ args => existsb hasError args
  | ProtocolType _ => false
  | FunctionType ps r => existsb hasError ps || hasError r
  end.

(** [hasTypeParameter]: a generic parameter or a dependent member type
    occurs somewhere in the type. *)
Fixpoint hasTypeParameter (t : Ty) : bool :=
  match t with
  | ErrorType => false
  | GenericTypeParamType _ _ => true
  | DependentMemberType _ _ => true
  | NominalType _ args => existsb hasTypeParameter args
  | ProtocolType _ => false
  | FunctionType ps r => existsb hasTypeParameter ps || hasTypeParameter r
  end.

(** [isTypeParameter]: a generic parameter, or a member of one. *)
Fixpoint isTypeParameter (t : Ty) : bool :=
  match t with
  | GenericTypeParamType _ _ => true
  | DependentMemberType b _ => isTypeParameter b
  | _ => false
  end.

(** [is<GenericTypeParamType>]. *)
Definition isGenericTypeParam (t : Ty) : bool :=
  match t with GenericTypeParamType _ _ => true | _ => false end.

(** [getRootGenericParam] of a type parameter: strip the member accesses. *)
Fixpoint getRootGenericParam (t : Ty) : Ty :=
  match t with
  | DependentMemberType b _ => getRootGenericParam b
  | _ => t
  end.

(** The types directly inside a type, in the order [Type::walk] visits
    them. *)
Definition children (t : Ty) : list Ty :=
  match t with
  | DependentMemberType b _ => [b]
  | NominalType _ args => args
  | FunctionType ps r => ps ++ [r]
  | _ => []
  end.

(** Layout constraints; the checker only asks [isClass]. *)
Inductive LayoutConstraint : Type :=
| LayoutClass
| LayoutNativeClass
| LayoutTrivial
| LayoutRefCountedObject
| LayoutUnknown.

Definition isClass (l : LayoutConstraint) : bool :=
  match l with
  | LayoutClass | LayoutNativeClass => true
  | _ => false
  end.

Inductive RequirementKind : Type :=
| Conformance | Superclass | SameType | Layout.

(** A requirement: kind, subject, and a second type or a layout
    constraint.  The second type of a conformance requirement is the
    protocol type of [proto]. *)
Inductive Requirement : Type :=
| ConformanceReq (subject : Ty) (proto : string)
| SuperclassReq (subject superclass : Ty)
| SameTypeReq (first second : Ty)
| LayoutReq (subject : Ty) (layout : LayoutConstraint).

Definition getKind (r : Requirement) : RequirementKind :=
  match r with
  | ConformanceReq _ _ => Conformance
  | SuperclassReq _ _ => Superclass
  | SameTypeReq _ _ => SameType
  | LayoutReq _ _ => Layout
  end.

Definition getFirstType (r : Requirement) : Ty :=
  match r with
  | ConformanceReq s _ | SuperclassReq s _ | SameTypeReq s _
  | LayoutReq s _ => s
  end.

(** [getSecondType]; a layout requirement has none. *)
Definition getSecondType (r : Requirement) : option Ty :=
  match r with
  | ConformanceReq _ p => Some (ProtocolType p)
  | SuperclassReq _ t | SameTypeReq _ t => Some t
  | LayoutReq _ _ => None
  end.

(** A source location is valid when it points somewhere. *)
Definition SourceLoc : Type := option nat.
Definition isValid (l : SourceLoc) : bool :=
  match l with Some _ => true | None => false end.

(** A generic parameter as written: its name and its (depth, index). *)
Record GenericParam : Type := mkGenericParam {
  gpName : string;
  gpDepth : Z;
  gpIndex : Z
}.

Definition gpType (p : GenericParam) : Ty :=
  GenericTypeParamType (gpDepth p) (gpIndex p).

(** A generic signature: its generic parameters and its requirements. *)
Record GenericSignature : Type := mkSig {
  getGenericParams : list GenericParam;
  getRequirements : list Requirement
}.

(** [GenericSignature *]: signatures are shared objects, compared by
    address. *)
Record GenericSignaturePtr : Type := mkSigPtr {
  address : nat;
  pointee : GenericSignature
}.

(** [list.back()], for a list known to the caller to have elements. *)
Definition back {A : Type} (l : list A) : option A := last (map Some l) None.

End AST.
Import AST.

(* ================================================================== *)
(** ** Checking bound generic type arguments: [checkGenericArguments] *)
(* ================================================================== *)

Module GenericArguments.

Inductive RequirementCheckResult : Type :=
| Success | Failure | SubstitutionFailure.

(** [ParentConditionalConformance]: one frame of the chain of
    conditional conformances that led to a requirement. *)
Record ParentConditionalConformance : Type := mkParent {
  ConformingType : Ty;
  Protocol : string
}.

(** What a successful conformance lookup returns; the checker reads its
    conditional requirements. *)
Record ProtocolConformanceRef : Type := mkConformance {
  conformanceType : Ty;
  conformanceProtocol : string;
  getConditionalRequirements : list Requirement
}.

(** The local [RequirementSet] of the work-list. *)
Record RequirementSet : Type := mkSet {
  Requirements : list Requirement;
  Parents : list ParentConditionalConformance
}.

Inductive DiagID : Type :=
| type_does_not_conform_owner
| type_does_not_inherit_or_conform_requirement
| type_is_not_a_class
| anyobject_requirement
| type_does_not_inherit
| types_not_equal
| types_not_equal_requirement
| requirement_implied_by_conditional_conformance.

(** What the checker hands to its collaborators: diagnostics given to
    the diagnostic engine and conformances reported to the listener. *)
Inductive Event : Type :=
| Diagnose (loc : SourceLoc) (id : DiagID) (owner first : Ty)
           (second : option Ty)
| DiagnoseNote (loc : SourceLoc) (id : DiagID) (rawFirst : Ty)
               (rawSecond : option Ty) (bindings : string)
| DiagnoseParent (loc : SourceLoc) (id : DiagID)
                 (frame : ParentConditionalConformance)
| SatisfiedConformance (depTy replacementTy : Ty)
                       (conformance : ProtocolConformanceRef).

(** [GenericRequirementsCheckListener]. [satisfiedConformance] returns
    nothing and is recorded as an event. *)
Record GenericRequirementsCheckListener : Type := mkListener {
  shouldCheck : RequirementKind -> Ty -> option Ty -> bool;
  diagnoseUnsatisfiedRequirement :
    Requirement -> Ty -> option Ty ->
    list ParentConditionalConformance -> bool
}.

(** The primitives of the type checker and of the AST the function
    calls.  [substType] is [Type::subst] under the call's substitutions,
    conformances and options, [None] when it yields no type;
    [substitutions] is the substitution function on a generic
    parameter. *)
Record TypeCheckerOps : Type := mkOps {
  substType : Ty -> option Ty;
  substitutions : Ty -> option Ty;
  conformsToProtocol : Ty -> string -> option ProtocolConformanceRef;
  mapTypeIntoContext : Ty -> Ty;
  isExactSuperclassOf : Ty -> Ty -> bool;
  satisfiesClassConstraint : Ty -> bool;
  getString : Ty -> string
}.

(** [Type::visit]: every type inside [t], [t] first. *)
Fixpoint visit (t : Ty) : list Ty :=
  t :: match t with
       | DependentMemberType b _ => visit b
       | NominalType _ args => flat_map visit args
       | FunctionType ps r => flat_map visit ps ++ visit r
       | _ => []
       end.

Section Checker.
Variable tc : TypeCheckerOps.

(** Modelled from the spec: [Requirement::subst] (its code is in the
    AST library): apply the type substitution to the types of the
    requirement, keeping its kind and its layout constraint; no
    requirement results when a type cannot be resolved.  The protocol of
    a conformance requirement mentions no type parameter and stays as it
    is. *)
Definition Requirement_subst (r : Requirement) : option Requirement :=
  match r with
  | ConformanceReq s p =>
      match substType tc s with
      | Some s' => Some (ConformanceReq s' p)
      | None => None
      end
  | SuperclassReq s t =>
      match substType tc s, substType tc t with
      | Some s', Some t' => Some (SuperclassReq s' t')
      | _, _ => None
      end
  | SameTypeReq s t =>
      match substType tc s, substType tc t with
      | Some s', Some t' => Some (SameTypeReq s' t')
      | _, _ => None
      end
  | LayoutReq s l =>
      match substType tc s with
      | Some s' => Some (LayoutReq s' l)
      | None => None
      end
  end.

(** [gatherGenericParamBindingsText]. *)
Definition knownGenericParams (types : list (option Ty)) : list Ty :=
  flat_map (fun o => match o with
                     | None => []
                     | Some t => filter isGenericTypeParam (visit t)
                     end) types.

Fixpoint gatherBindings (known : list Ty) (gps : list GenericParam)
         (result : string) : string :=
  match gps with
  | [] => (result ++ "]")%string
  | gp :: rest =>
      let canonGP := gpType gp in
      if negb (existsb (isEqual canonGP) known) then
        gatherBindings known rest result
      else
        let result1 :=
          if String.eqb result EmptyString
          then (result ++ " [with ")%string
          else (result ++ ", ")%string in
        let result2 := (result1 ++ gpName gp ++ " = ")%string in
        match substitutions tc canonGP with
        | None => EmptyString
        | Some type =>
            gatherBindings known rest (result2 ++ getString tc type)%string
        end
  end.

Definition gatherGenericParamBindingsText
           (types : list (option Ty)) (genericParams : list GenericParam)
  : string :=
  let known := knownGenericParams types in
  match known with
  | [] => EmptyString
  | _ => gatherBindings known genericParams EmptyString
  end.

(** Modelled from the spec:
    [ParentConditionalConformance::diagnoseConformanceStack] (its code
    is in the AST library): one note per frame of the chain, innermost
    first. *)
Definition diagnoseConformanceStack
           (loc : SourceLoc) (parents : list ParentConditionalConformance)
  : list Event :=
  map (DiagnoseParent loc requirement_implied_by_conditional_conformance)
      (rev parents).

(** The state of one call: the [valid] flag, the local work-list
    [pendingReqs] (its back is the head of the list) and what was handed
    to the collaborators so far, oldest first. *)
Record CheckState : Type := mkState {
  valid : bool;
  pendingReqs : list RequirementSet;
  events : list Event
}.

(** How one iteration of the [for] loop ends: with [continue] (or by
    reaching the end of the body), or with a [return]. *)
Inductive Flow : Type :=
| Next (st : CheckState)
| Return (result : RequirementCheckResult) (st : CheckState).

Variable loc noteLoc : SourceLoc.
Variable owner : Ty.
Variable genericParams : list GenericParam.
Variable listener : option GenericRequirementsCheckListener.

Definition setInvalid (st : CheckState) : CheckState :=
  mkState false (pendingReqs st) (events st).

Definition emit (evs : list Event) (st : CheckState) : CheckState :=
  mkState (valid st) (pendingReqs st) (events st ++ evs).

Definition push_back (s : RequirementSet) (st : CheckState) : CheckState :=
  mkState (valid st) (s :: pendingReqs st) (events st).

(** [if (t->hasTypeParameter()) t = dc->mapTypeIntoContext(t)]. *)
Definition intoContext (t : Ty) : Ty :=
  if hasTypeParameter t then mapTypeIntoContext tc t else t.

Definition isEmpty {A : Type} (l : list A) : bool :=
  match l with [] => true | _ => false end.

(** [listener && !listener->shouldCheck(kind, firstType, secondType)]. *)
Definition listenerSkips (kind : RequirementKind) (firstType : Ty)
           (secondType : option Ty) : bool :=
  match listener with
  | Some l => negb (shouldCheck l kind firstType secondType)
  | None => false
  end.

(** [listener && listener->diagnoseUnsatisfiedRequirement(...)]. *)
Definition listenerDiagnoses (rawReq : Requirement) (firstType : Ty)
           (secondType : option Ty)
           (parents : list ParentConditionalConformance) : bool :=
  match listener with
  | Some l => diagnoseUnsatisfiedRequirement l rawReq firstType secondType
                                             parents
  | None => false
  end.

(** The tail of the loop body, reached with [requirementFailure] set
    (lines 954-976). *)
Definition reportFailure (parents : list ParentConditionalConformance)
           (rawReq : Requirement) (firstType : Ty) (secondType : option Ty)
           (diagnostic diagnosticNote : DiagID) (st : CheckState) : Flow :=
  let rawFirstType := getFirstType rawReq in
  let rawSecondType := getSecondType rawReq in
  if listenerDiagnoses rawReq firstType secondType parents then
    Return Failure st
  else if isValid loc then
    let genericParamBindingsText :=
      if isEmpty genericParams then EmptyString
      else gatherGenericParamBindingsText
             [Some rawFirstType; rawSecondType] genericParams in
    Return Failure
      (emit (Diagnose loc diagnostic owner firstType secondType
             :: DiagnoseNote noteLoc diagnosticNote rawFirstType
                             rawSecondType genericParamBindingsText
             :: diagnoseConformanceStack noteLoc parents) st)
  else Return Failure st.

(** The body of the [for] loop over [current.Requirements]
    (lines 838-976), for the requirement [rawReq] of a set whose parent
    chain is [parents]. *)
Definition checkRequirement (parents : list ParentConditionalConformance)
           (rawReq : Requirement) (st : CheckState) : Flow :=
  match (if isEmpty parents then Requirement_subst rawReq
         else Some rawReq) with
  | None =>
      (* Another requirement will fail later; just continue. *)
      Next (setInvalid st)
  | Some req =>
      let kind := getKind req in
      let rawFirstType := getFirstType rawReq in
      let firstType := intoContext (getFirstType req) in
      let secondType := option_map intoContext (getSecondType req) in
      (* Don't do further checking on error types. *)
      if hasError firstType
         || match secondType with Some t => hasError t | None => false end
      then Next (setInvalid st)
      else if listenerSkips kind firstType secondType then Next st
      else
        match req with
        | ConformanceReq _ proto =>
            match conformsToProtocol tc firstType proto with
            | Some conformance =>
                (* Report the conformance. *)
                let st1 :=
                  match listener with
                  | Some _ =>
                      if valid st && isEmpty parents
                      then emit [SatisfiedConformance rawFirstType firstType
                                                      conformance] st
                      else st
                  | None => st
                  end in
                let conditionalReqs :=
                  getConditionalRequirements conformance in
                if negb (isEmpty conditionalReqs) then
                  let history := parents ++ [mkParent firstType proto] in
                  Next (push_back (mkSet conditionalReqs history) st1)
                else Next st1
            | None =>
                (* A failure at the top level is diagnosed elsewhere. *)
                if isEmpty parents then Return Failure st
                else
                  reportFailure parents rawReq firstType secondType
                    type_does_not_conform_owner
                    type_does_not_inherit_or_conform_requirement st
            end
        | LayoutReq _ layout =>
            if isClass layout && negb (satisfiesClassConstraint tc firstType)
            then reportFailure parents rawReq firstType secondType
                   type_is_not_a_class anyobject_requirement st
            else Next st
        | SuperclassReq _ superclass =>
            if negb (isExactSuperclassOf tc (intoContext superclass)
                                         firstType)
            then reportFailure parents rawReq firstType secondType
                   type_does_not_inherit
                   type_does_not_inherit_or_conform_requirement st
            else Next st
        | SameTypeReq _ second =>
            if negb (isEqual firstType (intoContext second))
            then reportFailure parents rawReq firstType secondType
                   types_not_equal types_not_equal_requirement st
            else Next st
        end
  end.

(** The [for] loop over the requirements of the current set. *)
Fixpoint checkRequirements (parents : list ParentConditionalConformance)
         (reqs : list Requirement) (st : CheckState) : Flow :=
  match reqs with
  | [] => Next st
  | rawReq :: rest =>
      match checkRequirement parents rawReq st with
      | Next st' => checkRequirements parents rest st'
      | Return r st' => Return r st'
      end
  end.

(** The [while (!pendingReqs.empty())] loop and the final [return]s.
    Each unit of [fuel] pays for one requirement set popped from the
    work-list; [None] means the fuel ran out. *)
Fixpoint checkPending (fuel : nat) (st : CheckState)
  : option (RequirementCheckResult * list Event) :=
  match pendingReqs st with
  | [] =>
      Some (if valid st then Success else SubstitutionFailure, events st)
  | current :: rest =>
      match fuel with
      | O => None
      | S fuel' =>
          match checkRequirements (Parents current) (Requirements current)
                                  (mkState (valid st) rest (events st)) with
          | Next st' => checkPending fuel' st'
          | Return r st' => Some (r, events st')
          end
      end
  end.

(** [TypeChecker::checkGenericArguments]. *)
Definition checkGenericArguments (fuel : nat)
           (requirements : list Requirement)
  : option (RequirementCheckResult * list Event) :=
  checkPending fuel (mkState true [mkSet requirements []] []).

End Checker.

End GenericArguments.


(* ================================================================== *)
(** ** Every generic parameter must be referenced:
       [checkReferencedGenericParams] *)
(* ================================================================== *)

Module ReferencedParams.

(** [SmallPtrSet<CanType>]: membership and insertion; [insert] also says
    whether the element is new. *)
Definition SmallPtrSet : Type := list Ty.

Definition count (t : Ty) (s : SmallPtrSet) : bool := existsb (isEqual t) s.

Definition insert (t : Ty) (s : SmallPtrSet) : SmallPtrSet * bool :=
  if count t s then (s, false) else (s ++ [t], true).

(** [ReferencedGenericTypeWalker]: [Type::walk] with [walkToTypePre].  A
    type without type parameters is skipped; a type parameter (generic
    parameter or dependent member type) is recorded and not entered;
    anything else is entered. *)
Fixpoint walk (ty : Ty) (refs : SmallPtrSet) : SmallPtrSet :=
  if negb (hasTypeParameter ty) then refs
  else if isTypeParameter ty then fst (insert ty refs)
  else
    match ty with
    | DependentMemberType b _ => walk b refs
    | NominalType _ args => fold_left (fun acc a => walk a acc) args refs
    | FunctionType ps r =>
        walk r (fold_left (fun acc a => walk a acc) ps refs)
    | _ => refs
    end.

(** What the function reads of the generic context [dc] and of its
    declaration: whether it is an accessor, its own generic parameter
    list (the first parameter and the others; [None] when it has none),
    the signature of the context, and the parameter and result types of
    the declaration's generic function type. *)
Record GenericContext : Type := mkContext {
  isAccessorDecl : bool;
  ownGenericParams : option (GenericParam * list GenericParam);
  getGenericSignatureOfContext : GenericSignature;
  funcParams : list Ty;
  funcResult : Ty
}.

(** What the function does to the declaration: the
    [unreferenced_generic_parameter] errors, in order (each names its
    parameter), the interface type and the invalid flag. *)
Record DeclState : Type := mkDecl {
  diagnosed : list GenericParam;
  interfaceType : Ty;
  invalid : bool
}.

(** The types of a requirement the visitor looks at: the first type, and
    the second type of a superclass or same-type requirement. *)
Definition visitedSecondType (req : Requirement) : option Ty :=
  match req with
  | SuperclassReq _ t | SameTypeReq _ t => Some t
  | ConformanceReq _ _ | LayoutReq _ _ => None
  end.

(** [genericParamsUsedByRequirementTypes]. *)
Definition usedByRequirementTypes (req : Requirement) : SmallPtrSet :=
  let first := getFirstType req in
  let walker1 := if hasTypeParameter first then walk first [] else [] in
  match visitedSecondType req with
  | Some second =>
      if hasTypeParameter second then walk second walker1 else walker1
  | None => walker1
  end.

(** The [std::for_each] of the visitor: add the generic parameters among
    [used], ignoring dependent member types. *)
Fixpoint insertGenericParams (used : list Ty) (refs : SmallPtrSet)
  : SmallPtrSet * bool :=
  match used with
  | [] => (refs, false)
  | t :: rest =>
      if negb (isGenericTypeParam t) then insertGenericParams rest refs
      else
        let (refs1, new1) := insert t refs in
        let (refs2, new2) := insertGenericParams rest refs1 in
        (refs2, new1 || new2)
  end.

(** [reqTypesVisitor]: the new set of referenced parameters and
    [foundNewReferencedGenericParam]. *)
Definition reqTypesVisitor (req : Requirement) (refs : SmallPtrSet)
  : SmallPtrSet * bool :=
  let used := usedByRequirementTypes req in
  if existsb (fun t => count (getRootGenericParam t) refs) used
  then insertGenericParams used refs
  else (refs, false).

(** One round of the [while (true)] loop: visit every requirement. *)
Fixpoint visitRequirements (reqs : list Requirement) (refs : SmallPtrSet)
  : SmallPtrSet * bool :=
  match reqs with
  | [] => (refs, false)
  | req :: rest =>
      let (refs1, found1) := reqTypesVisitor req refs in
      let (refs2, found2) := visitRequirements rest refs1 in
      (refs2, found1 || found2)
  end.

(** [FindReferencedGenericParamsInRequirements]: rounds until one finds
    nothing new.  Each unit of [fuel] pays for one round. *)
Fixpoint FindReferencedGenericParamsInRequirements
         (fuel : nat) (reqs : list Requirement) (refs : SmallPtrSet)
  : option SmallPtrSet :=
  match fuel with
  | O => None
  | S fuel' =>
      let (refs', found) := visitRequirements reqs refs in
      if found
      then FindReferencedGenericParamsInRequirements fuel' reqs refs'
      else Some refs'
  end.

(** The generic parameters referenced in the parameter types and in the
    result type. *)
Definition paramsAndResultWalker (dc : GenericContext) : SmallPtrSet :=
  walk (funcResult dc)
       (fold_left (fun acc a => walk a acc) (funcParams dc) []).

(** The state of the final [for] loop: the referenced set, the local
    [requirements] array (empty until the lazy search ran on a signature
    that has requirements) and the declaration. *)
Record LoopState : Type := mkLoop {
  referencedGenericParams : SmallPtrSet;
  requirements : list Requirement;
  decl : DeclState
}.

Definition diagnoseUnreferenced (genParam : GenericParam) (d : DeclState)
  : DeclState :=
  mkDecl (diagnosed d ++ [genParam]) ErrorType true.

(** The body of the final [for] loop for one parameter of the
    signature. *)
Definition checkParam (fuel : nat) (sig : GenericSignature)
           (fnGenericParamsDepth : Z) (genParam : GenericParam)
           (st : LoopState) : option LoopState :=
  if negb (Z.eqb (gpDepth genParam) fnGenericParamsDepth) then Some st
  else if count (gpType genParam) (referencedGenericParams st) then Some st
  else
    match requirements st with
    | [] =>
        (* Lazily search for generic params that are indirectly used. *)
        match FindReferencedGenericParamsInRequirements
                fuel (getRequirements sig) (referencedGenericParams st) with
        | None => None
        | Some refs =>
            let st1 := mkLoop refs (getRequirements sig) (decl st) in
            if count (gpType genParam) refs then Some st1
            else Some (mkLoop refs (getRequirements sig)
                              (diagnoseUnreferenced genParam (decl st)))
        end
    | _ :: _ =>
        Some (mkLoop (referencedGenericParams st) (requirements st)
                     (diagnoseUnreferenced genParam (decl st)))
    end.

Fixpoint checkParams (fuel : nat) (sig : GenericSignature)
         (fnGenericParamsDepth : Z) (params : list GenericParam)
         (st : LoopState) : option LoopState :=
  match params with
  | [] => Some st
  | genParam :: rest =>
      match checkParam fuel sig fnGenericParamsDepth genParam st with
      | None => None
      | Some st' => checkParams fuel sig fnGenericParamsDepth rest st'
      end
  end.

(** The declaration before the check: nothing diagnosed, the generic
    function type as interface type, valid. *)
Definition initialDecl (dc : GenericContext) : DeclState :=
  mkDecl [] (FunctionType (funcParams dc) (funcResult dc)) false.

(** [TypeChecker::checkReferencedGenericParams].  [None] means the fuel
    of the search ran out. *)
Definition checkReferencedGenericParams (fuel : nat) (dc : GenericContext)
  : option DeclState :=
  if isAccessorDecl dc then Some (initialDecl dc)
  else
    match ownGenericParams dc with
    | None => Some (initialDecl dc)
    | Some (front, _) =>
        let genericSig := getGenericSignatureOfContext dc in
        let fnGenericParamsDepth := gpDepth front in
        match checkParams fuel genericSig fnGenericParamsDepth
                          (getGenericParams genericSig)
                          (mkLoop (paramsAndResultWalker dc) []
                                  (initialDecl dc)) with
        | None => None
        | Some st => Some (decl st)
        end
    end.

End ReferencedParams.

(* ================================================================== *)
(** ** The signature builder, as its callers see it *)
(* ================================================================== *)

Module Builder.

(** [GenericSignatureBuilder::FloatingRequirementSource]. *)
Inductive FloatingRequirementSource : Type :=
| forExplicit
| forAbstract
| forInferred.

(** The calls a function makes on a [GenericSignatureBuilder].  The
    builder's own code is in the AST library; a builder is represented by
    the calls made on it, oldest first. *)
Inductive BuilderCall : Type :=
| addGenericSignature (sig : option GenericSignaturePtr)
| addGenericParameter (param : Ty)
| addGenericParameterRequirements (param : GenericParam)
| addRequirement (req : Requirement) (source : FloatingRequirementSource).

Definition GenericSignatureBuilder : Type := list BuilderCall.

(** What [checkGenericParamList] asks of an extension that owns a where
    clause. *)
Record ExtensionTypes : Type := mkExtTypes {
  getExtendedType : Ty;
  getSelfInterfaceType : Ty;
  extendedTypeIsExistential : bool
}.

(** A generic parameter list: its parameters (there is at least one), the
    requirements of its where clause as [RequirementRequest] resolves
    them, the extension its declaration context is (if it is one), and
    the list of the enclosing context, if any. *)
Inductive GenericParamList : Type :=
| mkParamList (front : GenericParam) (others : list GenericParam)
              (whereClause : list Requirement)
              (declContext : option ExtensionTypes)
              (outer : option GenericParamList).

Definition getParams (l : GenericParamList) : list GenericParam :=
  match l with mkParamList p ps _ _ _ => p :: ps end.
Definition getWhereClause (l : GenericParamList) : list Requirement :=
  match l with mkParamList _ _ w _ _ => w end.
Definition getDeclContext (l : GenericParamList) : option ExtensionTypes :=
  match l with mkParamList _ _ _ dc _ => dc end.
Definition getOuterParameters (l : GenericParamList)
  : option GenericParamList :=
  match l with mkParamList _ _ _ _ o => o end.

(** [getParams().back()]. *)
Definition backParam (l : GenericParamList) : GenericParam :=
  match l with mkParamList p ps _ _ _ => last ps p end.

Inductive Diagnostic : Type :=
| protocol_extension_redundant_requirement (extType extSelfType rhs : Ty).

(** The redundant-requirement diagnostic of [checkGenericParamList]
    (lines 77-96), emitted when the where clause of an extension of an
    existential type constrains [Self] to the extended type.  When the
    declaration context is an extension, line 82 calls [getSecondType()]
    on the requirement whatever its kind; [None] stands for that call on
    a layout requirement, which has no second type. *)
Definition redundantRequirement (ext : option ExtensionTypes)
           (req : Requirement) : option (list Diagnostic) :=
  match ext with
  | None => Some []
  | Some e =>
      match getSecondType req with
      | None => None
      | Some reqRHSType =>
          Some (if extendedTypeIsExistential e
                   && isEqual (getFirstType req) (getSelfInterfaceType e)
                   && isEqual reqRHSType (getExtendedType e)
                then [protocol_extension_redundant_requirement
                        (getExtendedType e) (getSelfInterfaceType e)
                        reqRHSType]
                else [])
      end
  end.

(** The visitor of lines 70-101 on the requirements of the where clause,
    in the order written: the redundancy diagnostic, then
    [addRequirement].  Nothing is added for a requirement on which the
    diagnostic is undefined, nor after it. *)
Fixpoint visitWhereClause (ext : option ExtensionTypes)
         (reqs : list Requirement)
         (state : GenericSignatureBuilder * list Diagnostic)
  : option (GenericSignatureBuilder * list Diagnostic) :=
  match reqs with
  | [] => Some state
  | req :: rest =>
      match redundantRequirement ext req with
      | None => None
      | Some diags =>
          visitWhereClause ext rest
            (fst state ++ [addRequirement req forExplicit],
             snd state ++ diags)
      end
  end.

(** [checkGenericParamList]: the calls appended to the builder and the
    diagnostics; [None] when the visit of the where clause is
    undefined. *)
Definition checkGenericParamList (builder : GenericSignatureBuilder)
           (genericParams : GenericParamList)
           (parentSig : option GenericSignaturePtr)
  : option (GenericSignatureBuilder * list Diagnostic) :=
  visitWhereClause (getDeclContext genericParams)
    (getWhereClause genericParams)
    (builder
       ++ [addGenericSignature parentSig]
       ++ map (fun p => addGenericParameter (gpType p))
              (getParams genericParams)
       ++ map addGenericParameterRequirements (getParams genericParams),
     []).

End Builder.

(* ================================================================== *)
(** ** Generic environments of types and extensions:
       [checkGenericEnvironment] *)
(* ================================================================== *)

Module GenericEnvironments.
Import Builder.

(** [GenericEnvironment]: created from a signature by
    [createGenericEnvironment]. *)
Record GenericEnvironment : Type := mkEnv {
  getGenericSignature : GenericSignaturePtr
}.

Definition createGenericEnvironment (sig : GenericSignaturePtr)
  : GenericEnvironment := mkEnv sig.

(** A nominal type declaration: the signature of its context, if it has
    one. *)
Record NominalTypeDecl : Type := mkNominal {
  nominalSignature : option GenericSignaturePtr
}.

(** What the function reads of an extension: whether it has a trailing
    where clause, and the nominal type it extends, if any. *)
Record ExtensionDecl : Type := mkExt {
  getTrailingWhereClause : bool;
  getSelfNominalTypeDecl : option NominalTypeDecl
}.

(** [static_cast<unsigned>(-1)]. *)
Definition NO_DEPTH : Z := wrap32 (-1).

(** [getExtendedTypeGenericDepth]; [None] stands for [back()] on a
    signature without parameters. *)
Definition getExtendedTypeGenericDepth (ext : ExtensionDecl) : option Z :=
  match getSelfNominalTypeDecl ext with
  | None => Some NO_DEPTH
  | Some nominal =>
      match nominalSignature nominal with
      | None => Some NO_DEPTH
      | Some sig => option_map gpDepth (back (getGenericParams (pointee sig)))
      end
  end.

(** [visitOuterToInner] with the visitor of [checkGenericEnvironment]:
    the outer lists first, each checked with no parent signature.  An
    undefined check of a list ends the visit. *)
Fixpoint visitOuterToInner (genericParams : GenericParamList)
         (state : GenericSignatureBuilder * list Diagnostic)
  : option (GenericSignatureBuilder * list Diagnostic) :=
  match genericParams with
  | mkParamList p ps w dc o =>
      match
        match o with
        | Some outerGenericParams => visitOuterToInner outerGenericParams state
        | None => Some state
        end
      with
      | None => None
      | Some (builder, diags) =>
          match
            checkGenericParamList builder (mkParamList p ps w dc o) None
          with
          | None => None
          | Some (builder', diags') => Some (builder', diags ++ diags')
          end
      end
  end.

(** What a call leaves behind: the environment, the builder it ran
    ([None] when it built none) and the diagnostics. *)
Record Outcome : Type := mkOutcome {
  environment : GenericEnvironment;
  builderRun : option GenericSignatureBuilder;
  diagnostics : list Diagnostic
}.

Section CheckGenericEnvironment.

(** [GenericSignatureBuilder::computeGenericSignature], given the calls
    made on the builder and [allowConcreteGenericParams]. *)
Variable computeGenericSignature :
  GenericSignatureBuilder -> bool -> GenericSignaturePtr.

(** The condition of the [if]: a builder is needed.  [None] stands for
    [back()] on a signature without parameters. *)
Definition needsBuilder (genericParams : GenericParamList)
           (ext : option ExtensionDecl) (mustInferRequirements : bool)
  : option bool :=
  match ext with
  | None => Some true
  | Some e =>
      if mustInferRequirements || getTrailingWhereClause e then Some true
      else
        match getExtendedTypeGenericDepth e with
        | None => None
        | Some depth =>
            Some (negb (Z.eqb depth (gpDepth (backParam genericParams))))
        end
  end.

(** [TypeChecker::checkGenericEnvironment].  [inferRequirements] is the
    caller's callback on the builder.  [None] stands for the undefined
    behaviour of the source: [back()] on a signature without parameters,
    the re-use branch taken for an extension that has no signature to
    re-use, or an undefined check of a generic parameter list. *)
Definition checkGenericEnvironment
           (genericParams : GenericParamList)
           (parentSig : option GenericSignaturePtr)
           (allowConcreteGenericParams : bool)
           (ext : option ExtensionDecl)
           (inferRequirements :
              GenericSignatureBuilder -> GenericSignatureBuilder)
           (mustInferRequirements : bool) : option Outcome :=
  match needsBuilder genericParams ext mustInferRequirements with
  | None => None
  | Some true =>
      (* Create the generic signature builder. *)
      let builder : GenericSignatureBuilder := [] in
      match
        match getOuterParameters genericParams, parentSig with
        | Some _, None => visitOuterToInner genericParams (builder, [])
        | _, _ => checkGenericParamList builder genericParams parentSig
        end
      with
      | None => None
      | Some (builder1, diags) =>
          (* Perform any necessary requirement inference. *)
          let builder2 := inferRequirements builder1 in
          (* Record the generic type parameter types and the
             requirements. *)
          let sig :=
            computeGenericSignature builder2 allowConcreteGenericParams in
          Some (mkOutcome (createGenericEnvironment sig) (Some builder2)
                          diags)
      end
  | Some false =>
      (* Re-use the signature of the type being extended. *)
      match ext with
      | Some e =>
          match getSelfNominalTypeDecl e with
          | Some nominal =>
              match nominalSignature nominal with
              | Some sig =>
                  Some (mkOutcome (createGenericEnvironment sig) None [])
              | None => None
              end
          | None => None
          end
      | None => None
      end
  end.

End CheckGenericEnvironment.

(** The generic depth of the type an extension extends: the depth of the
    last parameter of the signature of its nominal type, when it has a
    nominal type with a signature. *)
Definition extendedDepth (ext : ExtensionDecl) : option Z :=
  match getSelfNominalTypeDecl ext with
  | Some nominal =>
      match nominalSignature nominal with
      | Some sig => option_map gpDepth (back (getGenericParams (pointee sig)))
      | None => None
      end
  | None => None
  end.

(** The extension adds no constraint and sits at the depth of the type
    it extends. *)
Definition extendsAtSameDepth (genericParams : GenericParamList)
           (ext : option ExtensionDecl) (mustInferRequirements : bool)
  : Prop :=
  exists e, ext = Some e
            /\ getTrailingWhereClause e = false
            /\ mustInferRequirements = false
            /\ extendedDepth e = Some (gpDepth (backParam genericParams)).

(** Every signature has a parameter, and no parameter has the depth that
    stands for "no depth". *)
Definition wellFormedDepths (genericParams : GenericParamList)
           (ext : option ExtensionDecl) : Prop :=
  gpDepth (backParam genericParams) <> NO_DEPTH
  /\ forall e nominal sig,
      ext = Some e -> getSelfNominalTypeDecl e = Some nominal ->
      nominalSignature nominal = Some sig ->
      getGenericParams (pointee sig) <> [].

(** The enclosing lists of a generic parameter list and the list itself,
    outermost first. *)
Fixpoint outermostFirst (l : GenericParamList) : list GenericParamList :=
  match l with
  | mkParamList p ps w dc o =>
      match o with
      | Some outerGenericParams => outermostFirst outerGenericParams
      | None => []
      end ++ [mkParamList p ps w dc o]
  end.

(** The lists a call that needs a builder has to check: every list when
    there are enclosing lists and no parent signature, the given list
    alone otherwise. *)
Definition checkedLists (genericParams : GenericParamList)
           (parentSig : option GenericSignaturePtr)
  : list GenericParamList :=
  match getOuterParameters genericParams, parentSig with
  | Some _, None => outermostFirst genericParams
  | _, _ => [genericParams]
  end.

(** The list belongs to an extension and its where clause holds a layout
    requirement, as in [extension Array where Element: AnyObject]. *)
Definition constrainsLayoutInExtension (l : GenericParamList) : Prop :=
  exists e req,
    getDeclContext l = Some e
    /\ In req (getWhereClause l)
    /\ getKind req = Layout.

End GenericEnvironments.

(* ================================================================== *)
(** ** Opaque result types: [getOrCreateOpaqueResultType] *)
(* ================================================================== *)

Module OpaqueResult.
Import Builder.

(** [ExistentialLayout]: the superclass, the protocols and the layout
    constraint of an existential type. *)
Record ExistentialLayout : Type := mkLayout {
  getSuperclass : option Ty;
  getProtocols : list string;
  getLayoutConstraint : option LayoutConstraint
}.

(** [OpaqueTypeDecl]: the signature of the opaque environment, the
    generic parameter that stands for the underlying type, and whether it
    was given the generic environment of the originating context. *)
Record OpaqueTypeDecl : Type := mkOpaqueDecl {
  getOpaqueInterfaceGenericSignature : GenericSignaturePtr;
  getUnderlyingInterfaceType : Ty;
  hasGenericEnvironment : bool
}.

(** What the function reads of the originating declaration and of the
    opaque return type representation. *)
Record OriginatingDecl : Type := mkOriginating {
  inProtocol : bool;
  isProtocolRequirement : bool;
  getOpaqueResultTypeDecl : option OpaqueTypeDecl;
  getGenericSignatureOfContext : option GenericSignaturePtr;
  hasGenericEnvironmentOfContext : bool;
  DisableAvailabilityChecking : bool;
  runningOSIsContainedInAvailability : bool;
  validationError : bool;
  constraintType : Ty
}.

Inductive Diagnostic : Type :=
| opaque_type_in_protocol_requirement
| opaque_type_unavailable
| opaque_type_invalid_constraint.

(** The type the function returns. *)
Inductive ReturnedType : Type :=
| PlainType (t : Ty)
| DeclaredInterfaceTypeOf (existingDecl : OpaqueTypeDecl)
| OpaqueTypeArchetypeType (opaqueDecl : OpaqueTypeDecl)
                          (subs : option GenericSignaturePtr).

Record Outcome : Type := mkOutcome {
  returned : ReturnedType;
  diagnostics : list Diagnostic;
  builderRun : option GenericSignatureBuilder;
  setOpaqueResultTypeDecl : option OpaqueTypeDecl
}.

Section GetOrCreate.

(** Predicates of the AST on the constraint type, and the builder's
    [computeGenericSignature]. *)
Variable getClassOrBoundGenericClass : Ty -> bool.
Variable isExistentialType : Ty -> bool.
Variable getExistentialLayout : Ty -> ExistentialLayout.
Variable computeGenericSignature :
  GenericSignatureBuilder -> bool -> GenericSignaturePtr.

(** [returnTypeDepth]; [None] stands for [back()] on a signature without
    parameters. *)
Definition returnTypeDepth (outerGenericSignature : option GenericSignaturePtr)
  : option Z :=
  match outerGenericSignature with
  | None => Some 0%Z
  | Some sig =>
      match back (getGenericParams (pointee sig)) with
      | Some p => Some (wrap32 (gpDepth p + 1))
      | None => None
      end
  end.

(** The requirements added for the constraint type (lines 246-271). *)
Definition constraintRequirements (returnTypeParam constraintType : Ty)
  : list BuilderCall :=
  if getClassOrBoundGenericClass constraintType then
    [addRequirement (SuperclassReq returnTypeParam constraintType)
                    forAbstract]
  else
    let constraints := getExistentialLayout constraintType in
    (match getSuperclass constraints with
     | Some superclass =>
         [addRequirement (SuperclassReq returnTypeParam superclass)
                         forAbstract]
     | None => []
     end)
    ++ map (fun protocol =>
              addRequirement (ConformanceReq returnTypeParam protocol)
                             forAbstract)
           (getProtocols constraints)
    ++ (match getLayoutConstraint constraints with
        | Some layout =>
            [addRequirement (LayoutReq returnTypeParam layout) forAbstract]
        | None => []
        end).

(** [TypeChecker::getOrCreateOpaqueResultType]. *)
Definition getOrCreateOpaqueResultType (originatingDecl : OriginatingDecl)
  : option Outcome :=
  (* Protocol requirements can't have opaque return types. *)
  if inProtocol originatingDecl && isProtocolRequirement originatingDecl then
    Some (mkOutcome (PlainType ErrorType)
                    [opaque_type_in_protocol_requirement] None None)
  else
    match getOpaqueResultTypeDecl originatingDecl with
    | Some existingDecl =>
        Some (mkOutcome (DeclaredInterfaceTypeOf existingDecl) [] None None)
    | None =>
        (* Check the availability of the opaque type runtime support. *)
        let diags1 :=
          if negb (DisableAvailabilityChecking originatingDecl)
             && negb (runningOSIsContainedInAvailability originatingDecl)
          then [opaque_type_unavailable] else [] in
        let constraintType := constraintType originatingDecl in
        if validationError originatingDecl then
          Some (mkOutcome (PlainType constraintType) diags1 None None)
        else if negb (getClassOrBoundGenericClass constraintType)
                && negb (isExistentialType constraintType) then
          Some (mkOutcome (PlainType constraintType)
                          (diags1 ++ [opaque_type_invalid_constraint])
                          None None)
        else
          let outerGenericSignature :=
            getGenericSignatureOfContext originatingDecl in
          match returnTypeDepth outerGenericSignature with
          | None => None
          | Some depth =>
              let builder : GenericSignatureBuilder :=
                match outerGenericSignature with
                | Some sig => [addGenericSignature (Some sig)]
                | None => []
                end in
              let returnTypeParam := GenericTypeParamType depth 0 in
              let builder1 :=
                builder ++ [addGenericParameter returnTypeParam]
                        ++ constraintRequirements returnTypeParam
                                                  constraintType in
              let interfaceSignature :=
                computeGenericSignature builder1 false in
              let opaqueDecl :=
                mkOpaqueDecl interfaceSignature returnTypeParam
                  (hasGenericEnvironmentOfContext originatingDecl) in
              Some (mkOutcome
                      (OpaqueTypeArchetypeType opaqueDecl
                                               outerGenericSignature)
                      diags1 (Some builder1) (Some opaqueDecl))
          end
    end.

End GetOrCreate.

(** The generic parameters and the requirements a builder was given. *)
Definition addedParameters (builder : GenericSignatureBuilder) : list Ty :=
  flat_map (fun call => match call with
                        | addGenericParameter p => [p]
                        | _ => []
                        end) builder.

Definition addedRequirements (builder : GenericSignatureBuilder)
  : list Requirement :=
  flat_map (fun call => match call with
                        | addRequirement req _ => [req]
                        | _ => []
                        end) builder.

(** The depth of the deepest parameter (depths are not negative). *)
Definition deepestDepth (params : list GenericParam) : Z :=
  fold_right (fun p m => Z.max (gpDepth p) m) 0%Z params.

(** The parameters of a signature come outermost first, and their depths
    fit an [unsigned] with room for one more level. *)
Definition orderedDepths (params : list GenericParam) : Prop :=
  Sorted (fun a b => (gpDepth a <= gpDepth b)%Z) params
  /\ Forall (fun p => (0 <= gpDepth p)%Z /\ (gpDepth p + 1 < UINT_MODULUS)%Z)
            params.

(** The requirements the bound of an opaque type stands for: the class
    as superclass, or the superclass, the protocols and the layout
    constraint of the existential type. *)
Definition boundRequirements (isClassBound : bool) (layout : ExistentialLayout)
           (param bound : Ty) : list Requirement :=
  if isClassBound then [SuperclassReq param bound]
  else
    (match getSuperclass layout with
     | Some superclass => [SuperclassReq param superclass]
     | None => []
     end)
    ++ map (ConformanceReq param) (getProtocols layout)
    ++ (match getLayoutConstraint layout with
        | Some l => [LayoutReq param l]
        | None => []
        end).

End OpaqueResult.

(* ================================================================== *)
(** ** The reading of one requirement, and requirement trees *)
(* ================================================================== *)

Module RequirementTrees.
Import GenericArguments.

Section Reading.

Variable tc : TypeCheckerOps.
Variable listener : option GenericRequirementsCheckListener.

(** The requirement the checker looks at: the substituted one at the top
    level, the requirement itself below a conditional conformance. *)
Definition substituted (parents : list ParentConditionalConformance)
           (rawReq : Requirement) : option Requirement :=
  if isEmpty parents then Requirement_subst tc rawReq else Some rawReq.

Definition firstTypeOf (req : Requirement) : Ty :=
  intoContext tc (getFirstType req).

Definition secondTypeOf (req : Requirement) : option Ty :=
  option_map (intoContext tc) (getSecondType req).

(** One of the sides carries an error type. *)
Definition carriesError (req : Requirement) : bool :=
  hasError (firstTypeOf req)
  || match secondTypeOf req with Some t => hasError t | None => false end.

(** What the checker finds out about one requirement. *)
Inductive Reading : Type :=
| SubstitutionFailed
| NotChecked
| Satisfied
| SatisfiedConformanceWith (firstType : Ty) (proto : string)
                           (conformance : ProtocolConformanceRef)
| Violated (firstType : Ty) (secondType : option Ty)
           (diagnostic diagnosticNote : DiagID).

(** The check by kind, on a requirement that was substituted, carries no
    error and is not left out by the listener. *)
Definition checkKind (req : Requirement) : Reading :=
  let firstType := firstTypeOf req in
  let secondType := secondTypeOf req in
  match req with
  | ConformanceReq _ proto =>
      match conformsToProtocol tc firstType proto with
      | Some conformance => SatisfiedConformanceWith firstType proto conformance
      | None =>
          Violated firstType secondType type_does_not_conform_owner
                   type_does_not_inherit_or_conform_requirement
      end
  | LayoutReq _ layout =>
      if isClass layout && negb (satisfiesClassConstraint tc firstType)
      then Violated firstType secondType type_is_not_a_class
                    anyobject_requirement
      else Satisfied
  | SuperclassReq _ superclass =>
      if negb (isExactSuperclassOf tc (intoContext tc superclass) firstType)
      then Violated firstType secondType type_does_not_inherit
                    type_does_not_inherit_or_conform_requirement
      else Satisfied
  | SameTypeReq _ second =>
      if negb (isEqual firstType (intoContext tc second))
      then Violated firstType secondType types_not_equal
                    types_not_equal_requirement
      else Satisfied
  end.

Definition read (parents : list ParentConditionalConformance)
           (rawReq : Requirement) : Reading :=
  match substituted parents rawReq with
  | None => SubstitutionFailed
  | Some req =>
      if carriesError req then SubstitutionFailed
      else if listenerSkips listener (getKind req) (firstTypeOf req)
                            (secondTypeOf req)
      then NotChecked
      else checkKind req
  end.

(** The requirement set a satisfied conformance adds to the work-list. *)
Definition conditionalSet (parents : list ParentConditionalConformance)
           (firstType : Ty) (proto : string)
           (conformance : ProtocolConformanceRef) : RequirementSet :=
  mkSet (getConditionalRequirements conformance)
        (parents ++ [mkParent firstType proto]).

(** "Every requirement substitutes and checks successfully", and its
    weakening "no requirement is violated": [Passes parents reqs b] says
    that every requirement of [reqs], and of the conditional requirements
    of the conformances that satisfy them, and so on, is satisfied, left
    out by the listener or (only when [b] is [true]) fails in
    substitution; [b] tells whether a substitution failure occurs. *)
Inductive Passes (parents : list ParentConditionalConformance)
  : list Requirement -> bool -> Prop :=
| Passes_nil : Passes parents [] false
| Passes_substitutionFailed : forall r rs b,
    read parents r = SubstitutionFailed ->
    Passes parents rs b ->
    Passes parents (r :: rs) true
| Passes_notChecked : forall r rs b,
    read parents r = NotChecked ->
    Passes parents rs b ->
    Passes parents (r :: rs) b
| Passes_satisfied : forall r rs b,
    read parents r = Satisfied ->
    Passes parents rs b ->
    Passes parents (r :: rs) b
| Passes_conformance : forall r rs firstType proto conformance b1 b2,
    read parents r = SatisfiedConformanceWith firstType proto conformance ->
    Passes (parents ++ [mkParent firstType proto])
           (getConditionalRequirements conformance) b1 ->
    Passes parents rs b2 ->
    Passes parents (r :: rs) (b1 || b2).

(** [Passes] for every set of a work-list. *)
Inductive PassesAll : list RequirementSet -> bool -> Prop :=
| PassesAll_nil : PassesAll [] false
| PassesAll_cons : forall s rest b1 b2,
    Passes (Parents s) (Requirements s) b1 ->
    PassesAll rest b2 ->
    PassesAll (s :: rest) (b1 || b2).

(** Every requirement substitutes and checks successfully. *)
Definition AllSatisfied (parents : list ParentConditionalConformance)
           (reqs : list Requirement) : Prop :=
  Passes parents reqs false.

(** No requirement is violated. *)
Definition NoViolation (parents : list ParentConditionalConformance)
           (reqs : list Requirement) : Prop :=
  exists b, Passes parents reqs b.

(** A substitution failure occurs: in [reqs], or in the conditional
    requirements of a conformance that satisfies one of them, and so
    on. *)
Inductive SubstitutionFailureIn (parents : list ParentConditionalConformance)
  : list Requirement -> Prop :=
| Failure_here : forall r rs,
    read parents r = SubstitutionFailed ->
    SubstitutionFailureIn parents (r :: rs)
| Failure_below : forall r rs firstType proto conformance,
    read parents r = SatisfiedConformanceWith firstType proto conformance ->
    SubstitutionFailureIn (parents ++ [mkParent firstType proto])
                          (getConditionalRequirements conformance) ->
    SubstitutionFailureIn parents (r :: rs)
| Failure_later : forall r rs,
    SubstitutionFailureIn parents rs ->
    SubstitutionFailureIn parents (r :: rs).

End Reading.

Section Effects.

Variable tc : TypeCheckerOps.
Variable loc noteLoc : SourceLoc.
Variable owner : Ty.
Variable genericParams : list GenericParam.
Variable listener : option GenericRequirementsCheckListener.

(** What the loop body does to the state, given its reading of the
    requirement. *)
Definition act (parents : list ParentConditionalConformance)
           (rawReq : Requirement) (reading : Reading) (st : CheckState)
  : Flow :=
  match reading with
  | SubstitutionFailed => Next (setInvalid st)
  | NotChecked | Satisfied => Next st
  | SatisfiedConformanceWith firstType proto conformance =>
      let st1 :=
        match listener with
        | Some _ =>
            if valid st && isEmpty parents
            then emit [SatisfiedConformance (getFirstType rawReq) firstType
                                            conformance] st
            else st
        | None => st
        end in
      if negb (isEmpty (getConditionalRequirements conformance))
      then Next (push_back
                   (conditionalSet parents firstType proto conformance) st1)
      else Next st1
  | Violated firstType secondType diagnostic diagnosticNote =>
      match getKind rawReq, parents with
      | Conformance, [] => Return Failure st
      | _, _ =>
          reportFailure tc loc noteLoc owner genericParams listener parents
                        rawReq firstType secondType diagnostic
                        diagnosticNote st
      end
  end.

(** The work-list loop, keeping the state it stops in: [Next] when the
    work-list is empty, [Return] when the body returned. *)
Fixpoint drain (fuel : nat) (st : CheckState) : option Flow :=
  match pendingReqs st with
  | [] => Some (Next st)
  | current :: rest =>
      match fuel with
      | O => None
      | S fuel' =>
          match checkRequirements tc loc noteLoc owner genericParams listener
                  (Parents current) (Requirements current)
                  (mkState (valid st) rest (events st)) with
          | Next st' => drain fuel' st'
          | Return r st' => Some (Return r st')
          end
      end
  end.

(** The value returned for a stopped loop. *)
Definition finish (f : Flow) : RequirementCheckResult * list Event :=
  match f with
  | Next st => (if valid st then Success else SubstitutionFailure, events st)
  | Return r st => (r, events st)
  end.

(** A state put in front of more pending sets and after earlier
    events. *)
Definition framed (later : list RequirementSet) (st : CheckState)
  : CheckState :=
  mkState (valid st) (pendingReqs st ++ later) (events st).

Definition framedFlow (later : list RequirementSet) (f : Flow) : Flow :=
  match f with
  | Next st => Next (framed later st)
  | Return r st => Return r (framed later st)
  end.

(** The diagnostics of a violated requirement: none for a conformance at
    the top level (it is diagnosed elsewhere), none when the listener
    says it diagnosed the requirement, none without a valid location. *)
Definition diagnosticsOf (parents : list ParentConditionalConformance)
           (rawReq : Requirement) (firstType : Ty) (secondType : option Ty)
           (diagnostic diagnosticNote : DiagID) : list Event :=
  Diagnose loc diagnostic owner firstType secondType
  :: DiagnoseNote noteLoc diagnosticNote (getFirstType rawReq)
                  (getSecondType rawReq)
                  (if isEmpty genericParams then EmptyString
                   else gatherGenericParamBindingsText tc
                          [Some (getFirstType rawReq); getSecondType rawReq]
                          genericParams)
  :: diagnoseConformanceStack noteLoc parents.

Definition failureEvents (parents : list ParentConditionalConformance)
           (rawReq : Requirement) (firstType : Ty) (secondType : option Ty)
           (diagnostic diagnosticNote : DiagID) : list Event :=
  match getKind rawReq, parents with
  | Conformance, [] => []
  | _, _ =>
      if listenerDiagnoses listener rawReq firstType secondType parents
      then []
      else if isValid loc
           then diagnosticsOf parents rawReq firstType secondType
                              diagnostic diagnosticNote
           else []
  end.

End Effects.

(** The same primitives with another [Type::subst], and with another
    substitution function as well. *)
Definition withSubstType (f : Ty -> option Ty) (tc : TypeCheckerOps)
  : TypeCheckerOps :=
  mkOps f (substitutions tc) (conformsToProtocol tc) (mapTypeIntoContext tc)
        (isExactSuperclassOf tc) (satisfiesClassConstraint tc) (getString tc).

Definition withSubstitutions (f g : Ty -> option Ty) (tc : TypeCheckerOps)
  : TypeCheckerOps :=
  mkOps f g (conformsToProtocol tc) (mapTypeIntoContext tc)
        (isExactSuperclassOf tc) (satisfiesClassConstraint tc) (getString tc).

(** A requirement set reached through a conditional conformance. *)
Definition isNested (s : RequirementSet) : bool := negb (isEmpty (Parents s)).

(** A layout requirement whose constraint is not a class constraint. *)
Definition isNonClassLayout (r : Requirement) : bool :=
  match r with
  | LayoutReq _ layout => negb (isClass layout)
  | _ => false
  end.

End RequirementTrees.

(* ================================================================== *)
(** ** Sample declarations and call sites *)
(* ================================================================== *)

Module Samples.
Import GenericArguments.

Definition Int : Ty := NominalType "Int" [].
Definition Str : Ty := NominalType "String" [].
Definition ArrayOf (t : Ty) : Ty := NominalType "Array" [t].
Definition T : Ty := GenericTypeParamType 0 0.
Definition U : Ty := GenericTypeParamType 0 1.

(** A call site that binds [T] to [Array<Int>] and cannot bind [U].
    [Array<Int>] conforms to [P] on condition that [Int] conforms to [Q]
    and to [R], which it does not; [Int] conforms to [Equatable]. *)
Definition arrayConformance : ProtocolConformanceRef :=
  mkConformance (ArrayOf Int) "P"
                [ConformanceReq Int "Q"; ConformanceReq Int "R"].

Definition intEquatable : ProtocolConformanceRef :=
  mkConformance Int "Equatable" [].

Definition sampleOps : TypeCheckerOps :=
  mkOps
    (fun t => if isEqual t T then Some (ArrayOf Int)
              else if isEqual t U then None else Some t)
    (fun t => if isEqual t T then Some (ArrayOf Int) else None)
    (fun t p =>
       if isEqual t (ArrayOf Int) && String.eqb p "P"
       then Some arrayConformance
       else if isEqual t Int && String.eqb p "Equatable"
            then Some intEquatable
            else None)
    (fun t => t)
    (fun _ _ => false)
    (fun _ => false)
    (fun _ => EmptyString).

Definition sampleLoc : SourceLoc := Some 1.
Definition sampleNoteLoc : SourceLoc := Some 2.
Definition sampleOwner : Ty := NominalType "Box" [T].

(** A listener that checks everything and says it diagnosed every
    unsatisfied requirement itself. *)
Definition diagnosingListener : GenericRequirementsCheckListener :=
  mkListener (fun _ _ _ => true) (fun _ _ _ _ => true).

(** A listener that declines to have any requirement checked. *)
Definition vetoingListener : GenericRequirementsCheckListener :=
  mkListener (fun _ _ _ => false) (fun _ _ _ _ => false).

Definition arrayFrame : ParentConditionalConformance :=
  mkParent (ArrayOf Int) "P".

Definition intQ : Requirement := ConformanceReq Int "Q".
Definition intR : Requirement := ConformanceReq Int "R".

(** The diagnostics of the unsatisfied [Int: Q] below [Array<Int>: P]. *)
Definition qDiagnostics : list Event :=
  [Diagnose sampleLoc type_does_not_conform_owner sampleOwner Int
            (Some (ProtocolType "Q"));
   DiagnoseNote sampleNoteLoc type_does_not_inherit_or_conform_requirement
                Int (Some (ProtocolType "Q")) EmptyString;
   DiagnoseParent sampleNoteLoc requirement_implied_by_conditional_conformance
                  arrayFrame].

(** [func f<T1, T2, T3, U>(_: U) where T1 == T2.M, T2 == T3.N, T3 == U]:
    a chain of same-type requirements that ends in a referenced
    parameter. *)
Definition T1 : Ty := GenericTypeParamType 0 0.
Definition T2 : Ty := GenericTypeParamType 0 1.
Definition T3 : Ty := GenericTypeParamType 0 2.
Definition U0 : Ty := GenericTypeParamType 0 3.

Definition chainParams : list GenericParam :=
  [mkGenericParam "T1" 0 0; mkGenericParam "T2" 0 1;
   mkGenericParam "T3" 0 2; mkGenericParam "U" 0 3].

Definition chainDecl : ReferencedParams.GenericContext :=
  ReferencedParams.mkContext
    false
    (Some (mkGenericParam "T1" 0 0, tl chainParams))
    (mkSig chainParams
           [SameTypeReq T1 (DependentMemberType T2 "M");
            SameTypeReq T2 (DependentMemberType T3 "N");
            SameTypeReq T3 U0])
    [U0] (NominalType "Void" []).

(** [func g<T>()]: [T] is never mentioned. *)
Definition unusedDecl : ReferencedParams.GenericContext :=
  ReferencedParams.mkContext
    false
    (Some (mkGenericParam "T" 0 0, []))
    (mkSig [mkGenericParam "T" 0 0] [])
    [] (NominalType "Void" []).

(** [Array<Element>] and an extension of it. *)
Definition Element : GenericParam := mkGenericParam "Element" 0 0.

Definition arraySignature : GenericSignaturePtr :=
  mkSigPtr 64 (mkSig [Element] []).

Definition arrayExtension : GenericEnvironments.ExtensionDecl :=
  GenericEnvironments.mkExt
    false (Some (GenericEnvironments.mkNominal (Some arraySignature))).

Definition constrainedArrayExtension : GenericEnvironments.ExtensionDecl :=
  GenericEnvironments.mkExt
    true (Some (GenericEnvironments.mkNominal (Some arraySignature))).

Definition extensionParams : Builder.GenericParamList :=
  Builder.mkParamList Element [] [] None None.

(** [extension Array where Element: Equatable] and
    [extension Array where Element: AnyObject]. *)
Definition arrayExtensionTypes : Builder.ExtensionTypes :=
  Builder.mkExtTypes (NominalType "Array" [gpType Element])
                     (NominalType "Array" [gpType Element]) false.

Definition constrainedExtensionParams : Builder.GenericParamList :=
  Builder.mkParamList Element []
                      [ConformanceReq (gpType Element) "Equatable"]
                      (Some arrayExtensionTypes) None.

Definition layoutExtensionParams : Builder.GenericParamList :=
  Builder.mkParamList Element [] [LayoutReq (gpType Element) LayoutClass]
                      (Some arrayExtensionTypes) None.

(** A builder stand-in that allocates the signature of the parameters
    and requirements it was given at a fresh address. *)
Definition sampleCompute (builder : Builder.GenericSignatureBuilder)
           (allowConcreteGenericParams : bool) : GenericSignaturePtr :=
  mkSigPtr 128
    (mkSig (map (fun t => match t with
                          | GenericTypeParamType d i =>
                              mkGenericParam EmptyString d i
                          | _ => mkGenericParam EmptyString 0 0
                          end)
                (OpaqueResult.addedParameters builder))
           (OpaqueResult.addedRequirements builder)).

(** [func make<Element>() -> some Shape & AnyObject] inside [Array]: the
    bound is an existential type made of the class [Base], the protocol
    [Shape] and the class layout. *)
Definition shapeBound : Ty := NominalType "Base & Shape & AnyObject" [].

Definition shapeLayout : OpaqueResult.ExistentialLayout :=
  OpaqueResult.mkLayout (Some (NominalType "Base" [])) ["Shape"%string]
                        (Some LayoutClass).

Definition makeDecl : OpaqueResult.OriginatingDecl :=
  OpaqueResult.mkOriginating false false None (Some arraySignature) true
                             true true false shapeBound.

End Samples.

(* ================================================================== *)
(** ** Referenced generic parameters, as a closure *)
(* ================================================================== *)

Module ReferencedClosure.
Import ReferencedParams.

(** A type parameter is referenced when the walk over the parameter and
    result types records it, or when it is a generic parameter used by a
    requirement of the signature that also uses a type parameter whose
    root generic parameter is referenced. *)
Inductive Referenced (dc : GenericContext) : Ty -> Prop :=
| Referenced_directly : forall t,
    In t (paramsAndResultWalker dc) -> Referenced dc t
| Referenced_by_requirement : forall req t u,
    In req (getRequirements (getGenericSignatureOfContext dc)) ->
    In t (usedByRequirementTypes req) ->
    isGenericTypeParam t = true ->
    In u (usedByRequirementTypes req) ->
    Referenced dc (getRootGenericParam u) ->
    Referenced dc t.

(** The generic parameters the requirements can add to the referenced
    set. *)
Definition candidates (reqs : list Requirement) : list Ty :=
  flat_map (fun req => filter isGenericTypeParam (usedByRequirementTypes req))
           reqs.

(** Rounds that always suffice for the search: one more than there are
    candidates. *)
Definition searchBound (dc : GenericContext) : nat :=
  S (List.length
       (candidates (getRequirements (getGenericSignatureOfContext dc)))).

(** The candidates not yet in the referenced set. *)
Definition missing (reqs : list Requirement) (refs : SmallPtrSet) : nat :=
  List.length (filter (fun t => negb (count t refs)) (candidates reqs)).

(** The requirement uses a type parameter whose root is in the set. *)
Definition applicable (req : Requirement) (refs : SmallPtrSet) : bool :=
  existsb (fun t => count (getRootGenericParam t) refs)
          (usedByRequirementTypes req).

(** No requirement can add a parameter to the set. *)
Definition closed (reqs : list Requirement) (refs : SmallPtrSet) : Prop :=
  forall req, In req reqs -> applicable req refs = true ->
  forall t, In t (usedByRequirementTypes req) ->
            isGenericTypeParam t = true -> In t refs.

End ReferencedClosure.

(* ================================================================== *)
(** ** Referenced generic parameters, by the shape of the types *)
(* ================================================================== *)

Module ReferencedRule.
Import ReferencedParams.

(** [x] is a type parameter that stands on its own in [ty]: it is [ty]
    itself, or [ty] is no type parameter and [x] stands on its own in one
    of the types directly inside [ty].  In [Array<T.A>] this holds of
    [T.A] and not of [T], which is there only as the base of the member
    type. *)
Inductive Outermost (x : Ty) : Ty -> Prop :=
| Outermost_here : isTypeParameter x = true -> Outermost x x
| Outermost_inside : forall ty c,
    isTypeParameter ty = false -> In c (children ty) -> Outermost x c ->
    Outermost x ty.

(** The types of a requirement in which type parameters are looked for:
    its subject, and the second type of a superclass or same-type
    requirement. *)
Definition requirementTypes (req : Requirement) : list Ty :=
  match req with
  | ConformanceReq s _ | LayoutReq s _ => [s]
  | SuperclassReq s t | SameTypeReq s t => [s; t]
  end.

(** The parameter types and the result type of the declaration. *)
Definition signatureTypes (dc : GenericContext) : list Ty :=
  funcParams dc ++ [funcResult dc].

(** [x] stands on its own in one of the types of the requirement. *)
Definition Uses (req : Requirement) (x : Ty) : Prop :=
  exists ty, In ty (requirementTypes req) /\ Outermost x ty.

(** The rule of the check.  A type parameter is referenced when it
    stands on its own in a parameter type or in the result type.  A
    generic parameter is referenced when it stands on its own in a type
    of a requirement of the signature in which some type parameter
    stands on its own whose root generic parameter is referenced. *)
Inductive ReferencedByRule (dc : GenericContext) : Ty -> Prop :=
| Rule_directly : forall x ty,
    In ty (signatureTypes dc) -> Outermost x ty -> ReferencedByRule dc x
| Rule_by_requirement : forall req g u,
    In req (getRequirements (getGenericSignatureOfContext dc)) ->
    isGenericTypeParam g = true ->
    Uses req g -> Uses req u ->
    ReferencedByRule dc (getRootGenericParam u) ->
    ReferencedByRule dc g.

(** [x] occurs somewhere in [ty]. *)
Inductive Occurs (x : Ty) : Ty -> Prop :=
| Occurs_here : Occurs x x
| Occurs_inside : forall ty c,
    In c (children ty) -> Occurs x c -> Occurs x ty.

(** The generic parameter [g] is mentioned by the requirement. *)
Definition Mentions (req : Requirement) (g : Ty) : Prop :=
  isGenericTypeParam g = true
  /\ exists ty, In ty (requirementTypes req) /\ Occurs g ty.

(** The looser rule, in which every occurrence counts: a generic
    parameter is referenced when it occurs in a parameter type or in the
    result type, and the generic parameters a requirement mentions are
    referenced when it also mentions a referenced one. *)
Inductive ReferencedAnywhere (dc : GenericContext) : Ty -> Prop :=
| Anywhere_directly : forall g ty,
    isGenericTypeParam g = true ->
    In ty (signatureTypes dc) -> Occurs g ty -> ReferencedAnywhere dc g
| Anywhere_by_requirement : forall req g h,
    In req (getRequirements (getGenericSignatureOfContext dc)) ->
    Mentions req g -> Mentions req h ->
    ReferencedAnywhere dc h -> ReferencedAnywhere dc g.

(** [func g<T: P>(_: T.A)]: [T] occurs only as the base of [T.A]. *)
Definition memberDecl : GenericContext :=
  mkContext false (Some (mkGenericParam "T" 0 0, []))
            (mkSig [mkGenericParam "T" 0 0]
                   [ConformanceReq (GenericTypeParamType 0 0) "P"])
            [DependentMemberType (GenericTypeParamType 0 0) "A"]
            (NominalType "Void" []).

(** [func f<T1, U>(_: U) where T1.M == U]: the requirement mentions the
    referenced [U], and [T1] only as the base of [T1.M]. *)
Definition memberRequirementDecl : GenericContext :=
  mkContext false
            (Some (mkGenericParam "T1" 0 0, [mkGenericParam "U" 0 1]))
            (mkSig [mkGenericParam "T1" 0 0; mkGenericParam "U" 0 1]
                   [SameTypeReq
                      (DependentMemberType (GenericTypeParamType 0 0) "M")
                      (GenericTypeParamType 0 1)])
            [GenericTypeParamType 0 1] (NominalType "Void" []).

(** [func k<A, B, C, D>(_: B, _: D.M) where C == B]. *)
Definition orderParams : list GenericParam :=
  [mkGenericParam "A" 0 0; mkGenericParam "B" 0 1;
   mkGenericParam "C" 0 2; mkGenericParam "D" 0 3].

Definition orderDecl : GenericContext :=
  mkContext false
            (Some (mkGenericParam "A" 0 0, tl orderParams))
            (mkSig orderParams
                   [SameTypeReq (GenericTypeParamType 0 2)
                                (GenericTypeParamType 0 1)])
            [GenericTypeParamType 0 1;
             DependentMemberType (GenericTypeParamType 0 3) "M"]
            (NominalType "Void" []).

End ReferencedRule.

(* ------------------------------------------------------------------ *)
(** *** Facts about the AST *)

Lemma isEqual_refl : forall t, isEqual t t = true.
Proof.
  induction t using Ty_ind_nested; simpl; auto.
  - now rewrite !Z.eqb_refl.
  - now rewrite IHt, String.eqb_refl.
  - rewrite String.eqb_refl; simpl.
    induction H; simpl; auto. now rewrite H, IHForall.
  - apply String.eqb_refl.
  - rewrite IHt, andb_true_r.
    induction H; simpl; auto. now rewrite H, IHForall.
Qed.

Lemma isEqual_eq : forall a b, isEqual a b = true -> a = b.
Proof.
  induction a using Ty_ind_nested; destruct b; simpl; try discriminate; auto.
  - intros E. apply andb_prop in E as [E1 E2].
    apply Z.eqb_eq in E1, E2. now subst.
  - intros E. apply andb_prop in E as [E1 E2].
    apply String.eqb_eq in E2. now rewrite (IHa _ E1), E2.
  - intros E. apply andb_prop in E as [E1 E2].
    apply String.eqb_eq in E1. subst. f_equal.
    revert args0 E2. induction H; destruct args0; try discriminate; auto.
    intros E. apply andb_prop in E as [E1 E2].
    now rewrite (H _ E1), (IHForall _ E2).
  - intros E. apply String.eqb_eq in E. now subst.
  - intros E. apply andb_prop in E as [E1 E2].
    rewrite (IHa _ E2). f_equal.
    revert params E1. induction H; destruct params; try discriminate; auto.
    intros E. apply andb_prop in E as [E1 E3].
    now rewrite (H _ E1), (IHForall _ E3).
Qed.

Lemma isEqual_iff : forall a b, isEqual a b = true <-> a = b.
Proof.
  split; [apply isEqual_eq | intros ->; apply isEqual_refl].
Qed.

Lemma isEqual_false_iff : forall a b, isEqual a b = false <-> a <> b.
Proof.
  intros a b. rewrite <- isEqual_iff. destruct (isEqual a b); intuition congruence.
Qed.


(* ================================================================== *)
(** ** Facts about [checkGenericArguments] *)
(* ================================================================== *)

Section CheckerFacts.
Import GenericArguments RequirementTrees.

Variable tc : TypeCheckerOps.
Variable loc noteLoc : SourceLoc.
Variable owner : Ty.
Variable genericParams : list GenericParam.
Variable listener : option GenericRequirementsCheckListener.

Local Abbreviation checkRequirement :=
  (checkRequirement tc loc noteLoc owner genericParams listener).
Local Abbreviation checkRequirements :=
  (checkRequirements tc loc noteLoc owner genericParams listener).
Local Abbreviation checkPending :=
  (checkPending tc loc noteLoc owner genericParams listener).
Local Abbreviation checkGenericArguments :=
  (checkGenericArguments tc loc noteLoc owner genericParams listener).
Local Abbreviation reportFailure :=
  (reportFailure tc loc noteLoc owner genericParams listener).
Local Abbreviation act := (act tc loc noteLoc owner genericParams listener).
Local Abbreviation drain := (drain tc loc noteLoc owner genericParams listener).
Local Abbreviation read := (read tc listener).
Local Abbreviation substituted := (substituted tc).
Local Abbreviation Passes := (Passes tc listener).

Lemma getKind_subst : forall r req,
  Requirement_subst tc r = Some req -> getKind req = getKind r.
Proof.
  intros [s p|s t|s t|s l] req; simpl;
    repeat match goal with
           | |- context [substType tc ?x] => destruct (substType tc x)
           end; intros E; inversion E; reflexivity.
Qed.

Lemma getKind_substituted : forall ps r req,
  substituted ps r = Some req -> getKind req = getKind r.
Proof.
  unfold RequirementTrees.substituted. intros ps r req.
  destruct (isEmpty ps).
  - apply getKind_subst.
  - intros E; inversion E; reflexivity.
Qed.

(** The loop body is [act] on the reading of the requirement. *)
Lemma checkRequirement_read : forall ps r st,
  checkRequirement ps r st = act ps r (read ps r) st.
Proof.
  intros ps r st.
  unfold GenericArguments.checkRequirement, RequirementTrees.read.
  fold (substituted ps r).
  destruct (substituted ps r) as [req|] eqn:Esub; [|reflexivity].
  pose proof (getKind_substituted _ _ Esub) as Hk.
  unfold carriesError, firstTypeOf, secondTypeOf.
  destruct (hasError (intoContext tc (getFirstType req))
            || match option_map (intoContext tc) (getSecondType req) with
               | Some t => hasError t | None => false end); [reflexivity|].
  destruct (listenerSkips listener (getKind req)
              (intoContext tc (getFirstType req))
              (option_map (intoContext tc) (getSecondType req)));
    [reflexivity|].
  unfold checkKind, firstTypeOf, secondTypeOf.
  destruct req as [s p|s t|s t|s l]; simpl in *.
  - destruct (conformsToProtocol tc (intoContext tc s) p) as [c|]; simpl.
    + unfold conditionalSet. reflexivity.
    + rewrite <- Hk. destruct ps; reflexivity.
  - destruct (negb (isExactSuperclassOf tc (intoContext tc t)
                                        (intoContext tc s))); simpl;
      [rewrite <- Hk|]; reflexivity.
  - destruct (negb (isEqual (intoContext tc s) (intoContext tc t))); simpl;
      [rewrite <- Hk|]; reflexivity.
  - destruct (isClass l && negb (satisfiesClassConstraint tc (intoContext tc s)));
      simpl; [rewrite <- Hk|]; reflexivity.
Qed.

Lemma act_Return_Failure : forall ps r rd st res st',
  act ps r rd st = Return res st' -> res = Failure.
Proof.
  intros ps r rd st res st'. unfold RequirementTrees.act.
  destruct rd; try discriminate.
  - destruct (negb _); discriminate.
  - unfold GenericArguments.reportFailure.
    destruct (getKind r), ps;
      repeat match goal with
             | |- context [if ?c then _ else _] => destruct c
             end; intros E; inversion E; reflexivity.
Qed.

Lemma checkRequirements_Return_Failure : forall ps rs st res st',
  checkRequirements ps rs st = Return res st' -> res = Failure.
Proof.
  intros ps rs. induction rs as [|r rs IH]; simpl; intros st res st' E.
  - discriminate.
  - destruct (checkRequirement ps r st) as [st1|r1 st1] eqn:E1.
    + eauto.
    + inversion E; subst. rewrite checkRequirement_read in E1.
      eapply act_Return_Failure; eauto.
Qed.

(** More pending sets behind the current ones change nothing but the
    work-list that is left. *)
Lemma act_framed : forall later ps r rd st,
  act ps r rd (framed later st) = framedFlow later (act ps r rd st).
Proof.
  intros later ps r rd [v pend ev]. unfold RequirementTrees.act.
  destruct rd; try reflexivity.
  - simpl. destruct listener; destruct (negb _);
      try destruct (v && isEmpty ps); reflexivity.
  - unfold GenericArguments.reportFailure.
    destruct (getKind r), ps;
      repeat match goal with
             | |- context [if ?c then _ else _] => destruct c
             end; reflexivity.
Qed.

Lemma checkRequirements_framed : forall later ps rs st,
  checkRequirements ps rs (framed later st)
  = framedFlow later (checkRequirements ps rs st).
Proof.
  intros later ps rs. induction rs as [|r rs IH]; intros st; simpl.
  - reflexivity.
  - rewrite !checkRequirement_read, act_framed.
    destruct (act ps r (read ps r) st) as [st1|r1 st1]; simpl.
    + apply IH.
    + reflexivity.
Qed.

Lemma checkPending_drain : forall fuel st,
  checkPending fuel st = option_map finish (drain fuel st).
Proof.
  induction fuel as [|fuel IH]; intros [v pend ev]; simpl.
  - destruct pend; reflexivity.
  - destruct pend as [|cur rest]; [reflexivity|].
    destruct (checkRequirements _ _ _) as [st1|r1 st1]; [apply IH|reflexivity].
Qed.

Lemma drain_step : forall fuel v cur rest ev,
  drain (S fuel) (mkState v (cur :: rest) ev)
  = match checkRequirements (Parents cur) (Requirements cur)
                            (mkState v rest ev) with
    | Next st' => drain fuel st'
    | Return r st' => Some (Return r st')
    end.
Proof. reflexivity. Qed.

Lemma drain_more : forall fuel k st f,
  drain fuel st = Some f -> drain (fuel + k) st = Some f.
Proof.
  induction fuel as [|fuel IH]; intros k [v pend ev] f; simpl.
  - destruct pend; [|discriminate]. intros E. destruct k; exact E.
  - destruct pend as [|cur rest]; [trivial|].
    destruct (checkRequirements _ _ _) as [st1|r1 st1]; [apply IH|trivial].
Qed.

Lemma drain_Next_empty : forall fuel st st',
  drain fuel st = Some (Next st') -> pendingReqs st' = [].
Proof.
  induction fuel as [|fuel IH]; intros [v pend ev] st'; simpl.
  - destruct pend; [|discriminate]. intros E; inversion E; reflexivity.
  - destruct pend as [|cur rest]; [intros E; inversion E; reflexivity|].
    destruct (checkRequirements _ _ _) as [st1|r1 st1];
      [apply IH|discriminate].
Qed.

(** Draining [first ++ later] drains [first], then [later]. *)
Lemma drain_app_Next : forall fuel v first later ev st1 fuel2 f,
  drain fuel (mkState v first ev) = Some (Next st1) ->
  drain fuel2 (mkState (valid st1) later (events st1)) = Some f ->
  drain (fuel + fuel2) (mkState v (first ++ later) ev) = Some f.
Proof.
  induction fuel as [|fuel IH]; intros v first later ev st1 fuel2 f;
    destruct first as [|cur rest].
  - simpl. intros E; inversion E; subst. trivial.
  - discriminate.
  - intros E E2. simpl in E. inversion E; subst. simpl in E2.
    replace (S fuel + fuel2) with (fuel2 + S fuel) by lia.
    apply drain_more. exact E2.
  - simpl.
    change (mkState v (rest ++ later) ev)
      with (framed later (mkState v rest ev)).
    rewrite checkRequirements_framed.
    destruct (checkRequirements _ _ (mkState v rest ev))
      as [[v1 p1 e1]|r1 s1]; simpl; [|discriminate].
    intros E1 E2. eapply IH; eauto.
Qed.

Lemma drain_app_Return : forall fuel v first later ev r st1,
  drain fuel (mkState v first ev) = Some (Return r st1) ->
  drain fuel (mkState v (first ++ later) ev)
  = Some (Return r (framed later st1)).
Proof.
  induction fuel as [|fuel IH]; intros v first later ev r st1; simpl.
  - destruct first; discriminate.
  - destruct first as [|cur rest]; simpl; [discriminate|].
    change (mkState v (rest ++ later) ev)
      with (framed later (mkState v rest ev)).
    rewrite checkRequirements_framed.
    destruct (checkRequirements _ _ (mkState v rest ev))
      as [[v1 p1 e1]|r1 s1]; simpl.
    + apply IH.
    + intros E; inversion E; reflexivity.
Qed.

Lemma reportFailure_Return : forall ps r f s d n st,
  exists st', reportFailure ps r f s d n st = Return Failure st'.
Proof.
  intros. unfold GenericArguments.reportFailure.
  destruct (listenerDiagnoses _ _ _ _ _); [eauto|].
  destruct (isValid loc); eauto.
Qed.

Lemma act_Violated_Return : forall ps r f s d n st,
  exists st', act ps r (Violated f s d n) st = Return Failure st'.
Proof.
  intros. simpl.
  destruct (getKind r), ps; eauto using reportFailure_Return.
Qed.

Lemma Passes_cast : forall ps rs b b',
  Passes ps rs b -> b = b' -> Passes ps rs b'.
Proof. intros; subst; assumption. Qed.

Lemma Passes_nil_inv : forall ps b, Passes ps [] b -> b = false.
Proof. intros ps b H; inversion H; reflexivity. Qed.

Lemma PassesAll_app_inv : forall l1 l2 b,
  PassesAll tc listener (l1 ++ l2) b ->
  exists b1 b2, PassesAll tc listener l1 b1 /\ PassesAll tc listener l2 b2
                /\ b = b1 || b2.
Proof.
  induction l1 as [|s l1 IH]; simpl; intros l2 b H.
  - exists false, b. repeat split; [constructor|assumption].
  - inversion H; subst.
    destruct (IH _ _ H4) as (c1 & c2 & H1 & H2' & ->).
    exists (b1 || c1), c2. repeat split; auto.
    + now constructor.
    + now rewrite orb_assoc.
Qed.

Lemma PassesAll_single_inv : forall s b,
  PassesAll tc listener [s] b -> Passes (Parents s) (Requirements s) b.
Proof.
  intros s b H. inversion H; subst. inversion H4; subst.
  now rewrite orb_false_r.
Qed.

(** What a run of the [for] loop that reaches its end did. *)
Lemma checkRequirements_Next_inv : forall ps rs st st',
  checkRequirements ps rs st = Next st' ->
  exists pushed bs,
    pendingReqs st' = pushed ++ pendingReqs st
    /\ valid st' = valid st && negb bs
    /\ forall bp, PassesAll tc listener pushed bp -> Passes ps rs (bs || bp).
Proof.
  intros ps rs. induction rs as [|r rs IH]; intros st st'.
  - simpl. intros E; inversion E; subst.
    exists [], false. repeat split.
    + now rewrite andb_true_r.
    + intros bp H. inversion H. constructor.
  - simpl. rewrite checkRequirement_read.
    destruct (read ps r) as [| | |f p c|f s d n] eqn:Er.
    + simpl. intros E. destruct (IH _ _ E) as (pushed & bs & Hp & Hv & HP).
      exists pushed, true. repeat split; auto.
      * simpl in Hv. now rewrite Hv, andb_false_r.
      * intros bp H. simpl. eapply Passes_substitutionFailed; eauto.
    + simpl. intros E. destruct (IH _ _ E) as (pushed & bs & Hp & Hv & HP).
      exists pushed, bs. repeat split; auto.
      intros bp H. apply Passes_notChecked; auto.
    + simpl. intros E. destruct (IH _ _ E) as (pushed & bs & Hp & Hv & HP).
      exists pushed, bs. repeat split; auto.
      intros bp H. apply Passes_satisfied; auto.
    + unfold RequirementTrees.act.
      set (st1 := match listener with
                  | Some _ => if valid st && isEmpty ps
                              then emit _ st else st
                  | None => st end).
      assert (Hst1 : pendingReqs st1 = pendingReqs st
                     /\ valid st1 = valid st).
      { subst st1. destruct listener; [destruct (valid st && isEmpty ps)|];
          split; reflexivity. }
      destruct Hst1 as [Hp1 Hv1].
      destruct (getConditionalRequirements c) as [|c0 cs] eqn:Ec; simpl.
      * intros E. destruct (IH _ _ E) as (pushed & bs & Hp & Hv & HP).
        exists pushed, bs. repeat split; try congruence.
        intros bp H.
        eapply Passes_cast.
        { eapply Passes_conformance; eauto. rewrite Ec. constructor. }
        reflexivity.
      * intros E. destruct (IH _ _ E) as (pushed & bs & Hp & Hv & HP).
        simpl in Hp, Hv.
        exists (pushed ++ [conditionalSet ps f p c]), bs. repeat split.
        -- rewrite Hp, Hp1, <- app_assoc. reflexivity.
        -- congruence.
        -- intros bp H.
           apply PassesAll_app_inv in H as (b1 & b2 & H1 & H2 & ->).
           apply PassesAll_single_inv in H2. simpl in H2.
           eapply Passes_cast.
           { eapply Passes_conformance; eauto. }
           destruct b2, bs, b1; reflexivity.
    + destruct (act_Violated_Return ps r f s d n st) as [st2 ->].
      discriminate.
Qed.

Lemma drain_Return_Failure : forall fuel st r st',
  drain fuel st = Some (Return r st') -> r = Failure.
Proof.
  induction fuel as [|fuel IH]; intros [v pend ev] r st'; simpl.
  - destruct pend; discriminate.
  - destruct pend as [|cur rest]; [discriminate|].
    destruct (checkRequirements _ _ _) as [st1|r1 st1] eqn:E.
    + apply IH.
    + intros E'; inversion E'; subst.
      eapply checkRequirements_Return_Failure; eauto.
Qed.

(** A drained work-list passed. *)
Lemma drain_Next_Passes : forall fuel st st',
  drain fuel st = Some (Next st') ->
  exists b, PassesAll tc listener (pendingReqs st) b
            /\ valid st' = valid st && negb b.
Proof.
  induction fuel as [|fuel IH]; intros [v pend ev] st';
    destruct pend as [|cur rest]; simpl; try discriminate.
  - intros E; inversion E; subst. exists false. split; [constructor|].
    simpl. now rewrite andb_true_r.
  - intros E; inversion E; subst. exists false. split; [constructor|].
    simpl. now rewrite andb_true_r.
  - destruct (checkRequirements _ _ _) as [st1|r1 st1] eqn:E1;
      [|discriminate].
    intros E.
    destruct (checkRequirements_Next_inv _ _ _ E1)
      as (pushed & bs & Hp & Hv & HP).
    destruct (IH _ _ E) as (b' & HA & Hv').
    simpl in Hp, Hv. rewrite Hp in HA.
    apply PassesAll_app_inv in HA as (bp & br & H1 & H2 & ->).
    exists ((bs || bp) || br). split.
    + constructor; auto.
    + rewrite Hv', Hv. destruct v, bs, bp, br; reflexivity.
Qed.

(** A set that passes is checked to the end, and so are the sets it
    pushes. *)
Lemma Passes_drain : forall ps rs b,
  Passes ps rs b ->
  forall st, exists pushed bs bp st1,
    checkRequirements ps rs st = Next st1
    /\ pendingReqs st1 = pushed ++ pendingReqs st
    /\ valid st1 = valid st && negb bs
    /\ b = bs || bp
    /\ forall v ev, exists fuel st2,
         drain fuel (mkState v pushed ev) = Some (Next st2)
         /\ valid st2 = v && negb bp.
Proof.
  intros ps rs b H. induction H as
    [ps | ps r rs b Er H IH | ps r rs b Er H IH | ps r rs b Er H IH
     | ps r rs f p c b1 b2 Er H1 IH1 H2 IH2]; intros st.
  - exists [], false, false, st. repeat split; simpl.
    + now rewrite andb_true_r.
    + intros v ev. exists 0, (mkState v [] ev). simpl.
      now rewrite andb_true_r.
  - destruct (IH (setInvalid st)) as (pushed & bs & bp & st1 & E & Hp & Hv & Hb & Hd).
    exists pushed, true, bp, st1. simpl. rewrite checkRequirement_read, Er.
    simpl. repeat split; auto.
    simpl in Hv. now rewrite Hv, andb_false_r.
  - destruct (IH st) as (pushed & bs & bp & st1 & E & Hp & Hv & Hb & Hd).
    exists pushed, bs, bp, st1. simpl. rewrite checkRequirement_read, Er.
    simpl. repeat split; auto.
  - destruct (IH st) as (pushed & bs & bp & st1 & E & Hp & Hv & Hb & Hd).
    exists pushed, bs, bp, st1. simpl. rewrite checkRequirement_read, Er.
    simpl. repeat split; auto.
  - simpl. rewrite checkRequirement_read, Er. unfold RequirementTrees.act.
    set (st0 := match listener with
                | Some _ => if valid st && isEmpty ps
                            then emit _ st else st
                | None => st end).
    assert (Hst0 : pendingReqs st0 = pendingReqs st /\ valid st0 = valid st).
    { subst st0. destruct listener; [destruct (valid st && isEmpty ps)|];
        split; reflexivity. }
    destruct Hst0 as [Hp0 Hv0].
    destruct (getConditionalRequirements c) as [|c0 cs] eqn:Ec; simpl.
    + apply Passes_nil_inv in H1. subst b1.
      destruct (IH2 st0) as (pushed & bs & bp & st1 & E & Hp & Hv & Hb & Hd).
      exists pushed, bs, bp, st1.
      split; [exact E|]. split; [congruence|]. split; [congruence|].
      split; [exact Hb|exact Hd].
    + destruct (IH2 (push_back (conditionalSet ps f p c) st0))
        as (pushed & bs & bp & st1 & E & Hp & Hv & Hb & Hd).
      simpl in Hp, Hv.
      exists (pushed ++ [conditionalSet ps f p c]), bs, (bp || b1), st1.
      repeat split.
      * exact E.
      * rewrite Hp, Hp0, <- app_assoc. reflexivity.
      * congruence.
      * subst b2. destruct b1, bs, bp; reflexivity.
      * intros v ev.
        destruct (Hd v ev) as (fuel2 & st2 & Ed2 & Hv2).
        destruct (IH1 (mkState (valid st2) [] (events st2)))
          as (pushed1 & bs1 & bp1 & st3 & E3 & Hp3 & Hv3 & Hb1 & Hd1).
        simpl in Hp3, Hv3. rewrite app_nil_r in Hp3.
        destruct (Hd1 (valid st3) (events st3)) as (fuel1 & st4 & Ed4 & Hv4).
        exists (fuel2 + S fuel1), st4. split.
        -- eapply drain_app_Next; [exact Ed2|].
           rewrite drain_step. unfold conditionalSet.
           cbn [Parents Requirements]. rewrite Ec, E3.
           destruct st3 as [v3 p3 e3]. simpl in *. subst p3. exact Ed4.
        -- rewrite Hv4, Hv3, Hv2. subst b1.
           destruct v, bp, bs1, bp1; reflexivity.
Qed.

Lemma Passes_true_failure : forall ps rs b,
  Passes ps rs b -> b = true ->
  SubstitutionFailureIn tc listener ps rs.
Proof.
  intros ps rs b H. induction H; intros Hb.
  - discriminate.
  - now apply Failure_here.
  - apply Failure_later; auto.
  - apply Failure_later; auto.
  - apply orb_prop in Hb as [Hb|Hb].
    + eapply Failure_below; eauto.
    + apply Failure_later; auto.
Qed.

Lemma Passes_failure_true : forall ps rs b,
  Passes ps rs b -> SubstitutionFailureIn tc listener ps rs -> b = true.
Proof.
  intros ps rs b H. induction H as
    [ps | ps r rs b Er H IH | ps r rs b Er H IH | ps r rs b Er H IH
     | ps r rs f p c b1 b2 Er H1 IH1 H2 IH2]; intros HF.
  - inversion HF.
  - reflexivity.
  - inversion HF as [r' rs' Hr|r' rs' f' p' c' Hr Hbelow|r' rs' Hlater];
      subst; try congruence. auto.
  - inversion HF as [r' rs' Hr|r' rs' f' p' c' Hr Hbelow|r' rs' Hlater];
      subst; try congruence. auto.
  - inversion HF as [r' rs' Hr|r' rs' f' p' c' Hr Hbelow|r' rs' Hlater];
      subst; try congruence.
    + rewrite Er in Hr. inversion Hr; subst. rewrite IH1; auto.
    + rewrite IH2; auto. apply orb_true_r.
Qed.

Lemma checkRequirements_app : forall ps pre rs st,
  checkRequirements ps (pre ++ rs) st
  = match checkRequirements ps pre st with
    | Next st1 => checkRequirements ps rs st1
    | Return r st1 => Return r st1
    end.
Proof.
  intros ps pre rs. induction pre as [|r pre IH]; intros st; simpl.
  - reflexivity.
  - destruct (checkRequirement ps r st); [apply IH|reflexivity].
Qed.

Lemma act_Violated : forall ps r f s d n st,
  act ps r (Violated f s d n) st
  = Return Failure
      (emit (failureEvents tc loc noteLoc owner genericParams listener
                           ps r f s d n) st).
Proof.
  intros ps r f s d n [v pend ev].
  unfold RequirementTrees.act, failureEvents, GenericArguments.reportFailure,
    diagnosticsOf, emit.
  destruct (getKind r), ps; simpl; rewrite ?app_nil_r; try reflexivity;
    destruct (listenerDiagnoses _ _ _ _ _); rewrite ?app_nil_r;
      try reflexivity;
    destruct (isValid loc); rewrite ?app_nil_r; reflexivity.
Qed.

(** A violated requirement ends the call with [Failure], whatever comes
    after it in its set and whatever is pending. *)
Lemma violated_returns : forall fuel ps pre r rest later v ev st1 f s d n,
  checkRequirements ps pre (mkState v later ev) = Next st1 ->
  read ps r = Violated f s d n ->
  checkPending (S fuel)
    (mkState v (mkSet (pre ++ r :: rest) ps :: later) ev)
  = Some (Failure,
          events st1 ++ failureEvents tc loc noteLoc owner genericParams
                                      listener ps r f s d n).
Proof.
  intros fuel ps pre r rest later v ev st1 f s d n Hpre Hr.
  simpl. rewrite checkRequirements_app, Hpre. simpl.
  rewrite checkRequirement_read, Hr, act_Violated. reflexivity.
Qed.

Lemma read_Violated_types : forall ps r f s d n,
  read ps r = Violated f s d n ->
  exists req, substituted ps r = Some req
              /\ f = firstTypeOf tc req /\ s = secondTypeOf tc req.
Proof.
  intros ps r f s d n. unfold RequirementTrees.read.
  destruct (substituted ps r) as [req|]; [|discriminate].
  destruct (carriesError tc req); [discriminate|].
  destruct (listenerSkips _ _ _ _); [discriminate|].
  intros E. exists req. split; [reflexivity|].
  unfold checkKind in E. destruct req; simpl in E;
    repeat match type of E with
           | context [match ?c with _ => _ end] => destruct c
           end; inversion E; subst; split; reflexivity.
Qed.

(** C1 (as amended): a Conformance requirement at the top level that
    fails makes [checkGenericArguments] return [Failure] at once and
    without a diagnostic, whatever requirements follow it; a violated
    requirement of a nested (conditional) set also makes the call return
    [Failure] at once: the requirements after it in its set and the
    pending requirement sets are not looked at, and the only diagnostics
    added are those of the violated requirement itself. *)
Theorem failure_returns_at_once :
  (forall fuel pre r rest st1 f s d n,
      checkRequirements [] pre (mkState true [] []) = Next st1 ->
      read [] r = Violated f s d n ->
      getKind r = Conformance ->
      checkGenericArguments (S fuel) (pre ++ r :: rest)
      = Some (Failure, events st1))
  /\ (forall fuel p0 ps pre r rest later v ev st1 f s d n,
      checkRequirements (p0 :: ps) pre (mkState v later ev) = Next st1 ->
      read (p0 :: ps) r = Violated f s d n ->
      checkPending (S fuel)
        (mkState v (mkSet (pre ++ r :: rest) (p0 :: ps) :: later) ev)
      = Some (Failure,
              events st1
              ++ if listenerDiagnoses listener r f s (p0 :: ps) then []
                 else if isValid loc
                      then diagnosticsOf tc loc noteLoc owner genericParams
                                         (p0 :: ps) r f s d n
                      else [])).
Proof.
  split.
  - intros fuel pre r rest st1 f s d n Hpre Hr Hk.
    unfold GenericArguments.checkGenericArguments.
    rewrite (@violated_returns fuel [] pre r rest [] true [] st1 f s d n
                               Hpre Hr).
    unfold failureEvents. rewrite Hk, app_nil_r. reflexivity.
  - intros fuel p0 ps pre r rest later v ev st1 f s d n Hpre Hr.
    rewrite (@violated_returns fuel (p0 :: ps) pre r rest later v ev st1
                               f s d n Hpre Hr).
    unfold failureEvents. destruct (getKind r); reflexivity.
Qed.

(** C2 (as amended): a requirement whose substitution yields no type, or
    one of whose substituted sides carries an error type, does not stop
    the check: the [valid] flag is cleared and the loop goes on with the
    next requirement.  The call returns [Success] exactly when every
    requirement (conditional requirements included) substitutes and,
    unless the listener declines to have it checked, checks
    successfully; it returns [SubstitutionFailure] exactly when a
    substitution failure occurs and no requirement that is checked is
    violated. *)
Theorem substitution_failure_and_results :
  (forall ps r rest st,
      substituted ps r = None
      \/ (exists req, substituted ps r = Some req
                      /\ carriesError tc req = true) ->
      checkRequirements ps (r :: rest) st
      = checkRequirements ps rest (setInvalid st))
  /\ (forall reqs,
      (exists fuel ev, checkGenericArguments fuel reqs = Some (Success, ev))
      <-> AllSatisfied tc listener [] reqs)
  /\ (forall reqs,
      (exists fuel ev,
          checkGenericArguments fuel reqs = Some (SubstitutionFailure, ev))
      <-> NoViolation tc listener [] reqs
          /\ SubstitutionFailureIn tc listener [] reqs).
Proof.
  assert (Hrun : forall reqs res ev fuel,
             checkGenericArguments fuel reqs = Some (res, ev) ->
             res <> Failure ->
             exists b, Passes [] reqs b
                       /\ res = if negb b then Success
                                else SubstitutionFailure).
  { intros reqs res ev fuel E Hres.
    unfold GenericArguments.checkGenericArguments in E.
    rewrite checkPending_drain in E.
    destruct (drain fuel _) as [[st'|r st']|] eqn:Ed; simpl in E;
      inversion E; subst.
    - destruct (drain_Next_Passes _ _ Ed) as (b & HA & Hv). simpl in HA, Hv.
      apply PassesAll_single_inv in HA. simpl in HA.
      exists b. split; [assumption|]. rewrite Hv. reflexivity.
    - apply drain_Return_Failure in Ed. contradiction. }
  assert (Hpass : forall reqs b,
             Passes [] reqs b ->
             exists fuel ev,
               checkGenericArguments fuel reqs
               = Some (if negb b then Success else SubstitutionFailure, ev)).
  { intros reqs b H.
    destruct (Passes_drain H (mkState true [] []))
      as (pushed & bs & bp & st1 & E & Hp & Hv & Hb & Hd).
    simpl in Hp, Hv. rewrite app_nil_r in Hp.
    destruct (Hd (valid st1) (events st1)) as (fuel & st2 & Ed & Hv2).
    exists (S fuel), (events st2).
    unfold GenericArguments.checkGenericArguments.
    rewrite checkPending_drain, drain_step. simpl. rewrite E.
    destruct st1 as [v1 p1 e1]. simpl in *. subst p1. rewrite Ed. simpl.
    rewrite Hv2, Hv, Hb. destruct bs, bp; reflexivity. }
  split; [|split].
  - intros ps r rest st H. simpl. rewrite checkRequirement_read.
    unfold RequirementTrees.read.
    destruct H as [->|(req & -> & ->)]; reflexivity.
  - intros reqs. split.
    + intros (fuel & ev & E).
      destruct (Hrun _ _ _ _ E) as (b & H & Hb); [discriminate|].
      destruct b; [discriminate|exact H].
    + intros H. apply (Hpass _ _ H).
  - intros reqs. split.
    + intros (fuel & ev & E).
      destruct (Hrun _ _ _ _ E) as (b & H & Hb); [discriminate|].
      destruct b; [|discriminate]. split.
      * exists true. exact H.
      * eapply Passes_true_failure; eauto.
    + intros [[b H] HF].
      pose proof (Passes_failure_true H HF) as ->.
      apply (Hpass _ _ H).
Qed.

Lemma gatherBindings_withSubstType : forall f known gps result,
  gatherBindings (withSubstType f tc) known gps result
  = gatherBindings tc known gps result.
Proof.
  intros f known gps. induction gps as [|gp gps IH]; intros result;
    cbn [gatherBindings].
  - reflexivity.
  - change (substitutions (withSubstType f tc)) with (substitutions tc).
    change (getString (withSubstType f tc)) with (getString tc).
    destruct (negb (existsb (isEqual (gpType gp)) known)); [apply IH|].
    destruct (substitutions tc (gpType gp)); [apply IH|reflexivity].
Qed.

Lemma reportFailure_withSubstType : forall f ps r ft s d n st,
  GenericArguments.reportFailure (withSubstType f tc) loc noteLoc owner
    genericParams listener ps r ft s d n st
  = reportFailure ps r ft s d n st.
Proof.
  intros. unfold GenericArguments.reportFailure.
  unfold gatherGenericParamBindingsText.
  destruct (knownGenericParams _); [reflexivity|].
  rewrite gatherBindings_withSubstType. reflexivity.
Qed.

(** The loop body on a Conformance requirement that is satisfied by a
    conformance with conditional requirements. *)
Lemma checkRequirement_pushes : forall ps r st s p c,
  substituted ps r = Some (ConformanceReq s p) ->
  carriesError tc (ConformanceReq s p) = false ->
  listenerSkips listener Conformance (intoContext tc s)
                (Some (ProtocolType p)) = false ->
  conformsToProtocol tc (intoContext tc s) p = Some c ->
  getConditionalRequirements c <> [] ->
  exists st',
    checkRequirement ps r st = Next st'
    /\ pendingReqs st'
       = mkSet (getConditionalRequirements c)
               (ps ++ [mkParent (intoContext tc s) p])
         :: pendingReqs st
    /\ valid st' = valid st.
Proof.
  intros ps r st s p c Hsub Herr Hskip Hconf Hne.
  rewrite checkRequirement_read. unfold RequirementTrees.read.
  rewrite Hsub, Herr. simpl. unfold firstTypeOf, secondTypeOf. simpl.
  unfold intoContext at 2. simpl. rewrite Hskip.
  unfold checkKind, firstTypeOf. simpl. rewrite Hconf.
  unfold RequirementTrees.act.
  destruct (getConditionalRequirements c) as [|c0 cs] eqn:Ec;
    [contradiction|]. simpl.
  eexists. split; [reflexivity|]. simpl. unfold conditionalSet.
  rewrite Ec. destruct listener; [destruct (valid st && isEmpty ps)|];
    split; reflexivity.
Qed.

(** The [for] loop pushes nothing but sets with a parent chain. *)
Lemma checkRequirements_nested : forall ps rs st st',
  checkRequirements ps rs st = Next st' ->
  forallb isNested (pendingReqs st) = true ->
  forallb isNested (pendingReqs st') = true.
Proof.
  intros ps rs. induction rs as [|r rs IH]; simpl; intros st st' E Hn.
  - inversion E; subst; assumption.
  - rewrite checkRequirement_read in E.
    destruct (act ps r (read ps r) st) as [st1|r1 st1] eqn:Ea;
      [|discriminate].
    apply (IH _ _ E).
    unfold RequirementTrees.act in Ea.
    destruct (read ps r) as [| | |ft p c|ft s d n].
    + inversion Ea; subst; exact Hn.
    + inversion Ea; subst; exact Hn.
    + inversion Ea; subst; exact Hn.
    + assert (Hst : forall st0 : CheckState,
                 pendingReqs st0 = pendingReqs st ->
                 forallb isNested (pendingReqs st0) = true)
        by (intros st0 ->; exact Hn).
      assert (Hemit : pendingReqs
                        match listener with
                        | Some _ =>
                            if valid st && isEmpty ps
                            then emit [SatisfiedConformance
                                         (getFirstType r) ft c] st
                            else st
                        | None => st
                        end = pendingReqs st)
        by (destruct listener; [destruct (valid st && isEmpty ps)|];
            reflexivity).
      destruct (negb (isEmpty (getConditionalRequirements c)));
        inversion Ea; subst; simpl.
      * rewrite (Hst _ Hemit). unfold isNested, conditionalSet. simpl.
        destruct ps; reflexivity.
      * apply Hst, Hemit.
    + destruct (act_Violated_Return ps r ft s d n st) as [st2 E2].
      unfold RequirementTrees.act in E2. rewrite E2 in Ea. discriminate.
Qed.

(** Below a conditional conformance the loop body, the [for] loop and
    the [while] loop do not depend on [Type::subst]. *)
Lemma checkRequirement_withSubstType : forall f p0 ps r st,
  GenericArguments.checkRequirement (withSubstType f tc) loc noteLoc
    owner genericParams listener (p0 :: ps) r st
  = checkRequirement (p0 :: ps) r st.
Proof.
  intros f p0 ps r st.
  unfold GenericArguments.checkRequirement. simpl isEmpty. cbv iota.
  change (intoContext (withSubstType f tc)) with (intoContext tc).
  destruct (hasError (intoContext tc (getFirstType r))
            || match option_map (intoContext tc) (getSecondType r) with
               | Some t => hasError t | None => false end); [reflexivity|].
  destruct (listenerSkips _ _ _ _); [reflexivity|].
  destruct r as [s p|s t|s t|s l]; simpl.
  - destruct (conformsToProtocol tc (intoContext tc s) p); [reflexivity|].
    apply reportFailure_withSubstType.
  - destruct (negb _); [apply reportFailure_withSubstType|reflexivity].
  - destruct (negb _); [apply reportFailure_withSubstType|reflexivity].
  - destruct (isClass l && _);
      [apply reportFailure_withSubstType|reflexivity].
Qed.

Lemma checkRequirements_withSubstType : forall f p0 ps rs st,
  GenericArguments.checkRequirements (withSubstType f tc) loc noteLoc
    owner genericParams listener (p0 :: ps) rs st
  = checkRequirements (p0 :: ps) rs st.
Proof.
  intros f p0 ps rs. induction rs as [|r rs IH]; intros st;
    cbn [GenericArguments.checkRequirements]; [reflexivity|].
  rewrite checkRequirement_withSubstType.
  destruct (checkRequirement (p0 :: ps) r st); [apply IH|reflexivity].
Qed.

Lemma checkPending_withSubstType : forall f fuel st,
  forallb isNested (pendingReqs st) = true ->
  GenericArguments.checkPending (withSubstType f tc) loc noteLoc owner
    genericParams listener fuel st
  = checkPending fuel st.
Proof.
  intros f fuel. induction fuel as [|fuel IH]; intros [v pend ev] Hn;
    destruct pend as [|[reqs parents] rest]; try reflexivity.
  cbn [GenericArguments.checkPending pendingReqs Parents Requirements valid
       events].
  cbn [pendingReqs forallb] in Hn. apply andb_prop in Hn.
  destruct Hn as [Hcur Hrest].
  destruct parents as [|p0 ps]; [discriminate Hcur|].
  rewrite checkRequirements_withSubstType.
  destruct (checkRequirements (p0 :: ps) reqs (mkState v rest ev))
    as [st1|res st1] eqn:E; [|reflexivity].
  apply IH. exact (checkRequirements_nested _ _ _ E Hrest).
Qed.

(** C3: when a Conformance requirement is satisfied by a conformance that
    carries conditional requirements, the loop body pushes onto the
    work-list the set of these requirements with the current parent
    chain extended by (substituted subject type, protocol).  When the
    [for] loop over the current set ends with that requirement, the set
    is at the back of the work-list, and the next turn of the [while]
    loop of [checkGenericArguments] pops it and checks its requirements
    under its own chain.  Every set pushed has a non-empty parent chain,
    and a requirement of a set with a non-empty parent chain is checked
    as it is: what the checker finds out about it depends neither on
    [Type::subst] nor on the substitution function, and its whole
    iteration does not depend on [Type::subst] (the binding text of a
    note still asks the substitution function for the generic parameters
    it names).  So the [while] loop on a work-list of such sets does not
    depend on [Type::subst], and a call of [checkGenericArguments]
    applies it to the requirements it was given and to no other. *)
Theorem conditional_requirements_are_pushed :
  (forall ps r st s p c,
      substituted ps r = Some (ConformanceReq s p) ->
      carriesError tc (ConformanceReq s p) = false ->
      listenerSkips listener Conformance (intoContext tc s)
                    (Some (ProtocolType p)) = false ->
      conformsToProtocol tc (intoContext tc s) p = Some c ->
      getConditionalRequirements c <> [] ->
      exists st',
        checkRequirement ps r st = Next st'
        /\ pendingReqs st'
           = mkSet (getConditionalRequirements c)
                   (ps ++ [mkParent (intoContext tc s) p])
             :: pendingReqs st)
  /\ (forall fuel v later ev ps pre r st1 s p c,
      checkRequirements ps pre (mkState v later ev) = Next st1 ->
      substituted ps r = Some (ConformanceReq s p) ->
      carriesError tc (ConformanceReq s p) = false ->
      listenerSkips listener Conformance (intoContext tc s)
                    (Some (ProtocolType p)) = false ->
      conformsToProtocol tc (intoContext tc s) p = Some c ->
      getConditionalRequirements c <> [] ->
      exists st2,
        checkRequirements ps (pre ++ [r]) (mkState v later ev) = Next st2
        /\ pendingReqs st2
           = mkSet (getConditionalRequirements c)
                   (ps ++ [mkParent (intoContext tc s) p])
             :: pendingReqs st1
        /\ valid st2 = valid st1
        /\ checkPending (S (S fuel))
             (mkState v (mkSet (pre ++ [r]) ps :: later) ev)
           = match
               checkRequirements (ps ++ [mkParent (intoContext tc s) p])
                 (getConditionalRequirements c)
                 (mkState (valid st1) (pendingReqs st1) (events st2))
             with
             | Next st3 => checkPending fuel st3
             | Return res st3 => Some (res, events st3)
             end)
  /\ (forall ps rs st st',
      checkRequirements ps rs st = Next st' ->
      forallb isNested (pendingReqs st) = true ->
      forallb isNested (pendingReqs st') = true)
  /\ (forall f g p0 ps r st,
      substituted (p0 :: ps) r = Some r
      /\ RequirementTrees.read (withSubstitutions f g tc) listener
                               (p0 :: ps) r
         = read (p0 :: ps) r
      /\ GenericArguments.checkRequirement (withSubstType f tc) loc noteLoc
           owner genericParams listener (p0 :: ps) r st
         = checkRequirement (p0 :: ps) r st)
  /\ (forall f fuel st,
      forallb isNested (pendingReqs st) = true ->
      GenericArguments.checkPending (withSubstType f tc) loc noteLoc owner
        genericParams listener fuel st
      = checkPending fuel st)
  /\ (forall f fuel requirements,
      checkGenericArguments (S fuel) requirements
      = match checkRequirements [] requirements (mkState true [] []) with
        | Next st1 =>
            GenericArguments.checkPending (withSubstType f tc) loc noteLoc
              owner genericParams listener fuel st1
        | Return res st1 => Some (res, events st1)
        end).
Proof.
  split; [|split; [|split; [|split; [|split]]]].
  - intros ps r st s p c Hsub Herr Hskip Hconf Hne.
    destruct (checkRequirement_pushes ps r st Hsub Herr Hskip Hconf Hne)
      as (st' & E & Hp & _).
    exists st'. auto.
  - intros fuel v later ev ps pre r st1 s p c Hpre Hsub Herr Hskip Hconf Hne.
    destruct (checkRequirement_pushes ps r st1 Hsub Herr Hskip Hconf Hne)
      as (st2 & E2 & Hp & Hv).
    assert (Hloop : checkRequirements ps (pre ++ [r]) (mkState v later ev)
                    = Next st2).
    { rewrite checkRequirements_app, Hpre. simpl. now rewrite E2. }
    exists st2. split; [exact Hloop|]. split; [exact Hp|].
    split; [exact Hv|].
    cbn [GenericArguments.checkPending pendingReqs Parents Requirements
         valid events].
    rewrite Hloop. destruct st2 as [v2 p2 e2]. simpl in Hp, Hv.
    subst p2 v2. reflexivity.
  - exact checkRequirements_nested.
  - intros f g p0 ps r st. split; [reflexivity|]. split; [reflexivity|].
    apply checkRequirement_withSubstType.
  - exact checkPending_withSubstType.
  - intros f fuel requirements.
    unfold GenericArguments.checkGenericArguments.
    cbn [GenericArguments.checkPending pendingReqs Parents Requirements
         valid events].
    destruct (checkRequirements [] requirements (mkState true [] []))
      as [st1|res st1] eqn:E; [|reflexivity].
    symmetry. apply checkPending_withSubstType.
    exact (checkRequirements_nested _ _ _ E eq_refl).
Qed.

(** C4 (as amended): a violated requirement of a set reached through a
    conditional conformance (its parent chain has at least one frame)
    makes the loop body return [Failure].  When the location is valid and
    no listener says it diagnosed the requirement itself, the body emits
    a primary diagnostic on the types of the violated requirement itself,
    a note on the requirement, and one note per frame of the parent
    chain, innermost first; when the location is invalid, or a listener
    says it diagnosed the requirement, [Failure] is returned and nothing
    is emitted. *)
Theorem nested_violation_diagnostics :
  forall p0 ps r st f s d n,
    read (p0 :: ps) r = Violated f s d n ->
    f = intoContext tc (getFirstType r)
    /\ s = option_map (intoContext tc) (getSecondType r)
    /\ 1 <= List.length (p0 :: ps)
    /\ checkRequirement (p0 :: ps) r st
       = Return Failure
           (emit
              (if listenerDiagnoses listener r f s (p0 :: ps) then []
               else if isValid loc then
                 Diagnose loc d owner f s
                 :: DiagnoseNote noteLoc n (getFirstType r) (getSecondType r)
                      (if isEmpty genericParams then EmptyString
                       else gatherGenericParamBindingsText tc
                              [Some (getFirstType r); getSecondType r]
                              genericParams)
                 :: map (DiagnoseParent
                           noteLoc
                           requirement_implied_by_conditional_conformance)
                        (rev (p0 :: ps))
               else []) st).
Proof.
  intros p0 ps r st f s d n Hr.
  destruct (read_Violated_types _ _ Hr) as (req & Hsub & Hf & Hs).
  simpl in Hsub. inversion Hsub; subst req.
  split; [exact Hf|]. split; [exact Hs|]. split; [simpl; lia|].
  rewrite checkRequirement_read, Hr, act_Violated.
  unfold failureEvents, diagnosticsOf, diagnoseConformanceStack.
  destruct (getKind r); reflexivity.
Qed.

(** C10: the loop body returns at a Layout requirement only when its
    layout constraint is a class constraint that the subject type does
    not satisfy; a Layout requirement with any other constraint always
    lets the loop go on, and a call whose requirements are all of this
    kind returns [Success] or [SubstitutionFailure], never [Failure]. *)
Theorem layout_fails_only_for_class :
  (forall ps r st res st' s l,
      checkRequirement ps r st = Return res st' ->
      substituted ps r = Some (LayoutReq s l) ->
      isClass l = true
      /\ satisfiesClassConstraint tc (intoContext tc s) = false)
  /\ (forall ps s l st,
      isClass l = false ->
      exists st', checkRequirement ps (LayoutReq s l) st = Next st')
  /\ (forall reqs,
      forallb isNonClassLayout reqs = true ->
      exists res ev,
        checkGenericArguments 1 reqs = Some (res, ev)
        /\ (res = Success \/ res = SubstitutionFailure)).
Proof.
  assert (Hnext : forall ps s l st,
             isClass l = false ->
             exists st', checkRequirement ps (LayoutReq s l) st = Next st'
                         /\ pendingReqs st' = pendingReqs st).
  { intros ps s l st Hl. unfold GenericArguments.checkRequirement.
    destruct (if isEmpty ps then Requirement_subst tc (LayoutReq s l)
              else Some (LayoutReq s l)) as [req|] eqn:Esub.
    - assert (Hreq : exists s', req = LayoutReq s' l).
      { destruct (isEmpty ps).
        - simpl in Esub. destruct (substType tc s); inversion Esub; eauto.
        - inversion Esub; eauto. }
      destruct Hreq as [s' ->]. simpl.
      destruct (hasError (intoContext tc s') || false); [eauto|].
      destruct (listenerSkips _ _ _ _); [eauto|].
      rewrite Hl. simpl. eauto.
    - eauto. }
  split; [|split].
  - intros ps r st res st' s l E Hsub.
    rewrite checkRequirement_read in E. unfold RequirementTrees.read in E.
    rewrite Hsub in E.
    destruct (carriesError tc (LayoutReq s l)); [discriminate|].
    destruct (listenerSkips _ _ _ _); [discriminate|].
    unfold checkKind, firstTypeOf in E. simpl in E.
    destruct (isClass l); [|discriminate].
    destruct (satisfiesClassConstraint tc (intoContext tc s));
      [discriminate|]. split; reflexivity.
  - intros ps s l st Hl. destruct (Hnext ps s l st Hl) as (st' & E & _).
    eauto.
  - intros reqs Hall.
    assert (Hloop : forall st,
               exists st', checkRequirements [] reqs st = Next st'
                           /\ pendingReqs st' = pendingReqs st).
    { induction reqs as [|r reqs IH]; intros st; simpl.
      - eauto.
      - simpl in Hall. apply andb_prop in Hall as [Hr Hrest].
        destruct r as [| | |s l]; try discriminate. simpl in Hr.
        apply negb_true_iff in Hr.
        destruct (Hnext [] s l st Hr) as (st1 & -> & Hp1).
        destruct (IH Hrest st1) as (st2 & -> & Hp2).
        exists st2. split; [reflexivity|congruence]. }
    destruct (Hloop (mkState true [] [])) as (st' & E & Hp).
    unfold GenericArguments.checkGenericArguments. simpl. rewrite E.
    destruct st' as [v p e]. simpl in Hp. subst p. simpl.
    destruct v; eauto.
Qed.

End CheckerFacts.

(* ------------------------------------------------------------------ *)
(** *** The checker on the sample call site *)

Section CheckerSamples.
Import GenericArguments RequirementTrees Samples.

(** C1, at the sample call site: the unsatisfied [Int: Q] stops the call
    at the top level (the same-type requirement after it is not looked
    at) and below [Array<Int>: P] (nothing is said about [Int: R]). *)
Lemma failure_returns_at_once_witness :
  checkGenericArguments sampleOps sampleLoc sampleNoteLoc sampleOwner []
    None 1 ([ConformanceReq Int "Equatable"] ++ intQ :: [SameTypeReq Int Str])
  = Some (Failure, [])
  /\ checkPending sampleOps sampleLoc sampleNoteLoc sampleOwner [] None 1
       (mkState true [mkSet ([] ++ intQ :: [intR]) [arrayFrame]] [])
     = Some (Failure, qDiagnostics).
Proof.
  destruct (@failure_returns_at_once sampleOps sampleLoc sampleNoteLoc
              sampleOwner [] None) as [H1 H2].
  split.
  - exact (H1 0 [ConformanceReq Int "Equatable"] intQ [SameTypeReq Int Str]
              (mkState true [] []) Int (Some (ProtocolType "Q"))
              type_does_not_conform_owner
              type_does_not_inherit_or_conform_requirement
              eq_refl eq_refl eq_refl).
  - exact (H2 0 arrayFrame [] [] intQ [intR] [] true []
              (mkState true [] []) Int (Some (ProtocolType "Q"))
              type_does_not_conform_owner
              type_does_not_inherit_or_conform_requirement
              eq_refl eq_refl).
Defined.

(** C1 as stated fails: [Int: R], the conditional requirement after the
    violated [Int: Q], is violated too, yet the call ends with the
    diagnostics of [Int: Q] alone, and its primary diagnostic is the one
    of the nested requirement. *)
Lemma later_requirements_are_not_evaluated :
  read sampleOps None [arrayFrame] intR
  = Violated Int (Some (ProtocolType "R")) type_does_not_conform_owner
             type_does_not_inherit_or_conform_requirement
  /\ checkGenericArguments sampleOps sampleLoc sampleNoteLoc sampleOwner []
       None 2 [ConformanceReq T "P"]
     = Some (Failure, qDiagnostics).
Proof. split; reflexivity. Qed.

(** C2, at the sample call site: [U] cannot be substituted, the loop goes
    on to [Int: Equatable] and the call ends in [SubstitutionFailure];
    without [U: P] every requirement is satisfied. *)
Lemma substitution_failure_and_results_witness :
  checkRequirements sampleOps sampleLoc sampleNoteLoc sampleOwner [] None []
    (ConformanceReq U "P" :: [ConformanceReq Int "Equatable"])
    (mkState true [] [])
  = checkRequirements sampleOps sampleLoc sampleNoteLoc sampleOwner [] None
      [] [ConformanceReq Int "Equatable"] (setInvalid (mkState true [] []))
  /\ AllSatisfied sampleOps None []
       [ConformanceReq Int "Equatable"; SameTypeReq Int Int]
  /\ (NoViolation sampleOps None []
        [ConformanceReq U "P"; ConformanceReq Int "Equatable"]
      /\ SubstitutionFailureIn sampleOps None []
           [ConformanceReq U "P"; ConformanceReq Int "Equatable"]).
Proof.
  destruct (@substitution_failure_and_results sampleOps sampleLoc
              sampleNoteLoc sampleOwner [] None) as (H1 & H2 & H3).
  split; [|split].
  - apply H1. left. reflexivity.
  - apply H2. exists 1, []. reflexivity.
  - apply H3. exists 1, []. reflexivity.
Defined.

(** C2 as stated fails: [Int == String] does not hold, but the listener
    declines to have it checked and the call returns [Success]. *)
Lemma listener_veto_gives_success :
  checkKind sampleOps (SameTypeReq Int Str)
  = Violated Int (Some Str) types_not_equal types_not_equal_requirement
  /\ checkGenericArguments sampleOps sampleLoc sampleNoteLoc sampleOwner []
       (Some vetoingListener) 1 [SameTypeReq Int Str]
     = Some (Success, []).
Proof. split; reflexivity. Qed.

(** C3, at the sample call site: [T: P] is satisfied by the conditional
    conformance of [Array<Int>], whose requirements are pushed with the
    frame ([Array<Int>], [P]); the call pops that set next and checks
    [Int: Q] and [Int: R] under the frame. *)
Lemma conditional_requirements_are_pushed_witness :
  (exists st',
      checkRequirement sampleOps sampleLoc sampleNoteLoc sampleOwner [] None
        [] (ConformanceReq T "P") (mkState true [] []) = Next st'
      /\ pendingReqs st' = [mkSet [intQ; intR] [arrayFrame]])
  /\ exists st2,
      checkRequirements sampleOps sampleLoc sampleNoteLoc sampleOwner []
        None [] ([] ++ [ConformanceReq T "P"]) (mkState true [] [])
      = Next st2
      /\ pendingReqs st2 = [mkSet [intQ; intR] [arrayFrame]]
      /\ checkPending sampleOps sampleLoc sampleNoteLoc sampleOwner [] None
           2 (mkState true [mkSet ([] ++ [ConformanceReq T "P"]) []] [])
         = match
             checkRequirements sampleOps sampleLoc sampleNoteLoc sampleOwner
               [] None [arrayFrame] [intQ; intR]
               (mkState true [] (events st2))
           with
           | Next st3 =>
               checkPending sampleOps sampleLoc sampleNoteLoc sampleOwner []
                            None 0 st3
           | Return res st3 => Some (res, events st3)
           end.
Proof.
  destruct (@conditional_requirements_are_pushed sampleOps sampleLoc
              sampleNoteLoc sampleOwner [] None) as (H1 & H2 & _).
  split.
  - apply (H1 [] (ConformanceReq T "P") (mkState true [] []) (ArrayOf Int)
              "P"%string arrayConformance); try reflexivity.
    discriminate.
  - destruct (H2 0 true [] [] [] [] (ConformanceReq T "P")
                 (mkState true [] []) (ArrayOf Int) "P"%string
                 arrayConformance eq_refl eq_refl eq_refl eq_refl eq_refl)
      as (st2 & E & Hp & _ & Hw); [discriminate|].
    exists st2. split; [exact E|]. split; [exact Hp|exact Hw].
Defined.

(** C4, at the sample call site: [Int: Q] below [Array<Int>: P]. *)
Lemma nested_violation_diagnostics_witness :
  checkRequirement sampleOps sampleLoc sampleNoteLoc sampleOwner [] None
    [arrayFrame] intQ (mkState true [] [])
  = Return Failure (mkState true [] qDiagnostics).
Proof.
  apply (@nested_violation_diagnostics sampleOps sampleLoc sampleNoteLoc
           sampleOwner [] None arrayFrame [] intQ (mkState true [] [])
           Int (Some (ProtocolType "Q")) type_does_not_conform_owner
           type_does_not_inherit_or_conform_requirement eq_refl).
Defined.

(** C4 as stated fails: the location is valid and [Int: Q] below
    [Array<Int>: P] is violated, but the listener says it diagnosed the
    requirement, and the call emits no diagnostic. *)
Lemma listener_diagnosis_emits_nothing :
  isValid sampleLoc = true
  /\ read sampleOps (Some diagnosingListener) [arrayFrame] intQ
     = Violated Int (Some (ProtocolType "Q")) type_does_not_conform_owner
                type_does_not_inherit_or_conform_requirement
  /\ checkGenericArguments sampleOps sampleLoc sampleNoteLoc sampleOwner []
       (Some diagnosingListener) 2 [ConformanceReq T "P"]
     = Some (Failure,
             [SatisfiedConformance T (ArrayOf Int) arrayConformance]).
Proof. repeat split; reflexivity. Qed.

(** C10, at the sample call site: a trivial-layout requirement on
    [Array<Int>], which is no class. *)
Lemma layout_fails_only_for_class_witness :
  (exists st',
      checkRequirement sampleOps sampleLoc sampleNoteLoc sampleOwner [] None
        [] (LayoutReq T LayoutTrivial) (mkState true [] []) = Next st')
  /\ exists res ev,
      checkGenericArguments sampleOps sampleLoc sampleNoteLoc sampleOwner []
        None 1 [LayoutReq T LayoutTrivial; LayoutReq U LayoutUnknown]
      = Some (res, ev)
      /\ (res = Success \/ res = SubstitutionFailure).
Proof.
  destruct (@layout_fails_only_for_class sampleOps sampleLoc sampleNoteLoc
              sampleOwner [] None) as (_ & H2 & H3).
  split.
  - apply H2. reflexivity.
  - apply H3. reflexivity.
Defined.

End CheckerSamples.

(* ================================================================== *)
(** ** Facts about [checkReferencedGenericParams] *)
(* ================================================================== *)

Section ReferencedFacts.
Import ReferencedParams ReferencedClosure ReferencedRule.

Lemma count_In : forall t s, count t s = true <-> In t s.
Proof.
  intros t s. unfold count. rewrite existsb_exists. split.
  - intros (x & Hx & E). apply isEqual_eq in E. now subst.
  - intros H. exists t. split; [assumption|apply isEqual_refl].
Qed.

Lemma count_not_In : forall t s, count t s = false <-> ~ In t s.
Proof.
  intros t s. rewrite <- count_In. destruct (count t s); intuition congruence.
Qed.

Lemma insert_In : forall t s x,
  In x (fst (insert t s)) <-> In x s \/ x = t.
Proof.
  intros t s x. unfold insert. destruct (count t s) eqn:E; simpl.
  - apply count_In in E. intuition (subst; assumption).
  - rewrite in_app_iff. simpl. intuition.
Qed.

Lemma insert_new : forall t s, snd (insert t s) = negb (count t s).
Proof. intros t s. unfold insert. destruct (count t s); reflexivity. Qed.

Lemma insert_old : forall t s, snd (insert t s) = false -> fst (insert t s) = s.
Proof. intros t s. unfold insert. destruct (count t s); simpl; congruence. Qed.

Lemma insertGenericParams_In : forall used refs x,
  In x (fst (insertGenericParams used refs))
  <-> In x refs \/ (In x used /\ isGenericTypeParam x = true).
Proof.
  induction used as [|t used IH]; intros refs x; simpl.
  - intuition.
  - destruct (isGenericTypeParam t) eqn:Et; simpl.
    + destruct (insert t refs) as [refs1 new1] eqn:E1.
      specialize (IH refs1 x).
      destruct (insertGenericParams used refs1) as [refs2 new2]. simpl in *.
      rewrite IH. change refs1 with (fst (refs1, new1)). rewrite <- E1.
      rewrite insert_In. intuition (subst; auto).
    + rewrite IH. intuition (subst; auto; congruence).
Qed.

Lemma insertGenericParams_old : forall used refs,
  snd (insertGenericParams used refs) = false ->
  fst (insertGenericParams used refs) = refs.
Proof.
  induction used as [|t used IH]; intros refs; simpl.
  - reflexivity.
  - destruct (isGenericTypeParam t); simpl; [|apply IH].
    destruct (insert t refs) as [refs1 new1] eqn:E1.
    specialize (IH refs1).
    destruct (insertGenericParams used refs1) as [refs2 new2]. simpl in *.
    intros E. apply orb_false_iff in E as [-> ->].
    rewrite (IH eq_refl). change refs1 with (fst (refs1, false)).
    rewrite <- E1. apply insert_old. now rewrite E1.
Qed.

Lemma insertGenericParams_new : forall used refs,
  snd (insertGenericParams used refs) = true ->
  exists x, In x used /\ isGenericTypeParam x = true /\ ~ In x refs.
Proof.
  induction used as [|t used IH]; intros refs; simpl.
  - discriminate.
  - destruct (isGenericTypeParam t) eqn:Et; simpl.
    + destruct (insert t refs) as [refs1 new1] eqn:E1.
      specialize (IH refs1).
      destruct (insertGenericParams used refs1) as [refs2 new2]. simpl in *.
      destruct new1; simpl.
      * intros _. exists t. repeat split; auto.
        apply count_not_In.
        pose proof (insert_new t refs) as Hn. rewrite E1 in Hn. simpl in Hn.
        now destruct (count t refs).
      * intros E. destruct (IH E) as (x & Hx & Hg & Hn).
        exists x. repeat split; auto.
        intros Hin. apply Hn. change refs1 with (fst (refs1, false)).
        rewrite <- E1. apply insert_In. now left.
    + intros E. destruct (IH _ E) as (x & Hx & Hg & Hn). eauto.
Qed.

Lemma reqTypesVisitor_In : forall req refs x,
  In x (fst (reqTypesVisitor req refs))
  <-> In x refs
      \/ (applicable req refs = true /\ In x (usedByRequirementTypes req)
          /\ isGenericTypeParam x = true).
Proof.
  intros req refs x. unfold reqTypesVisitor. fold (applicable req refs).
  destruct (applicable req refs).
  - rewrite insertGenericParams_In. intuition.
  - simpl. intuition congruence.
Qed.

Lemma reqTypesVisitor_old : forall req refs,
  snd (reqTypesVisitor req refs) = false ->
  fst (reqTypesVisitor req refs) = refs.
Proof.
  intros req refs. unfold reqTypesVisitor.
  destruct (existsb _ _); [apply insertGenericParams_old|reflexivity].
Qed.

Lemma reqTypesVisitor_new : forall req refs,
  snd (reqTypesVisitor req refs) = true ->
  exists x, In x (usedByRequirementTypes req)
            /\ isGenericTypeParam x = true /\ ~ In x refs
            /\ In x (fst (reqTypesVisitor req refs)).
Proof.
  intros req refs H.
  assert (Ha : applicable req refs = true).
  { unfold reqTypesVisitor in H. fold (applicable req refs) in H.
    destruct (applicable req refs); [reflexivity|discriminate]. }
  unfold reqTypesVisitor in H. fold (applicable req refs) in H.
  rewrite Ha in H.
  destruct (insertGenericParams_new _ _ H) as (x & Hx & Hg & Hn).
  exists x. repeat split; auto. apply reqTypesVisitor_In. right. auto.
Qed.

Lemma visitRequirements_incl : forall reqs refs x,
  In x refs -> In x (fst (visitRequirements reqs refs)).
Proof.
  induction reqs as [|req reqs IH]; intros refs x Hx; simpl.
  - assumption.
  - destruct (reqTypesVisitor req refs) as [refs1 found1] eqn:E1.
    specialize (IH refs1 x).
    destruct (visitRequirements reqs refs1) as [refs2 found2]. simpl in *.
    apply IH. change refs1 with (fst (refs1, found1)). rewrite <- E1.
    apply reqTypesVisitor_In. now left.
Qed.

Lemma visitRequirements_old : forall reqs refs,
  snd (visitRequirements reqs refs) = false ->
  fst (visitRequirements reqs refs) = refs /\ closed reqs refs.
Proof.
  induction reqs as [|req reqs IH]; intros refs; simpl.
  - intros _. split; [reflexivity|]. intros req [].
  - destruct (reqTypesVisitor req refs) as [refs1 found1] eqn:E1.
    specialize (IH refs1).
    destruct (visitRequirements reqs refs1) as [refs2 found2]. simpl in *.
    intros E. apply orb_false_iff in E as [-> ->].
    destruct (IH eq_refl) as [-> Hc].
    assert (Hrefs : refs1 = refs).
    { change refs1 with (fst (refs1, false)). rewrite <- E1.
      apply reqTypesVisitor_old. now rewrite E1. }
    subst refs1. split; [reflexivity|].
    intros r [<-|Hr] Ha t Ht Hg.
    + change refs with (fst (refs, false)). rewrite <- E1.
      apply reqTypesVisitor_In. right. auto.
    + eapply Hc; eauto.
Qed.

Lemma candidates_In : forall reqs x,
  In x (candidates reqs)
  <-> exists req, In req reqs /\ In x (usedByRequirementTypes req)
                  /\ isGenericTypeParam x = true.
Proof.
  intros reqs x. unfold candidates. rewrite in_flat_map. split.
  - intros (req & Hr & Hx). apply filter_In in Hx. eauto.
  - intros (req & Hr & Hx & Hg). exists req. split; [assumption|].
    apply filter_In. auto.
Qed.

Lemma visitRequirements_new : forall reqs refs,
  snd (visitRequirements reqs refs) = true ->
  exists x, In x (candidates reqs) /\ ~ In x refs
            /\ In x (fst (visitRequirements reqs refs)).
Proof.
  induction reqs as [|req reqs IH]; intros refs; simpl.
  - discriminate.
  - destruct (reqTypesVisitor req refs) as [refs1 found1] eqn:E1.
    pose proof (visitRequirements_incl reqs refs1) as Hincl.
    specialize (IH refs1).
    destruct (visitRequirements reqs refs1) as [refs2 found2]. simpl in *.
    destruct found1; simpl.
    + intros _.
      destruct (reqTypesVisitor_new req refs) as (x & Hx & Hg & Hn & Hin);
        [now rewrite E1|].
      rewrite E1 in Hin. simpl in Hin.
      exists x. split; [|split; auto].
      apply (proj2 (candidates_In (req :: reqs) x)).
      exists req. simpl. auto.
    + intros E. destruct (IH E) as (x & Hx & Hn & Hin).
      assert (Hrefs : refs1 = refs).
      { change refs1 with (fst (refs1, false)). rewrite <- E1.
        apply reqTypesVisitor_old. now rewrite E1. }
      subst refs1. exists x. split; [|split; auto].
      apply candidates_In in Hx as (r & Hr & Hx & Hg).
      apply (proj2 (candidates_In (req :: reqs) x)).
      exists r. simpl. auto.
Qed.

(** A round keeps every property that the rule of the visitor keeps. *)
Lemma visitRequirements_sound : forall (P : Ty -> Prop) reqs refs,
  (forall req t u,
      In req reqs -> In t (usedByRequirementTypes req) ->
      isGenericTypeParam t = true -> In u (usedByRequirementTypes req) ->
      P (getRootGenericParam u) -> P t) ->
  (forall x, In x refs -> P x) ->
  forall x, In x (fst (visitRequirements reqs refs)) -> P x.
Proof.
  intros P reqs. induction reqs as [|req reqs IH]; intros refs Hrule Hrefs x;
    simpl.
  - apply Hrefs.
  - destruct (reqTypesVisitor req refs) as [refs1 found1] eqn:E1.
    specialize (IH refs1).
    destruct (visitRequirements reqs refs1) as [refs2 found2]. simpl in *.
    apply IH.
    + intros r t u Hr. apply Hrule. now right.
    + intros y Hy. change refs1 with (fst (refs1, found1)) in Hy.
      rewrite <- E1 in Hy. apply reqTypesVisitor_In in Hy
        as [Hy|(Ha & Hy & Hg)]; [auto|].
      unfold applicable in Ha. apply existsb_exists in Ha as (u & Hu & Hc).
      apply count_In in Hc.
      apply (Hrule req y u); auto.
Qed.

Lemma filter_length_lt : forall (A : Type) (f g : A -> bool) l x,
  (forall y, g y = true -> f y = true) ->
  In x l -> f x = true -> g x = false ->
  List.length (filter g l) < List.length (filter f l).
Proof.
  intros A f g l x Hfg. 
  assert (Hle : forall l', List.length (filter g l')
                           <= List.length (filter f l')).
  { induction l' as [|a l' IH]; simpl; [lia|].
    destruct (g a) eqn:Eg.
    - rewrite (Hfg _ Eg). simpl. lia.
    - destruct (f a); simpl; lia. }
  induction l as [|a l IH]; simpl; intros Hin Hf Hg.
  - contradiction.
  - destruct Hin as [->|Hin].
    + rewrite Hf, Hg. simpl. specialize (Hle l). lia.
    + specialize (IH Hin Hf Hg). destruct (g a) eqn:Eg.
      * rewrite (Hfg _ Eg). simpl. lia.
      * destruct (f a); simpl; lia.
Qed.

Lemma missing_decreases : forall reqs refs refs' x,
  (forall y, In y refs -> In y refs') ->
  In x (candidates reqs) -> ~ In x refs -> In x refs' ->
  missing reqs refs' < missing reqs refs.
Proof.
  intros reqs refs refs' x Hincl Hx Hn Hin. unfold missing.
  apply filter_length_lt with (x := x); auto.
  - intros y Hy. apply negb_true_iff in Hy. apply negb_true_iff.
    apply count_not_In. apply count_not_In in Hy. auto.
  - apply negb_true_iff. now apply count_not_In.
  - apply negb_false_iff. now apply count_In.
Qed.

(** With enough rounds the search ends in a closed set that holds the
    set it started from and nothing the rule does not give. *)
Lemma FindReferenced_spec : forall fuel reqs refs,
  missing reqs refs < fuel ->
  exists refs',
    FindReferencedGenericParamsInRequirements fuel reqs refs = Some refs'
    /\ (forall x, In x refs -> In x refs')
    /\ closed reqs refs'
    /\ forall P : Ty -> Prop,
        (forall req t u,
            In req reqs -> In t (usedByRequirementTypes req) ->
            isGenericTypeParam t = true -> In u (usedByRequirementTypes req) ->
            P (getRootGenericParam u) -> P t) ->
        (forall x, In x refs -> P x) ->
        forall x, In x refs' -> P x.
Proof.
  induction fuel as [|fuel IH]; intros reqs refs Hm; [lia|]. simpl.
  pose proof (visitRequirements_incl reqs refs) as Hincl.
  pose proof (visitRequirements_old reqs refs) as Hold.
  pose proof (visitRequirements_new reqs refs) as Hnew.
  pose proof (fun P => @visitRequirements_sound P reqs refs) as Hsound.
  destruct (visitRequirements reqs refs) as [refs1 found]. simpl in *.
  destruct found.
  - destruct (Hnew eq_refl) as (x & Hx & Hn & Hin).
    pose proof (@missing_decreases reqs refs refs1 x Hincl Hx Hn Hin)
      as Hlt.
    destruct (IH reqs refs1) as (refs' & E & Hi & Hc & Hs); [lia|].
    exists refs'. repeat split; auto.
    intros P Hrule Hrefs y Hy. apply (Hs P Hrule); auto.
    intros z Hz. apply (Hsound P Hrule Hrefs z Hz).
  - destruct (Hold eq_refl) as [-> Hc].
    exists refs. repeat split; auto.
Qed.

Lemma missing_le : forall reqs refs,
  missing reqs refs <= List.length (candidates reqs).
Proof. intros. unfold missing. apply filter_length_le. Qed.

Section OneDeclaration.

Variable dc : GenericContext.
Variable fnGenericParamsDepth : Z.

Let sig := getGenericSignatureOfContext dc.
Let reqs := getRequirements sig.

Lemma Referenced_in_closed : forall refs,
  (forall x, In x (paramsAndResultWalker dc) -> In x refs) ->
  closed reqs refs ->
  forall t, Referenced dc t -> In t refs.
Proof.
  intros refs Hdirect Hclosed t H.
  induction H as [t Ht|req t u Hreq Ht Hg Hu Href IH].
  - auto.
  - apply (Hclosed req Hreq); auto.
    unfold applicable. apply existsb_exists. exists u. split; [assumption|].
    now apply count_In.
Qed.

(** The invariant of the final loop, after the parameters [processed]. *)
Definition loopInvariant (processed : list GenericParam) (st : LoopState)
  : Prop :=
  (forall x, In x (paramsAndResultWalker dc) ->
             In x (referencedGenericParams st))
  /\ (forall x, In x (referencedGenericParams st) -> Referenced dc x)
  /\ (requirements st <> [] -> closed reqs (referencedGenericParams st))
  /\ (forall gp, In gp (diagnosed (decl st))
                 <-> In gp processed
                     /\ gpDepth gp = fnGenericParamsDepth
                     /\ ~ Referenced dc (gpType gp))
  /\ (diagnosed (decl st) = [] -> decl st = initialDecl dc)
  /\ (diagnosed (decl st) <> [] ->
      interfaceType (decl st) = ErrorType /\ invalid (decl st) = true).

Lemma diagnosed_step : forall processed (gp : GenericParam) (D : list GenericParam)
                              (keep : bool),
  (forall g, In g D <-> In g processed
                        /\ gpDepth g = fnGenericParamsDepth
                        /\ ~ Referenced dc (gpType g)) ->
  (keep = true <-> gpDepth gp = fnGenericParamsDepth
                   /\ ~ Referenced dc (gpType gp)) ->
  forall g, In g (if keep then D ++ [gp] else D)
            <-> In g (processed ++ [gp])
                /\ gpDepth g = fnGenericParamsDepth
                /\ ~ Referenced dc (gpType g).
Proof.
  intros processed gp D keep HD Hkeep g.
  rewrite in_app_iff. simpl. destruct keep.
  - rewrite in_app_iff, HD. simpl.
    destruct Hkeep as [Hk _]. specialize (Hk eq_refl).
    split.
    + intros [(Hp & Hd & Hn)|[<-|[]]]; auto.
    + intros ([Hp|[<-|[]]] & Hd & Hn); auto.
  - rewrite HD. destruct Hkeep as [_ Hk]. split.
    + intros (Hp & Hd & Hn). auto.
    + intros ([Hp|[<-|[]]] & Hd & Hn); [auto|].
      exfalso. discriminate (Hk (conj Hd Hn)).
Qed.

Lemma loopInvariant_extend : forall processed gp refs local refs' local' d
                                     (keep : bool),
  loopInvariant processed (mkLoop refs local d) ->
  (forall x, In x (paramsAndResultWalker dc) -> In x refs') ->
  (forall x, In x refs' -> Referenced dc x) ->
  (local' <> [] -> closed reqs refs') ->
  (keep = true <-> gpDepth gp = fnGenericParamsDepth
                   /\ ~ Referenced dc (gpType gp)) ->
  loopInvariant (processed ++ [gp])
    (mkLoop refs' local' (if keep then diagnoseUnreferenced gp d else d)).
Proof.
  intros processed gp refs local refs' local' d keep
         (_ & _ & _ & Hdiag & Hnone & Hsome) Hdirect Hsound Hclosed Hkeep.
  simpl in *. unfold loopInvariant. simpl.
  split; [exact Hdirect|]. split; [exact Hsound|]. split; [exact Hclosed|].
  split; [|split].
  - intros g.
    pose proof (@diagnosed_step processed gp (diagnosed d) keep Hdiag Hkeep g)
      as Hstep.
    destruct keep; exact Hstep.
  - destruct keep; simpl; [|exact Hnone].
    intros E. destruct (diagnosed d); discriminate.
  - destruct keep; simpl; [auto|exact Hsome].
Qed.

Lemma checkParam_invariant : forall fuel processed gp st,
  List.length (candidates reqs) < fuel ->
  loopInvariant processed st ->
  exists st',
    checkParam fuel sig fnGenericParamsDepth gp st = Some st'
    /\ loopInvariant (processed ++ [gp]) st'.
Proof.
  intros fuel processed gp [refs local d] Hfuel Hinv.
  pose proof Hinv as (Hdirect & Hsound & Hclosed & _).
  simpl in Hdirect, Hsound, Hclosed. unfold checkParam. simpl.
  destruct (Z.eqb (gpDepth gp) fnGenericParamsDepth) eqn:Edepth; simpl.
  2:{ apply Z.eqb_neq in Edepth.
      exists (mkLoop refs local d). split; [reflexivity|].
      apply (@loopInvariant_extend processed gp _ _ _ _ d false Hinv);
      auto.
      split; [discriminate|intros [? _]; contradiction]. }
  apply Z.eqb_eq in Edepth.
  destruct (count (gpType gp) refs) eqn:Ecount.
  { apply count_In in Ecount.
    exists (mkLoop refs local d). split; [reflexivity|].
    apply (@loopInvariant_extend processed gp _ _ _ _ d false Hinv);
      auto.
    split; [discriminate|intros [_ Hn]; exfalso; auto]. }
  assert (Hkeep : forall refs',
             closed reqs refs' ->
             (forall x, In x (paramsAndResultWalker dc) -> In x refs') ->
             count (gpType gp) refs' = false ->
             true = true <-> gpDepth gp = fnGenericParamsDepth
                             /\ ~ Referenced dc (gpType gp)).
  { intros refs' Hc Hd Hcount. split; [|reflexivity].
    intros _. split; [assumption|].
    intros Href. apply count_not_In in Hcount. apply Hcount.
    now apply Referenced_in_closed. }
  destruct local as [|r0 local].
  - destruct (@FindReferenced_spec fuel reqs refs)
      as (refs' & E & Hincl & Hc & Hs).
    { pose proof (missing_le reqs refs). lia. }
    fold reqs. rewrite E.
    assert (Hsound' : forall x, In x refs' -> Referenced dc x).
    { apply (Hs (Referenced dc)); [|assumption].
      intros req t u. apply Referenced_by_requirement. }
    destruct (count (gpType gp) refs') eqn:Ecount'.
    + apply count_In in Ecount'.
      exists (mkLoop refs' reqs d). split; [reflexivity|].
      apply (@loopInvariant_extend processed gp _ _ _ _ d false Hinv);
      auto.
      split; [discriminate|intros [_ Hn]; exfalso; auto].
    + eexists. split; [reflexivity|].
      apply (@loopInvariant_extend processed gp _ _ _ _ d true Hinv);
      auto.
      apply (Hkeep refs'); auto.
  - eexists. split; [reflexivity|].
    apply (@loopInvariant_extend processed gp _ _ _ _ d true Hinv);
      auto.
    apply (Hkeep refs); auto. apply Hclosed. discriminate.
Qed.

Lemma checkParams_invariant : forall fuel params processed st,
  List.length (candidates reqs) < fuel ->
  loopInvariant processed st ->
  exists st',
    checkParams fuel sig fnGenericParamsDepth params st = Some st'
    /\ loopInvariant (processed ++ params) st'.
Proof.
  intros fuel params. induction params as [|gp params IH];
    intros processed st Hfuel Hinv; simpl.
  - exists st. rewrite app_nil_r. auto.
  - destruct (@checkParam_invariant fuel processed gp st Hfuel Hinv)
      as (st1 & -> & Hinv1).
    destruct (IH _ _ Hfuel Hinv1) as (st2 & -> & Hinv2).
    exists st2. split; [reflexivity|].
    now rewrite <- app_assoc in Hinv2.
Qed.

End OneDeclaration.

(** The walker records the type parameters that stand on their own. *)
Lemma walk_eq : forall ty refs,
  walk ty refs
  = if negb (hasTypeParameter ty) then refs
    else if isTypeParameter ty then fst (insert ty refs)
    else match ty with
         | DependentMemberType b _ => walk b refs
         | NominalType _ args => fold_left (fun acc a => walk a acc) args refs
         | FunctionType ps r =>
             walk r (fold_left (fun acc a => walk a acc) ps refs)
         | _ => refs
         end.
Proof. intros [] refs; reflexivity. Qed.

Lemma isTypeParameter_hasTypeParameter : forall ty,
  isTypeParameter ty = true -> hasTypeParameter ty = true.
Proof. destruct ty; simpl; intros H; try discriminate; reflexivity. Qed.

Lemma children_hasTypeParameter : forall ty c,
  In c (children ty) -> hasTypeParameter c = true ->
  hasTypeParameter ty = true.
Proof.
  destruct ty; simpl; intros c Hin Hc; try contradiction; auto.
  - apply existsb_exists. eauto.
  - apply orb_true_iff. apply in_app_or in Hin as [Hin|[<-|[]]]; auto.
    left. apply existsb_exists. eauto.
Qed.

Lemma Outermost_hasTypeParameter : forall x ty,
  Outermost x ty -> hasTypeParameter ty = true.
Proof.
  intros x ty H. induction H as [Hx|ty c Ht Hin _ IH].
  - now apply isTypeParameter_hasTypeParameter.
  - exact (children_hasTypeParameter _ _ Hin IH).
Qed.

Lemma Outermost_typeParameter : forall x ty,
  isTypeParameter ty = true -> Outermost x ty -> x = ty.
Proof. intros x ty Ht H. inversion H; subst; congruence. Qed.

Lemma Outermost_inside_iff : forall x ty,
  isTypeParameter ty = false ->
  (Outermost x ty <-> exists c, In c (children ty) /\ Outermost x c).
Proof.
  intros x ty Ht. split.
  - intros H. inversion H; subst; [congruence|eauto].
  - intros (c & Hin & Hc). apply Outermost_inside with (c := c); assumption.
Qed.

Lemma fold_walk_Outermost : forall args,
  Forall (fun a => forall refs x,
              In x (walk a refs) <-> In x refs \/ Outermost x a) args ->
  forall refs x,
    In x (fold_left (fun acc a => walk a acc) args refs)
    <-> In x refs \/ exists a, In a args /\ Outermost x a.
Proof.
  intros args H. induction H as [|a args Ha _ IH]; intros refs x; simpl.
  - split; [auto|]. intros [H|(a & [] & _)]. exact H.
  - rewrite IH, Ha. split.
    + intros [[H|H]|(b & Hb & H)]; eauto.
    + intros [H|(b & [<-|Hb] & H)]; eauto.
Qed.

Lemma walk_Outermost : forall ty refs x,
  In x (walk ty refs) <-> In x refs \/ Outermost x ty.
Proof.
  induction ty using Ty_ind_nested; intros refs x; rewrite walk_eq;
    (destruct (hasTypeParameter _) eqn:Eh; cbn [negb];
     [|split; [auto|];
       intros [Hin|Hout]; [exact Hin|];
       apply Outermost_hasTypeParameter in Hout; congruence]);
    destruct (isTypeParameter _) eqn:Et;
    try solve [simpl in Eh, Et; discriminate];
    try (rewrite insert_In; split;
         [intros [Hin| ->]; [now left|right; now apply Outermost_here]
         |intros [Hin|Hout]; [now left|right];
          now apply Outermost_typeParameter]);
    rewrite (@Outermost_inside_iff x _ Et); cbn [children].
  - rewrite IHty. split.
    + intros [Hin|Hout]; [now left|right]. exists ty. split; [now left|auto].
    + intros [Hin|(c & [<-|[]] & Hout)]; auto.
  - apply (fold_walk_Outermost H).
  - rewrite IHty, (fold_walk_Outermost H). split.
    + intros [[Hin|(a & Ha & Hout)]|Hout]; [now left| |].
      * right. exists a. split; [apply in_or_app; now left|exact Hout].
      * right. exists ty. split; [apply in_or_app; right; now left|exact Hout].
    + intros [Hin|(c & Hc & Hout)]; [now left; left|].
      apply in_app_or in Hc as [Hc|[<-|[]]]; [left; right; eauto|now right].
Qed.

Lemma paramsAndResultWalker_Outermost : forall dc x,
  In x (paramsAndResultWalker dc)
  <-> exists ty, In ty (signatureTypes dc) /\ Outermost x ty.
Proof.
  intros dc x. unfold paramsAndResultWalker, signatureTypes.
  rewrite walk_Outermost, fold_walk_Outermost.
  2:{ apply Forall_forall. intros a _. apply walk_Outermost. }
  split.
  - intros [[[]|(a & Ha & Hout)]|Hout].
    + exists a. split; [apply in_or_app; now left|exact Hout].
    + exists (funcResult dc).
      split; [apply in_or_app; right; now left|exact Hout].
  - intros (ty & Hin & Hout).
    apply in_app_or in Hin as [Hin|[<-|[]]]; [left; right; eauto|now right].
Qed.

Lemma walk_guard : forall ty refs,
  (if hasTypeParameter ty then walk ty refs else refs) = walk ty refs.
Proof.
  intros ty refs. destruct (hasTypeParameter ty) eqn:Eh; [reflexivity|].
  rewrite walk_eq, Eh. reflexivity.
Qed.

Lemma usedByRequirementTypes_Uses : forall req x,
  In x (usedByRequirementTypes req) <-> Uses req x.
Proof.
  intros req x. unfold usedByRequirementTypes, Uses.
  destruct req as [s p|s t|s t|s l]; cbn [getFirstType visitedSecondType
                                           requirementTypes];
    rewrite ?walk_guard, ?walk_Outermost; split.
  - intros [[]|Hout]. exists s. split; [now left|exact Hout].
  - intros (ty & [<-|[]] & Hout). now right.
  - intros [[[]|Hout]|Hout]; [exists s|exists t]; simpl; auto.
  - intros (ty & [<-|[<-|[]]] & Hout); auto.
  - intros [[[]|Hout]|Hout]; [exists s|exists t]; simpl; auto.
  - intros (ty & [<-|[<-|[]]] & Hout); auto.
  - intros [[]|Hout]. exists s. split; [now left|exact Hout].
  - intros (ty & [<-|[]] & Hout). now right.
Qed.

(** The sets the function computes hold exactly what the rule gives. *)
Lemma Referenced_rule : forall dc t,
  Referenced dc t <-> ReferencedByRule dc t.
Proof.
  intros dc t. split.
  - intros H. induction H as [t Ht|req t u Hreq Ht Hg Hu _ IH].
    + apply paramsAndResultWalker_Outermost in Ht as (ty & Hin & Hout).
      apply Rule_directly with (ty := ty); assumption.
    + apply usedByRequirementTypes_Uses in Ht, Hu.
      apply Rule_by_requirement with (req := req) (u := u); assumption.
  - intros H. induction H as [x ty Hin Hout|req g u Hreq Hg Ht Hu _ IH].
    + apply Referenced_directly. apply paramsAndResultWalker_Outermost.
      eauto.
    + apply usedByRequirementTypes_Uses in Ht, Hu.
      apply Referenced_by_requirement with (req := req) (u := u);
        assumption.
Qed.

(** What the check does, in terms of the sets it computes. *)
Lemma checkReferencedGenericParams_closure : forall k dc,
  exists out,
    checkReferencedGenericParams (searchBound dc + k) dc = Some out
    /\ (isAccessorDecl dc = true -> out = initialDecl dc)
    /\ (ownGenericParams dc = None -> out = initialDecl dc)
    /\ (forall front others,
        isAccessorDecl dc = false ->
        ownGenericParams dc = Some (front, others) ->
        (forall gp,
            In gp (diagnosed out)
            <-> In gp (getGenericParams (getGenericSignatureOfContext dc))
                /\ gpDepth gp = gpDepth front
                /\ ~ Referenced dc (gpType gp))
        /\ (diagnosed out = [] -> out = initialDecl dc)
        /\ (diagnosed out <> [] ->
            interfaceType out = ErrorType /\ invalid out = true)).
Proof.
  intros k dc. unfold checkReferencedGenericParams.
  destruct (isAccessorDecl dc) eqn:Eacc.
  { exists (initialDecl dc). repeat split; auto; discriminate. }
  destruct (ownGenericParams dc) as [[front others]|] eqn:Eown.
  2:{ exists (initialDecl dc). repeat split; auto; discriminate. }
  assert (Hinit : loopInvariant dc (gpDepth front) []
                    (mkLoop (paramsAndResultWalker dc) [] (initialDecl dc))).
  { repeat split; simpl; auto; try contradiction.
    - intros x. apply Referenced_directly.
    - intros [H _]; contradiction. }
  assert (Hfuel : List.length
                    (candidates
                       (getRequirements (getGenericSignatureOfContext dc)))
                  < searchBound dc + k)
    by (unfold searchBound; lia).
  destruct (@checkParams_invariant dc (gpDepth front) (searchBound dc + k)
              (getGenericParams (getGenericSignatureOfContext dc)) [] _
              Hfuel Hinit) as (st & E & Hinv).
  rewrite E. exists (decl st).
  destruct Hinv as (_ & _ & _ & Hdiag & Hnone & Hsome).
  split; [reflexivity|]. split; [discriminate|]. split; [discriminate|].
  intros front' others' _ Efront. inversion Efront; subst front' others'.
  simpl in Hdiag. auto.
Qed.

(** C5 (as amended): with enough rounds for the search,
    [checkReferencedGenericParams] returns; it leaves an accessor and a
    declaration without generic parameter list untouched; otherwise the
    parameters it diagnoses are exactly the parameters of the signature
    that have the depth of the declaration's own parameters and are not
    referenced by the rule of the check: a parameter is referenced when
    it stands on its own in a parameter type or in the result type (as
    the base of a dependent member type it is not: the member type is
    what is recorded), or when it stands on its own in a type of a
    requirement in which some type parameter stands on its own whose
    root generic parameter is referenced.  When it diagnoses a parameter
    the interface type becomes the error type and the declaration is
    marked invalid; when it diagnoses none the declaration is as
    before. *)
Theorem unreferenced_parameters_are_diagnosed : forall k dc,
  exists out,
    checkReferencedGenericParams (searchBound dc + k) dc = Some out
    /\ (isAccessorDecl dc = true -> out = initialDecl dc)
    /\ (ownGenericParams dc = None -> out = initialDecl dc)
    /\ (forall front others,
        isAccessorDecl dc = false ->
        ownGenericParams dc = Some (front, others) ->
        (forall gp,
            In gp (diagnosed out)
            <-> In gp (getGenericParams (getGenericSignatureOfContext dc))
                /\ gpDepth gp = gpDepth front
                /\ ~ ReferencedByRule dc (gpType gp))
        /\ (diagnosed out = [] -> out = initialDecl dc)
        /\ (diagnosed out <> [] ->
            interfaceType out = ErrorType /\ invalid out = true)).
Proof.
  intros k dc.
  destruct (checkReferencedGenericParams_closure k dc)
    as (out & E & Hacc & Hnone & H).
  exists out. split; [exact E|]. split; [exact Hacc|]. split; [exact Hnone|].
  intros front others Eacc Eown.
  destruct (H front others Eacc Eown) as (Hd & H0 & H1).
  split; [|split; assumption].
  intros gp. rewrite Hd, Referenced_rule. reflexivity.
Qed.

End ReferencedFacts.

(* ------------------------------------------------------------------ *)
(** *** The check on the sample declarations *)

Section ReferencedSamples.
Import ReferencedParams ReferencedClosure ReferencedRule Samples.

Lemma chainDecl_referenced : forall gp,
  In gp chainParams -> ReferencedByRule chainDecl (gpType gp).
Proof.
  assert (HU : ReferencedByRule chainDecl U0).
  { apply (@Rule_directly chainDecl U0 U0); [now left|now constructor]. }
  assert (H3 : ReferencedByRule chainDecl T3).
  { apply (@Rule_by_requirement chainDecl (SameTypeReq T3 U0) T3 U0);
      try reflexivity; try exact HU.
    - right. right. now left.
    - exists T3. split; [now left|now constructor].
    - exists U0. split; [right; now left|now constructor]. }
  assert (H2 : ReferencedByRule chainDecl T2).
  { apply (@Rule_by_requirement chainDecl
             (SameTypeReq T2 (DependentMemberType T3 "N")) T2
             (DependentMemberType T3 "N"));
      try reflexivity; try exact H3.
    - right. now left.
    - exists T2. split; [now left|now constructor].
    - exists (DependentMemberType T3 "N").
      split; [right; now left|now constructor]. }
  assert (H1 : ReferencedByRule chainDecl T1).
  { apply (@Rule_by_requirement chainDecl
             (SameTypeReq T1 (DependentMemberType T2 "M")) T1
             (DependentMemberType T2 "M"));
      try reflexivity; try exact H2.
    - now left.
    - exists T1. split; [now left|now constructor].
    - exists (DependentMemberType T2 "M").
      split; [right; now left|now constructor]. }
  intros gp [<-|[<-|[<-|[<-|[]]]]]; assumption.
Qed.

Lemma memberRequirementDecl_referenced : forall x,
  ReferencedByRule memberRequirementDecl x -> x = GenericTypeParamType 0 1.
Proof.
  intros x H. induction H as [x ty Hin Hout|req g u Hreq Hg Ht Hu _ _].
  - destruct Hin as [<-|[<-|[]]].
    + now apply Outermost_typeParameter in Hout.
    + apply Outermost_hasTypeParameter in Hout. discriminate.
  - destruct Hreq as [<-|[]]. destruct Ht as (ty & [<-|[<-|[]]] & Hout);
      apply Outermost_typeParameter in Hout; try reflexivity; subst g;
      [discriminate|reflexivity].
Qed.

(** C5, on the chain [T1 == T2.M], [T2 == T3.N], [T3 == U] with [U] a
    parameter type: nothing is diagnosed; and on
    [func f<T1, U>(_: U) where T1.M == U]: [T1] is diagnosed, [U] is
    not, and the declaration is marked. *)
Lemma unreferenced_parameters_are_diagnosed_witness :
  checkReferencedGenericParams (searchBound chainDecl + 0) chainDecl
  = Some (initialDecl chainDecl)
  /\ exists out,
      checkReferencedGenericParams (searchBound memberRequirementDecl + 0)
                                   memberRequirementDecl
      = Some out
      /\ In (mkGenericParam "T1" 0 0) (diagnosed out)
      /\ ~ In (mkGenericParam "U" 0 1) (diagnosed out)
      /\ interfaceType out = ErrorType
      /\ invalid out = true.
Proof.
  split.
  - destruct (unreferenced_parameters_are_diagnosed 0 chainDecl)
      as (out & E & _ & _ & H).
    destruct (H (mkGenericParam "T1" 0 0) (tl chainParams) eq_refl eq_refl)
      as (Hd & Hnone & _).
    rewrite E. f_equal. apply Hnone.
    destruct (diagnosed out) as [|gp rest]; [reflexivity|].
    exfalso. destruct (proj1 (Hd gp) (or_introl eq_refl)) as (Hin & _ & Hn).
    apply Hn. apply chainDecl_referenced. exact Hin.
  - destruct (unreferenced_parameters_are_diagnosed 0 memberRequirementDecl)
      as (out & E & _ & _ & H).
    destruct (H (mkGenericParam "T1" 0 0) [mkGenericParam "U" 0 1]
                eq_refl eq_refl) as (Hd & _ & Hsome).
    assert (H1 : In (mkGenericParam "T1" 0 0) (diagnosed out)).
    { apply Hd. split; [now left|]. split; [reflexivity|].
      intros Href. apply memberRequirementDecl_referenced in Href.
      discriminate. }
    exists out. split; [exact E|]. split; [exact H1|]. split.
    + intros HU. apply Hd in HU. destruct HU as (_ & _ & Hn). apply Hn.
      apply (@Rule_directly memberRequirementDecl _
               (GenericTypeParamType 0 1)); [now left|now constructor].
    + apply Hsome. intros E0. rewrite E0 in H1. destruct H1.
Defined.

(** C5 as stated fails.  In [func g<T: P>(_: T.A)], [T] occurs in the
    parameter type; in [func f<T1, U>(_: U) where T1.M == U], the
    requirement mentions [T1] and the referenced [U].  Both are
    diagnosed: the walker records the member types [T.A] and [T1.M], not
    their bases. *)
Lemma member_type_base_is_diagnosed :
  (ReferencedAnywhere memberDecl (GenericTypeParamType 0 0)
   /\ checkReferencedGenericParams (searchBound memberDecl) memberDecl
      = Some (mkDecl [mkGenericParam "T" 0 0] ErrorType true))
  /\ (ReferencedAnywhere memberRequirementDecl (GenericTypeParamType 0 0)
      /\ checkReferencedGenericParams (searchBound memberRequirementDecl)
                                      memberRequirementDecl
         = Some (mkDecl [mkGenericParam "T1" 0 0] ErrorType true)).
Proof.
  split; (split; [|reflexivity]).
  - apply (@Anywhere_directly memberDecl _
             (DependentMemberType (GenericTypeParamType 0 0) "A"));
      [reflexivity|now left|].
    apply (@Occurs_inside _ _ (GenericTypeParamType 0 0));
      [now left|constructor].
  - apply (@Anywhere_by_requirement memberRequirementDecl
             (SameTypeReq (DependentMemberType (GenericTypeParamType 0 0) "M")
                          (GenericTypeParamType 0 1))
             _ (GenericTypeParamType 0 1)).
    + now left.
    + split; [reflexivity|].
      exists (DependentMemberType (GenericTypeParamType 0 0) "M").
      split; [now left|].
      apply (@Occurs_inside _ _ (GenericTypeParamType 0 0));
        [now left|constructor].
    + split; [reflexivity|]. exists (GenericTypeParamType 0 1).
      split; [right; now left|constructor].
    + apply (@Anywhere_directly memberRequirementDecl _
               (GenericTypeParamType 0 1));
        [reflexivity|now left|constructor].
Qed.

(** The chain needs the rounds of the search: nothing is diagnosed and
    the declaration stays as it is, while the unused [T] of [g] is
    diagnosed. *)
Example chain_is_referenced :
  checkReferencedGenericParams (searchBound chainDecl) chainDecl
  = Some (initialDecl chainDecl)
  /\ checkReferencedGenericParams (searchBound unusedDecl) unusedDecl
     = Some (mkDecl [mkGenericParam "T" 0 0] ErrorType true).
Proof. split; reflexivity. Qed.

End ReferencedSamples.

(* ================================================================== *)
(** ** Facts about [checkGenericEnvironment] *)
(* ================================================================== *)

Section EnvironmentFacts.
Import Builder GenericEnvironments.

Variable computeGenericSignature :
  GenericSignatureBuilder -> bool -> GenericSignaturePtr.

Lemma back_Some : forall (A : Type) (l : list A),
  l <> [] -> exists x, back l = Some x.
Proof.
  intros A l. unfold back. induction l as [|a l IH]; [contradiction|].
  intros _. destruct l as [|b l].
  - exists a. reflexivity.
  - destruct IH as [x Hx]; [discriminate|]. exists x. exact Hx.
Qed.

(** [getSecondType()] is undefined on layout requirements only, so the
    redundancy test is undefined exactly on a layout requirement of an
    extension. *)
Lemma redundantRequirement_None : forall ext req,
  redundantRequirement ext req = None
  <-> exists e, ext = Some e /\ getKind req = Layout.
Proof.
  intros ext req. unfold redundantRequirement. split.
  - destruct ext as [e|]; [|discriminate].
    destruct req; simpl; try discriminate. intros _. eauto.
  - intros (e & -> & Hk). destruct req; simpl in Hk; try discriminate.
    reflexivity.
Qed.

Lemma visitWhereClause_None : forall ext reqs state,
  visitWhereClause ext reqs state = None
  <-> exists req, In req reqs /\ redundantRequirement ext req = None.
Proof.
  intros ext reqs. induction reqs as [|req rest IH]; intros state; simpl.
  - split; [discriminate|]. intros (req & [] & _).
  - destruct (redundantRequirement ext req) as [diags|] eqn:E.
    + rewrite IH. split.
      * intros (r & Hin & Hr). eauto.
      * intros (r & [<- | Hin] & Hr); [congruence|eauto].
    + split; [|reflexivity]. intros _. eauto.
Qed.

Lemma visitWhereClause_calls : forall ext reqs builder diags builder' diags',
  visitWhereClause ext reqs (builder, diags) = Some (builder', diags') ->
  builder' = builder ++ map (fun req => addRequirement req forExplicit) reqs.
Proof.
  intros ext reqs. induction reqs as [|req rest IH];
    intros builder diags builder' diags'; simpl.
  - intros E. inversion E; subst. now rewrite app_nil_r.
  - destruct (redundantRequirement ext req) as [ds|]; [|discriminate].
    intros E. apply IH in E. rewrite E, <- app_assoc. reflexivity.
Qed.

Lemma checkGenericParamList_None : forall builder genericParams parentSig,
  checkGenericParamList builder genericParams parentSig = None
  <-> constrainsLayoutInExtension genericParams.
Proof.
  intros builder genericParams parentSig.
  unfold checkGenericParamList, constrainsLayoutInExtension.
  rewrite visitWhereClause_None. split.
  - intros (req & Hin & Hr). apply redundantRequirement_None in Hr.
    destruct Hr as (e & He & Hk). eauto.
  - intros (e & req & He & Hin & Hk). exists req. split; [exact Hin|].
    apply redundantRequirement_None. eauto.
Qed.

Lemma checkGenericParamList_calls :
  forall builder genericParams parentSig builder' diags,
    checkGenericParamList builder genericParams parentSig
    = Some (builder', diags) ->
    exists rest,
      builder' = builder ++ addGenericSignature parentSig :: rest
      /\ forall p, In p (getParams genericParams) ->
                   In (addGenericParameter (gpType p)) rest.
Proof.
  intros builder genericParams parentSig builder' diags E.
  unfold checkGenericParamList in E. apply visitWhereClause_calls in E.
  subst builder'. rewrite <- !app_assoc. simpl. eexists.
  split; [reflexivity|].
  intros p Hp. apply in_or_app. left.
  apply (in_map (fun q => addGenericParameter (gpType q))). exact Hp.
Qed.

(** The walk from the outermost list inwards is undefined exactly when
    one of the lists is that of an extension with a layout requirement in
    its where clause. *)
Fixpoint visitOuterToInner_None (genericParams : GenericParamList)
  : forall state,
    visitOuterToInner genericParams state = None
    <-> exists l, In l (outermostFirst genericParams)
                  /\ constrainsLayoutInExtension l.
Proof.
  destruct genericParams as [p0 ps w dc [outerList|]]; intros state;
    cbn [visitOuterToInner outermostFirst].
  - pose proof (visitOuterToInner_None outerList state) as IH.
    destruct (visitOuterToInner outerList state) as [[builder diags]|].
    + pose proof (checkGenericParamList_None builder
                    (mkParamList p0 ps w dc (Some outerList)) None) as HN.
      destruct (checkGenericParamList builder _ None) as [[b' d']|].
      * split; [discriminate|]. intros (l & Hin & Hl).
        apply in_app_or in Hin. destruct Hin as [Hin|[<-|[]]].
        -- assert (H : @None (GenericSignatureBuilder * list Diagnostic)
                        = None) by reflexivity.
           destruct IH as [_ IH]. discriminate IH. eauto.
        -- apply HN in Hl. discriminate.
      * split; [|reflexivity]. intros _. exists (mkParamList p0 ps w dc (Some outerList)).
        split; [apply in_or_app; right; now left|]. now apply HN.
    + split; [|reflexivity]. intros _.
      destruct IH as [IH _]. destruct (IH eq_refl) as (l & Hin & Hl).
      exists l. split; [apply in_or_app; now left|exact Hl].
  - pose proof (checkGenericParamList_None (fst state)
                  (mkParamList p0 ps w dc None) None) as HN.
    destruct state as [builder diags]. cbn [fst] in HN.
    destruct (checkGenericParamList builder _ None) as [[b' d']|].
    + split; [discriminate|]. intros (l & [<-|[]] & Hl).
      apply HN in Hl. discriminate.
    + split; [|reflexivity]. intros _. exists (mkParamList p0 ps w dc None).
      split; [now left|]. now apply HN.
Qed.

(** The walk from the outermost list inwards starts by adding no
    signature and adds the parameters of the list it was given. *)
Fixpoint visitOuterToInner_calls (genericParams : GenericParamList)
  : forall builder diags builder' diags',
    visitOuterToInner genericParams (builder, diags)
    = Some (builder', diags') ->
    exists rest,
      builder' = builder ++ addGenericSignature None :: rest
      /\ forall p, In p (getParams genericParams) ->
                   In (addGenericParameter (gpType p)) rest.
Proof.
  destruct genericParams as [p0 ps w dc [outerList|]];
    intros builder diags builder' diags'; cbn [visitOuterToInner].
  - pose proof (visitOuterToInner_calls outerList builder diags) as IH.
    destruct (visitOuterToInner outerList (builder, diags))
      as [[builder1 diags1]|]; [|discriminate].
    destruct (IH _ _ eq_refl) as (rest1 & -> & _).
    destruct (checkGenericParamList _ _ None) as [[builder2 diags2]|] eqn:E;
      [|discriminate].
    intros E'. inversion E'; subst builder' diags'.
    apply checkGenericParamList_calls in E.
    destruct E as (rest2 & -> & H2).
    exists (rest1 ++ addGenericSignature None :: rest2). split.
    + rewrite <- app_assoc. reflexivity.
    + intros p Hp. apply in_or_app. right. right. auto.
  - destruct (checkGenericParamList _ _ None) as [[builder2 diags2]|] eqn:E;
      [|discriminate].
    intros E'. inversion E'; subst builder' diags'.
    apply checkGenericParamList_calls in E. exact E.
Qed.

(** The lists checked by a call that needs a builder. *)
Lemma checkedLists_None : forall genericParams parentSig,
  match getOuterParameters genericParams, parentSig with
  | Some _, None => visitOuterToInner genericParams ([], [])
  | _, _ => checkGenericParamList [] genericParams parentSig
  end = None
  <-> exists l, In l (checkedLists genericParams parentSig)
                /\ constrainsLayoutInExtension l.
Proof.
  intros genericParams parentSig. unfold checkedLists.
  destruct (getOuterParameters genericParams) as [outerList|];
    [destruct parentSig as [parent|]|].
  2: apply visitOuterToInner_None.
  all: rewrite checkGenericParamList_None; split;
    [intros H; exists genericParams; split; [now left|exact H]
    |intros (l & [<-|[]] & H); exact H].
Qed.

Lemma checkedLists_calls : forall genericParams parentSig builder diags,
  match getOuterParameters genericParams, parentSig with
  | Some _, None => visitOuterToInner genericParams ([], [])
  | _, _ => checkGenericParamList [] genericParams parentSig
  end = Some (builder, diags) ->
  exists rest,
    builder = addGenericSignature parentSig :: rest
    /\ forall p, In p (getParams genericParams) ->
                 In (addGenericParameter (gpType p)) rest.
Proof.
  intros genericParams parentSig builder diags.
  destruct (getOuterParameters genericParams) as [outerList|];
    [destruct parentSig as [parent|]|]; intros E.
  2: now apply visitOuterToInner_calls in E.
  all: now apply checkGenericParamList_calls in E.
Qed.

(** The condition of the [if], for lists and signatures with sound
    depths: a builder is needed unless the extension adds no constraint
    and sits at the depth of the type it extends. *)
Lemma needsBuilder_true :
  forall genericParams ext mustInferRequirements,
    wellFormedDepths genericParams ext ->
    ~ extendsAtSameDepth genericParams ext mustInferRequirements ->
    needsBuilder genericParams ext mustInferRequirements = Some true.
Proof.
  intros genericParams ext mustInfer [Hdepth Hsig] Hnot.
  unfold needsBuilder. destruct ext as [e|]; [|reflexivity].
  destruct mustInfer eqn:Em; [reflexivity|].
  destruct (getTrailingWhereClause e) eqn:Ew; [reflexivity|]. simpl.
  unfold getExtendedTypeGenericDepth.
  destruct (getSelfNominalTypeDecl e) as [nominal|] eqn:En.
  - destruct (nominalSignature nominal) as [sig|] eqn:Es.
    + destruct (back_Some (Hsig e nominal sig eq_refl En Es))
        as [p Hp].
      rewrite Hp. simpl.
      destruct (Z.eqb (gpDepth p) (gpDepth (backParam genericParams)))
        eqn:Ed; [|reflexivity].
      exfalso. apply Hnot. exists e. repeat split; auto.
      unfold extendedDepth. rewrite En, Es, Hp. simpl.
      apply Z.eqb_eq in Ed. now rewrite Ed.
    + cbv beta iota. apply Z.eqb_neq in Hdepth.
      rewrite Z.eqb_sym, Hdepth. reflexivity.
  - cbv beta iota. apply Z.eqb_neq in Hdepth.
    rewrite Z.eqb_sym, Hdepth. reflexivity.
Qed.

(** C6: an extension without trailing where clause that need not infer
    requirements and whose innermost parameter has the generic depth of
    the extended nominal type gets the environment of the nominal type's
    own signature (the same object), and no builder is created.  In
    every other case a new builder is created, first given the parent
    signature and then the parameters of the list, and the environment
    is made from the signature it computes; the one way for such a call
    to have no result is [getSecondType()] asked of a layout requirement
    in the where clause of an extension, while the lists are checked. *)
Theorem extension_reuses_signature :
  forall genericParams parentSig allowConcreteGenericParams ext
         inferRequirements mustInferRequirements,
    wellFormedDepths genericParams ext ->
    (forall e nominal sig,
        extendsAtSameDepth genericParams ext mustInferRequirements ->
        ext = Some e -> getSelfNominalTypeDecl e = Some nominal ->
        nominalSignature nominal = Some sig ->
        checkGenericEnvironment computeGenericSignature genericParams
          parentSig allowConcreteGenericParams ext inferRequirements
          mustInferRequirements
        = Some (mkOutcome (createGenericEnvironment sig) None []))
    /\ (~ extendsAtSameDepth genericParams ext mustInferRequirements ->
        (forall l, In l (checkedLists genericParams parentSig) ->
                   ~ constrainsLayoutInExtension l) ->
        exists calls diags,
          checkGenericEnvironment computeGenericSignature genericParams
            parentSig allowConcreteGenericParams ext inferRequirements
            mustInferRequirements
          = Some (mkOutcome
                    (createGenericEnvironment
                       (computeGenericSignature
                          (inferRequirements
                             (addGenericSignature parentSig :: calls))
                          allowConcreteGenericParams))
                    (Some (inferRequirements
                             (addGenericSignature parentSig :: calls)))
                    diags)
          /\ forall p, In p (getParams genericParams) ->
                       In (addGenericParameter (gpType p)) calls)
    /\ (~ extendsAtSameDepth genericParams ext mustInferRequirements ->
        (exists l, In l (checkedLists genericParams parentSig)
                   /\ constrainsLayoutInExtension l) ->
        checkGenericEnvironment computeGenericSignature genericParams
          parentSig allowConcreteGenericParams ext inferRequirements
          mustInferRequirements
        = None).
Proof.
  intros genericParams parentSig allowConcrete ext infer mustInfer Hwf.
  split; [|split].
  - destruct Hwf as [Hdepth Hsig].
    intros e nominal sig (e' & Ee & Hwhere & Hmust & Hext) Eext Hnom Hs.
    rewrite Eext in Ee. inversion Ee; subst e'.
    unfold checkGenericEnvironment, needsBuilder. rewrite Eext.
    rewrite Hmust, Hwhere. simpl.
    unfold extendedDepth in Hext. unfold getExtendedTypeGenericDepth.
    rewrite Hnom, Hs in *. rewrite Hext. rewrite Z.eqb_refl. reflexivity.
  - intros Hnot Hlayout.
    unfold checkGenericEnvironment.
    rewrite (needsBuilder_true Hwf Hnot). cbv zeta.
    pose proof (checkedLists_None genericParams parentSig) as HN.
    pose proof (checkedLists_calls genericParams parentSig) as HC.
    unfold GenericSignatureBuilder in *.
    destruct (match getOuterParameters genericParams with
              | Some _ => _
              | None => _
              end) as [[builder diags]|].
    + destruct (HC _ _ eq_refl) as (rest & -> & H). eauto.
    + exfalso. destruct HN as [HN _].
      destruct (HN eq_refl) as (l & Hin & Hl). exact (Hlayout l Hin Hl).
  - intros Hnot Hlayout.
    unfold checkGenericEnvironment.
    rewrite (needsBuilder_true Hwf Hnot). cbv zeta.
    apply checkedLists_None in Hlayout.
    unfold GenericSignatureBuilder in *. rewrite Hlayout. reflexivity.
Qed.

End EnvironmentFacts.

Section EnvironmentSamples.
Import Builder GenericEnvironments Samples.

Lemma sample_depths_wellFormed : forall params ext,
  gpDepth (backParam params) = 0%Z ->
  ext = arrayExtension \/ ext = constrainedArrayExtension ->
  wellFormedDepths params (Some ext).
Proof.
  intros params ext Hd Hext. split.
  - rewrite Hd. unfold NO_DEPTH, wrap32, UINT_MODULUS. discriminate.
  - intros e nominal sig Ee En Es. inversion Ee; subst e.
    destruct Hext as [-> | ->]; simpl in En; inversion En; subst nominal;
      simpl in Es; inversion Es; subst sig; discriminate.
Qed.

(** C6, on [Array]: an extension without constraints gets the
    environment of [Array]'s own signature and runs no builder; the
    extension [where Element: Equatable] runs a builder that is given
    the parent signature and [Element]; the extension
    [where Element: AnyObject] has no result. *)
Lemma extension_reuses_signature_witness :
  checkGenericEnvironment sampleCompute extensionParams None false
    (Some arrayExtension) (fun b => b) false
  = Some (mkOutcome (createGenericEnvironment arraySignature) None [])
  /\ (exists calls diags,
      checkGenericEnvironment sampleCompute constrainedExtensionParams None
        false (Some constrainedArrayExtension) (fun b => b) false
      = Some (mkOutcome
                (createGenericEnvironment
                   (sampleCompute (addGenericSignature None :: calls) false))
                (Some (addGenericSignature None :: calls)) diags)
      /\ forall p, In p (getParams constrainedExtensionParams) ->
                   In (addGenericParameter (gpType p)) calls)
  /\ checkGenericEnvironment sampleCompute layoutExtensionParams None
       false (Some constrainedArrayExtension) (fun b => b) false
     = None.
Proof.
  split; [|split].
  - destruct (@extension_reuses_signature sampleCompute extensionParams None
                false (Some arrayExtension) (fun b => b) false
                (@sample_depths_wellFormed extensionParams arrayExtension
                   eq_refl (or_introl eq_refl))) as [H _].
    apply (H arrayExtension (mkNominal (Some arraySignature)) arraySignature);
      try reflexivity.
    exists arrayExtension. repeat split; reflexivity.
  - destruct (@extension_reuses_signature sampleCompute
                constrainedExtensionParams None false
                (Some constrainedArrayExtension) (fun b => b) false
                (@sample_depths_wellFormed constrainedExtensionParams
                   constrainedArrayExtension eq_refl (or_intror eq_refl)))
      as (_ & H & _).
    apply H.
    + intros (e & Ee & Hw & _). inversion Ee; subst e. discriminate.
    + intros l [<-|[]] (e & req & _ & [<-|[]] & Hk). discriminate.
  - destruct (@extension_reuses_signature sampleCompute
                layoutExtensionParams None false
                (Some constrainedArrayExtension) (fun b => b) false
                (@sample_depths_wellFormed layoutExtensionParams
                   constrainedArrayExtension eq_refl (or_intror eq_refl)))
      as (_ & _ & H).
    apply H.
    + intros (e & Ee & Hw & _). inversion Ee; subst e. discriminate.
    + exists layoutExtensionParams. split; [now left|].
      exists arrayExtensionTypes, (LayoutReq (gpType Element) LayoutClass).
      repeat split. now left.
Defined.

End EnvironmentSamples.

(* ================================================================== *)
(** ** Facts about [getOrCreateOpaqueResultType] *)
(* ================================================================== *)

Section OpaqueFacts.
Import Builder OpaqueResult.

Variable getClassOrBoundGenericClass : Ty -> bool.
Variable isExistentialType : Ty -> bool.
Variable getExistentialLayout : Ty -> ExistentialLayout.
Variable computeGenericSignature :
  GenericSignatureBuilder -> bool -> GenericSignaturePtr.

Lemma back_cons : forall (A : Type) (a b : A) l,
  back (a :: b :: l) = back (b :: l).
Proof. reflexivity. Qed.

Lemma back_In : forall (A : Type) (l : list A) x, back l = Some x -> In x l.
Proof.
  intros A l x. induction l as [|a l IH]; [discriminate|].
  destruct l as [|b l].
  - intros E. inversion E. now left.
  - rewrite back_cons. intros E. right. auto.
Qed.

(** In a signature whose parameters come outermost first the last
    parameter is the deepest. *)
Lemma back_deepest : forall params p,
  orderedDepths params -> back params = Some p ->
  gpDepth p = deepestDepth params
  /\ wrap32 (gpDepth p + 1) = (gpDepth p + 1)%Z.
Proof.
  intros params p [Hsorted Hrange] Hback. split.
  - apply Sorted_StronglySorted in Hsorted.
    2:{ intros a b c Hab Hbc. lia. }
    revert p Hback.
    induction params as [|a l IH]; intros p Hback; [discriminate|].
    inversion Hsorted as [|a' l' Hl Hall]; subst.
    inversion Hrange as [|a' l' [Ha0 _] Hr]; subst.
    destruct l as [|b l].
    + inversion Hback; subst. simpl. lia.
    + rewrite back_cons in Hback.
      specialize (IH Hl Hr p Hback).
      change (deepestDepth (a :: b :: l))
        with (Z.max (gpDepth a) (deepestDepth (b :: l))).
      rewrite <- IH.
      pose proof (back_In _ Hback) as Hin.
      rewrite Forall_forall in Hall. specialize (Hall p Hin). lia.
  - apply back_In in Hback. rewrite Forall_forall in Hrange.
    destruct (Hrange p Hback) as [H0 H1].
    unfold wrap32. apply Z.mod_small. lia.
Qed.

Lemma addedParameters_app : forall b1 b2,
  addedParameters (b1 ++ b2) = addedParameters b1 ++ addedParameters b2.
Proof. intros. unfold addedParameters. apply flat_map_app. Qed.

Lemma addedRequirements_app : forall b1 b2,
  addedRequirements (b1 ++ b2) = addedRequirements b1 ++ addedRequirements b2.
Proof. intros. unfold addedRequirements. apply flat_map_app. Qed.

Lemma constraintRequirements_added : forall param bound,
  addedParameters
    (constraintRequirements getClassOrBoundGenericClass getExistentialLayout
                            param bound) = []
  /\ addedRequirements
       (constraintRequirements getClassOrBoundGenericClass
                               getExistentialLayout param bound)
     = boundRequirements (getClassOrBoundGenericClass bound)
                         (getExistentialLayout bound) param bound.
Proof.
  intros param bound. unfold constraintRequirements, boundRequirements.
  destruct (getClassOrBoundGenericClass bound); [split; reflexivity|].
  set (layout := getExistentialLayout bound).
  rewrite !addedParameters_app, !addedRequirements_app.
  assert (Hmap : forall protos,
             addedParameters
               (map (fun protocol =>
                       addRequirement (ConformanceReq param protocol)
                                      forAbstract) protos) = []
             /\ addedRequirements
                  (map (fun protocol =>
                          addRequirement (ConformanceReq param protocol)
                                         forAbstract) protos)
                = map (ConformanceReq param) protos).
  { induction protos as [|q protos [IH1 IH2]]; simpl; [auto|].
    split; [exact IH1|]. now rewrite IH2. }
  destruct (Hmap (getProtocols layout)) as [-> ->].
  destruct (getSuperclass layout), (getLayoutConstraint layout);
    split; reflexivity.
Qed.

(** C7: for a declaration that is no protocol requirement and has no
    opaque type declaration yet, whose constraint resolves to a class or
    existential type, the function gives the builder exactly one generic
    parameter, at index 0 and at the depth after the deepest parameter
    of the enclosing signature (depth 0 without enclosing signature),
    and the requirements of the bound: the class as superclass, or the
    superclass, every protocol and the layout constraint of the
    existential type.  The signature the builder computes is recorded on
    a new opaque type declaration, together with the parameter. *)
Theorem opaque_result_signature : forall d,
  inProtocol d && isProtocolRequirement d = false ->
  getOpaqueResultTypeDecl d = None ->
  validationError d = false ->
  getClassOrBoundGenericClass (constraintType d) = true
  \/ isExistentialType (constraintType d) = true ->
  (forall sig, getGenericSignatureOfContext d = Some sig ->
               getGenericParams (pointee sig) <> []
               /\ orderedDepths (getGenericParams (pointee sig))) ->
  exists builder opaqueDecl diags,
    getOrCreateOpaqueResultType getClassOrBoundGenericClass isExistentialType
      getExistentialLayout computeGenericSignature d
    = Some (mkOutcome
              (OpaqueTypeArchetypeType opaqueDecl
                                       (getGenericSignatureOfContext d))
              diags (Some builder) (Some opaqueDecl))
    /\ let depth :=
         match getGenericSignatureOfContext d with
         | None => 0%Z
         | Some sig => (deepestDepth (getGenericParams (pointee sig)) + 1)%Z
         end in
       addedParameters builder = [GenericTypeParamType depth 0]
       /\ getUnderlyingInterfaceType opaqueDecl = GenericTypeParamType depth 0
       /\ addedRequirements builder
          = boundRequirements
              (getClassOrBoundGenericClass (constraintType d))
              (getExistentialLayout (constraintType d))
              (GenericTypeParamType depth 0) (constraintType d)
       /\ getOpaqueInterfaceGenericSignature opaqueDecl
          = computeGenericSignature builder false.
Proof.
  intros d Hproto Hdecl Hvalid Hbound Hsig.
  unfold getOrCreateOpaqueResultType.
  rewrite Hproto, Hdecl, Hvalid.
  assert (Hok : negb (getClassOrBoundGenericClass (constraintType d))
                && negb (isExistentialType (constraintType d)) = false).
  { destruct Hbound as [-> | ->]; [reflexivity|apply andb_false_r]. }
  rewrite Hok.
  destruct (constraintRequirements_added
              (GenericTypeParamType
                 match getGenericSignatureOfContext d with
                 | None => 0%Z
                 | Some sig =>
                     (deepestDepth (getGenericParams (pointee sig)) + 1)%Z
                 end 0) (constraintType d)) as [Hp Hr].
  destruct (getGenericSignatureOfContext d) as [sig|] eqn:Eouter.
  - destruct (Hsig sig eq_refl) as [Hne Hord].
    destruct (back_Some Hne) as [p Hp0].
    destruct (back_deepest Hord Hp0) as [Hdeep Hwrap].
    unfold returnTypeDepth. rewrite Hp0, Hwrap, Hdeep.
    do 3 eexists. split; [reflexivity|]. cbv zeta.
    rewrite !addedParameters_app, !addedRequirements_app, Hp, Hr.
    repeat split; reflexivity.
  - unfold returnTypeDepth.
    do 3 eexists. split; [reflexivity|]. cbv zeta.
    rewrite !addedParameters_app, !addedRequirements_app, Hp, Hr.
    repeat split; reflexivity.
Qed.

End OpaqueFacts.

Section OpaqueSamples.
Import Builder OpaqueResult Samples.

(** C7, on [make] inside [Array]: the parameter is at depth 1, index 0,
    with the superclass, the protocol and the class layout of the
    bound. *)
Lemma opaque_result_signature_witness :
  exists builder opaqueDecl diags,
    getOrCreateOpaqueResultType (fun _ => false)
      (fun t => isEqual t shapeBound) (fun _ => shapeLayout) sampleCompute
      makeDecl
    = Some (mkOutcome
              (OpaqueTypeArchetypeType opaqueDecl (Some arraySignature))
              diags (Some builder) (Some opaqueDecl))
    /\ addedParameters builder = [GenericTypeParamType 1 0]
    /\ getUnderlyingInterfaceType opaqueDecl = GenericTypeParamType 1 0
    /\ addedRequirements builder
       = [SuperclassReq (GenericTypeParamType 1 0) (NominalType "Base" []);
          ConformanceReq (GenericTypeParamType 1 0) "Shape";
          LayoutReq (GenericTypeParamType 1 0) LayoutClass]
    /\ getOpaqueInterfaceGenericSignature opaqueDecl
       = sampleCompute builder false.
Proof.
  apply (@opaque_result_signature (fun _ => false)
           (fun t => isEqual t shapeBound) (fun _ => shapeLayout)
           sampleCompute makeDecl eq_refl eq_refl eq_refl
           (or_intror eq_refl)).
  intros sig E. inversion E; subst sig. split; [discriminate|].
  split.
  - repeat constructor.
  - repeat constructor; simpl; unfold UINT_MODULUS; lia.
Defined.

End OpaqueSamples.

(* ================================================================== *)
(** ** More about [checkGenericArguments]: verdicts and events *)
(* ================================================================== *)

Module ArgumentEvents.
Import GenericArguments.

(** An event is a diagnostic, or a report to the listener. *)
Definition isDiagnostic (e : Event) : bool :=
  match e with
  | SatisfiedConformance _ _ _ => false
  | _ => true
  end.

Definition isConformanceReq (r : Requirement) : bool :=
  match r with ConformanceReq _ _ => true | _ => false end.

Section Reports.
Variable tc : TypeCheckerOps.
Variable listener : option GenericRequirementsCheckListener.

(** A report of a conformance that satisfies one of [reqs], a list of
    requirements of the top level. *)
Definition TopLevelReport (reqs : list Requirement) (e : Event) : Prop :=
  exists r s p c,
    In r reqs
    /\ Requirement_subst tc r = Some (ConformanceReq s p)
    /\ conformsToProtocol tc (intoContext tc s) p = Some c
    /\ e = SatisfiedConformance (getFirstType r) (intoContext tc s) c
    /\ listener <> None.

(** A requirement is violated: in [reqs], or in the conditional
    requirements of a conformance that satisfies one of them, and so
    on. *)
Inductive ViolationIn (parents : list ParentConditionalConformance)
  : list Requirement -> Prop :=
| Violation_here : forall r rs f s d n,
    RequirementTrees.read tc listener parents r
    = RequirementTrees.Violated f s d n ->
    ViolationIn parents (r :: rs)
| Violation_below : forall r rs firstType proto conformance,
    RequirementTrees.read tc listener parents r
    = RequirementTrees.SatisfiedConformanceWith firstType proto conformance ->
    ViolationIn (parents ++ [mkParent firstType proto])
                (getConditionalRequirements conformance) ->
    ViolationIn parents (r :: rs)
| Violation_later : forall r rs,
    ViolationIn parents rs -> ViolationIn parents (r :: rs).

(** No conformance the lookup returns has conditional requirements. *)
Definition unconditional : Prop :=
  forall t p c,
    conformsToProtocol tc t p = Some c -> getConditionalRequirements c = [].

End Reports.

(** A call site where [Int] conforms to [Equatable] and nothing else
    conforms to anything. *)
Definition plainOps : TypeCheckerOps :=
  mkOps (fun t => Some t) (fun _ => None)
        (fun t p =>
           if isEqual t (NominalType "Int" []) && String.eqb p "Equatable"
           then Some (mkConformance (NominalType "Int" []) "Equatable" [])
           else None)
        (fun t => t) (fun _ _ => false) (fun _ => false)
        (fun _ => EmptyString).

End ArgumentEvents.

Section CheckerVerdicts.
Import GenericArguments RequirementTrees ArgumentEvents.

Variable tc : TypeCheckerOps.
Variable loc noteLoc : SourceLoc.
Variable owner : Ty.
Variable genericParams : list GenericParam.
Variable listener : option GenericRequirementsCheckListener.

Local Abbreviation checkRequirement :=
  (checkRequirement tc loc noteLoc owner genericParams listener).
Local Abbreviation checkRequirements :=
  (checkRequirements tc loc noteLoc owner genericParams listener).
Local Abbreviation checkPending :=
  (checkPending tc loc noteLoc owner genericParams listener).
Local Abbreviation checkGenericArguments :=
  (checkGenericArguments tc loc noteLoc owner genericParams listener).
Local Abbreviation act := (act tc loc noteLoc owner genericParams listener).
Local Abbreviation drain := (drain tc loc noteLoc owner genericParams listener).
Local Abbreviation read := (read tc listener).
Local Abbreviation substituted := (substituted tc).
Local Abbreviation Passes := (Passes tc listener).
Local Abbreviation TopLevelReport := (TopLevelReport tc listener).

(** The verdict of a call that does not fail, from the tree of its
    requirements, and back. *)
Lemma returns_Passes : forall reqs res ev fuel,
  checkGenericArguments fuel reqs = Some (res, ev) ->
  res <> Failure ->
  exists b, Passes [] reqs b
            /\ res = if b then SubstitutionFailure else Success.
Proof.
  intros reqs res ev fuel E Hres.
  unfold GenericArguments.checkGenericArguments in E.
  rewrite checkPending_drain in E.
  destruct (RequirementTrees.drain _ _ _ _ _ _ fuel _)
    as [[st'|r st']|] eqn:Ed; simpl in E; inversion E; subst.
  - apply drain_Next_Passes in Ed as (b & HA & Hv). simpl in HA, Hv.
    apply PassesAll_single_inv in HA. simpl in HA.
    exists b. split; [assumption|]. rewrite Hv. destruct b; reflexivity.
  - apply drain_Return_Failure in Ed. contradiction.
Qed.

Lemma Passes_returns : forall reqs b,
  Passes [] reqs b ->
  exists fuel ev,
    checkGenericArguments fuel reqs
    = Some (if b then SubstitutionFailure else Success, ev).
Proof.
  intros reqs b H.
  destruct (Passes_drain loc noteLoc owner genericParams H
                         (mkState true [] []))
    as (pushed & bs & bp & st1 & E & Hp & Hv & Hb & Hd).
  simpl in Hp, Hv. rewrite app_nil_r in Hp.
  destruct (Hd (valid st1) (events st1)) as (fuel & st2 & Ed & Hv2).
  exists (S fuel), (events st2).
  unfold GenericArguments.checkGenericArguments.
  rewrite checkPending_drain, drain_step. simpl. rewrite E.
  destruct st1 as [v1 p1 e1]. simpl in *. subst p1. rewrite Ed. simpl.
  rewrite Hv2, Hv, Hb. destruct bs, bp; reflexivity.
Qed.

(** A call that returns, returns the same with any other fuel that lets
    it return. *)
Lemma drain_agree : forall fuel fuel' st f f',
  drain fuel st = Some f -> drain fuel' st = Some f' -> f = f'.
Proof.
  intros fuel fuel' st f f' E E'.
  eapply drain_more with (k := fuel') in E.
  eapply drain_more with (k := fuel) in E'.
  rewrite Nat.add_comm in E'. congruence.
Qed.

Lemma checkGenericArguments_agree : forall fuel fuel' reqs x y,
  checkGenericArguments fuel reqs = Some x ->
  checkGenericArguments fuel' reqs = Some y -> x = y.
Proof.
  unfold GenericArguments.checkGenericArguments.
  intros fuel fuel' reqs x y. rewrite !checkPending_drain.
  destruct (RequirementTrees.drain _ _ _ _ _ _ fuel _) as [f|] eqn:E;
    [|discriminate].
  destruct (RequirementTrees.drain _ _ _ _ _ _ fuel' _) as [f'|] eqn:E';
    [|discriminate].
  rewrite (drain_agree _ _ _ E E'). simpl. congruence.
Qed.

(** Requirement trees of concatenated and of reordered lists. *)
Lemma Passes_app : forall ps l1 l2 b1 b2,
  Passes ps l1 b1 -> Passes ps l2 b2 -> Passes ps (l1 ++ l2) (b1 || b2).
Proof.
  intros ps l1 l2 b1 b2 H1 H2. induction H1; simpl.
  - exact H2.
  - eapply Passes_substitutionFailed; eauto.
  - apply Passes_notChecked; auto.
  - apply Passes_satisfied; auto.
  - eapply Passes_cast.
    + eapply Passes_conformance; eauto.
    + now rewrite orb_assoc.
Qed.

Lemma Passes_app_inv : forall ps l1 l2 b,
  Passes ps (l1 ++ l2) b ->
  exists b1 b2, Passes ps l1 b1 /\ Passes ps l2 b2 /\ b = b1 || b2.
Proof.
  intros ps l1 l2. induction l1 as [|r l1 IH]; simpl; intros b H.
  - exists false, b. repeat split; [constructor|assumption].
  - inversion H as [|r0 rs0 b0 Hr Hrest|r0 rs0 b0 Hr Hrest
                    |r0 rs0 b0 Hr Hrest
                    |r0 rs0 f p c b01 b02 Hr Hc Hrest]; subst.
    + destruct (IH _ Hrest) as (b1 & b2 & P1 & P2 & ->).
      exists true, b2. repeat split; auto.
      eapply Passes_substitutionFailed; eauto.
    + destruct (IH _ Hrest) as (b1 & b2 & P1 & P2 & ->).
      exists b1, b2. repeat split; auto. apply Passes_notChecked; auto.
    + destruct (IH _ Hrest) as (b1 & b2 & P1 & P2 & ->).
      exists b1, b2. repeat split; auto. apply Passes_satisfied; auto.
    + destruct (IH _ Hrest) as (b1 & b2 & P1 & P2 & ->).
      exists (b01 || b1), b2. repeat split; auto.
      * eapply Passes_conformance; eauto.
      * now rewrite orb_assoc.
Qed.

Lemma Passes_Permutation : forall ps l l',
  Permutation l l' -> forall b, Passes ps l b -> Passes ps l' b.
Proof.
  intros ps l l' HP. induction HP; intros b H.
  - exact H.
  - change (x :: l) with ([x] ++ l) in H.
    apply Passes_app_inv in H as (b1 & b2 & P1 & P2 & ->).
    change (x :: l') with ([x] ++ l'). apply Passes_app; auto.
  - change (y :: x :: l) with ([y] ++ [x] ++ l) in H.
    apply Passes_app_inv in H as (b1 & b2 & P1 & P2 & ->).
    apply Passes_app_inv in P2 as (b3 & b4 & P3 & P4 & ->).
    change (x :: y :: l) with ([x] ++ [y] ++ l).
    eapply Passes_cast.
    + apply Passes_app; [exact P3|]. apply Passes_app; [exact P1|exact P4].
    + destruct b1, b3, b4; reflexivity.
  - auto.
Qed.

(** What one reading tells about the requirement. *)
Lemma read_conformance_inv : forall ps r f p c,
  read ps r = SatisfiedConformanceWith f p c ->
  exists s, substituted ps r = Some (ConformanceReq s p)
            /\ f = intoContext tc s
            /\ conformsToProtocol tc f p = Some c.
Proof.
  intros ps r f p c. unfold RequirementTrees.read.
  destruct (substituted ps r) as [req|]; [|discriminate].
  destruct (carriesError tc req); [discriminate|].
  destruct (listenerSkips _ _ _ _); [discriminate|].
  unfold checkKind, firstTypeOf.
  destruct req as [s q|s t|s t|s l]; simpl.
  - destruct (conformsToProtocol tc (intoContext tc s) q) as [c'|] eqn:Ec;
      intros E; inversion E; subst. exists s. auto.
  - destruct (negb _); discriminate.
  - destruct (negb _); discriminate.
  - destruct (_ && _); discriminate.
Qed.

Lemma diagnosticsOf_diagnostics : forall ps r f s d n,
  forallb isDiagnostic
          (diagnosticsOf tc loc noteLoc owner genericParams ps r f s d n)
  = true.
Proof.
  intros. unfold diagnosticsOf, diagnoseConformanceStack. simpl.
  induction (rev ps); simpl; auto.
Qed.

(** The events one iteration of the loop adds. *)
Lemma act_events : forall ps r st,
  match act ps r (read ps r) st with
  | Next st' =>
      exists new,
        events st' = events st ++ new
        /\ List.length new <= (if isConformanceReq r then 1 else 0)
        /\ Forall (fun e => ps = [] /\ TopLevelReport [r] e) new
        /\ (forallb isNested (pendingReqs st) = true ->
            forallb isNested (pendingReqs st') = true)
  | Return res st' =>
      exists diags,
        events st' = events st ++ diags
        /\ res = Failure
        /\ (diags = []
            \/ isValid loc = true /\ forallb isDiagnostic diags = true)
  end.
Proof.
  intros ps r st.
  destruct (read ps r) as [| | |f p c|f s d n] eqn:Er.
  - exists []. simpl. rewrite app_nil_r. repeat split; auto. lia.
  - exists []. simpl. rewrite app_nil_r. repeat split; auto. lia.
  - exists []. simpl. rewrite app_nil_r. repeat split; auto. lia.
  - destruct (read_conformance_inv _ _ Er) as (s & Hs & Hf & Hc).
    assert (Hk : isConformanceReq r = true).
    { pose proof (getKind_substituted _ _ _ Hs) as Hk. simpl in Hk.
      destruct r; simpl in *; congruence. }
    unfold RequirementTrees.act.
    set (st1 := match listener with
                | Some _ => if valid st && isEmpty ps
                            then emit _ st else st
                | None => st end).
    assert (H1 : exists new,
               events st1 = events st ++ new
               /\ List.length new <= 1
               /\ Forall (fun e => ps = [] /\ TopLevelReport [r] e) new
               /\ pendingReqs st1 = pendingReqs st).
    { subst st1. destruct listener as [l|] eqn:El.
      - destruct (valid st && isEmpty ps) eqn:Ev.
        + exists [SatisfiedConformance (getFirstType r) f c].
          repeat split; simpl; auto.
          constructor; [|constructor].
          apply andb_prop in Ev as [_ Ev]. destruct ps; [|discriminate].
          split; [reflexivity|].
          exists r, s, p, c. subst f.
          repeat split; simpl; auto; try discriminate.
        + exists []. rewrite app_nil_r. repeat split; simpl; auto.
      - exists []. rewrite app_nil_r. repeat split; simpl; auto. }
    destruct H1 as (new & He & Hl & HF & Hp).
    rewrite Hk.
    destruct (negb (isEmpty (getConditionalRequirements c))).
    + exists new. repeat split; auto.
      simpl. rewrite Hp. intros ->. rewrite andb_true_r.
      unfold isNested, conditionalSet. simpl. destruct ps; reflexivity.
    + exists new. repeat split; auto. rewrite Hp. auto.
  - rewrite act_Violated.
    exists (failureEvents tc loc noteLoc owner genericParams listener
                          ps r f s d n).
    repeat split.
    unfold failureEvents.
    destruct (getKind r), ps; auto;
      destruct (listenerDiagnoses _ _ _ _ _); auto;
      destruct (isValid loc); auto;
      right; split; auto; apply diagnosticsOf_diagnostics.
Qed.

Lemma TopLevelReport_incl : forall l l' e,
  (forall r, In r l -> In r l') -> TopLevelReport l e -> TopLevelReport l' e.
Proof.
  intros l l' e Hi (r & s & p & c & Hr & H). exists r, s, p, c. split; auto.
Qed.

(** The events the loop over one requirement set adds. *)
Lemma checkRequirements_events : forall ps rs st,
  match checkRequirements ps rs st with
  | Next st' =>
      exists new,
        events st' = events st ++ new
        /\ List.length new <= List.length (filter isConformanceReq rs)
        /\ Forall (fun e => ps = [] /\ TopLevelReport rs e) new
        /\ (forallb isNested (pendingReqs st) = true ->
            forallb isNested (pendingReqs st') = true)
  | Return res st' =>
      exists new diags,
        events st' = events st ++ new ++ diags
        /\ List.length new <= List.length (filter isConformanceReq rs)
        /\ Forall (fun e => ps = [] /\ TopLevelReport rs e) new
        /\ res = Failure
        /\ (diags = []
            \/ isValid loc = true /\ forallb isDiagnostic diags = true)
  end.
Proof.
  intros ps rs. induction rs as [|r rs IH]; intros st.
  - simpl. exists []. rewrite app_nil_r. repeat split; auto.
  - simpl. rewrite checkRequirement_read.
    pose proof (act_events ps r st) as Ha.
    destruct (act ps r (read ps r) st) as [st1|res st1].
    + destruct Ha as (new1 & He1 & Hl1 & HF1 & Hn1).
      assert (HF1' : Forall (fun e => ps = [] /\ TopLevelReport (r :: rs) e)
                            new1).
      { eapply Forall_impl; [|exact HF1]. intros e [Hps He]. split; auto.
        eapply TopLevelReport_incl; [|exact He]. intros x [->|[]]. now left. }
      assert (Hlen : forall new2 : list Event,
                 List.length new2 <= List.length (filter isConformanceReq rs) ->
                 List.length (new1 ++ new2)
                 <= List.length (filter isConformanceReq (r :: rs))).
      { intros new2 H2. rewrite length_app. simpl.
        destruct (isConformanceReq r); simpl; lia. }
      specialize (IH st1).
      destruct (checkRequirements ps rs st1) as [st2|res st2].
      * destruct IH as (new2 & He2 & Hl2 & HF2 & Hn2).
        exists (new1 ++ new2). repeat split; auto.
        -- rewrite He2, He1, app_assoc. reflexivity.
        -- apply Forall_app. split; auto.
           eapply Forall_impl; [|exact HF2]. intros e [Hps He]. split; auto.
           eapply TopLevelReport_incl; [|exact He]. intros x Hx. now right.
      * destruct IH as (new2 & diags & He2 & Hl2 & HF2 & Hres & Hd).
        exists (new1 ++ new2), diags. repeat split; auto.
        -- rewrite He2, He1, !app_assoc. reflexivity.
        -- apply Forall_app. split; auto.
           eapply Forall_impl; [|exact HF2]. intros e [Hps He]. split; auto.
           eapply TopLevelReport_incl; [|exact He]. intros x Hx. now right.
    + destruct Ha as (diags & He & Hres & Hd).
      exists [], diags. repeat split; simpl; auto. lia.
Qed.

(** Below the top level the loop reports nothing to the listener. *)
Lemma drain_events : forall fuel st f,
  drain fuel st = Some f ->
  forallb isNested (pendingReqs st) = true ->
  match f with
  | Next st' => events st' = events st
  | Return res st' =>
      exists diags,
        events st' = events st ++ diags
        /\ res = Failure
        /\ (diags = []
            \/ isValid loc = true /\ forallb isDiagnostic diags = true)
  end.
Proof.
  induction fuel as [|fuel IH]; intros st f E Hn.
  - simpl in E. destruct (pendingReqs st); [|discriminate].
    inversion E; subst. reflexivity.
  - destruct st as [v pending ev]. destruct pending as [|cur rest].
    + simpl in E. inversion E; subst. reflexivity.
    + rewrite drain_step in E. simpl in Hn.
      apply andb_prop in Hn as [Hcur Hrest].
      pose proof (checkRequirements_events (Parents cur) (Requirements cur)
                                           (mkState v rest ev)) as Hc.
      assert (Hnil : forall new : list Event,
                 Forall (fun e => Parents cur = []
                                  /\ TopLevelReport (Requirements cur) e) new ->
                 new = []).
      { intros new HF. destruct new as [|e new]; [reflexivity|].
        inversion HF as [|? ? [Hps _] _]; subst.
        unfold isNested in Hcur. rewrite Hps in Hcur. discriminate. }
      destruct (checkRequirements (Parents cur) (Requirements cur)
                                  (mkState v rest ev)) as [st1|res st1].
      * destruct Hc as (new & He & _ & HF & Hn1). simpl in He, Hn1.
        rewrite (Hnil _ HF), app_nil_r in He.
        specialize (IH _ _ E (Hn1 Hrest)).
        destruct f as [st'|res st'].
        -- simpl. congruence.
        -- destruct IH as (diags & He' & Hres & Hd).
           exists diags. simpl. rewrite He', He. auto.
      * inversion E; subst.
        destruct Hc as (new & diags & He & _ & HF & Hres & Hd).
        simpl in He. rewrite (Hnil _ HF) in He. simpl in He.
        exists diags. auto.
Qed.

(** The events of a call: reports of conformances that satisfy
    requirements of the top level, then the diagnostics of the
    requirement that made it fail. *)
Lemma events_structure : forall fuel reqs res ev,
  checkGenericArguments fuel reqs = Some (res, ev) ->
  exists reports diags,
    ev = reports ++ diags
    /\ List.length reports <= List.length (filter isConformanceReq reqs)
    /\ Forall (TopLevelReport reqs) reports
    /\ (diags = []
        \/ res = Failure /\ isValid loc = true
           /\ forallb isDiagnostic diags = true).
Proof.
  intros fuel reqs res ev.
  unfold GenericArguments.checkGenericArguments.
  rewrite checkPending_drain.
  destruct fuel as [|fuel]; [discriminate|].
  rewrite drain_step. simpl.
  pose proof (checkRequirements_events [] reqs (mkState true [] [])) as Hc.
  destruct (checkRequirements [] reqs (mkState true [] [])) as [st1|r st1].
  - destruct Hc as (new & He & Hl & HF & Hn). simpl in He.
    destruct (RequirementTrees.drain _ _ _ _ _ _ fuel st1) as [f|] eqn:Ed;
      [|discriminate].
    pose proof (drain_events _ _ Ed (Hn eq_refl)) as Hd.
    simpl. intros E.
    assert (HF' : Forall (TopLevelReport reqs) new).
    { eapply Forall_impl; [|exact HF]. intros e [_ H]. exact H. }
    destruct f as [st'|r st']; simpl in E; injection E as E1 E2;
      subst res ev.
    + exists new, []. rewrite app_nil_r. repeat split; auto. congruence.
    + destruct Hd as (diags & He' & Hres & Hdg).
      exists new, diags. repeat split; auto.
      * congruence.
      * destruct Hdg as [->|[Hv Hall]]; auto.
  - destruct Hc as (new & diags & He & Hl & HF & Hres & Hd).
    simpl. intros E. injection E as E1 E2. subst res ev. simpl in He.
    exists new, diags. repeat split; auto.
    + eapply Forall_impl; [|exact HF]. intros e [_ H]. exact H.
    + destruct Hd as [->|[Hv Hall]]; auto.
Qed.

(** X1: a diagnostic is emitted only by a call that returns [Failure],
    and only at a valid location: a call that returns [Success] or
    [SubstitutionFailure], or that was given no valid location, hands
    nothing to the diagnostic engine. *)
Theorem diagnostics_need_failure_and_location :
  forall fuel reqs res ev,
    checkGenericArguments fuel reqs = Some (res, ev) ->
    existsb isDiagnostic ev = true ->
    res = Failure /\ isValid loc = true.
Proof.
  intros fuel reqs res ev E Hex.
  destruct (events_structure _ _ E) as (reports & diags & -> & _ & HF & Hd).
  destruct Hd as [->|(Hres & Hv & _)]; [|auto].
  rewrite app_nil_r in Hex. exfalso.
  apply existsb_exists in Hex as (e & Hin & He).
  rewrite Forall_forall in HF.
  destruct (HF _ Hin) as (r & s & p & c & _ & _ & _ & -> & _).
  discriminate.
Qed.

(** X2: the listener hears of a satisfied conformance only for a
    conformance requirement of the top level, with the substituted
    subject type and the conformance that was looked up; the
    conformances that satisfy conditional requirements are not reported,
    so there are at most as many reports as conformance requirements in
    the list. *)
Theorem listener_hears_top_level_conformances_only :
  forall fuel reqs res ev,
    checkGenericArguments fuel reqs = Some (res, ev) ->
    (forall depTy replacementTy conformance,
        In (SatisfiedConformance depTy replacementTy conformance) ev ->
        listener <> None
        /\ exists r s p,
            In r reqs /\ getFirstType r = depTy
            /\ Requirement_subst tc r = Some (ConformanceReq s p)
            /\ replacementTy = intoContext tc s
            /\ conformsToProtocol tc replacementTy p = Some conformance)
    /\ List.length (filter (fun e => negb (isDiagnostic e)) ev)
       <= List.length (filter isConformanceReq reqs).
Proof.
  intros fuel reqs res ev E.
  destruct (events_structure _ _ E) as (reports & diags & -> & Hl & HF & Hd).
  assert (Hdiags : forallb isDiagnostic diags = true).
  { destruct Hd as [->|(_ & _ & H)]; auto. }
  rewrite Forall_forall in HF. rewrite forallb_forall in Hdiags.
  split.
  - intros depTy replacementTy conformance Hin.
    apply in_app_or in Hin as [Hin|Hin].
    + destruct (HF _ Hin) as (r & s & p & c & Hr & Hs & Hc & He & Hls).
      inversion He; subst. split; auto. exists r, s, p. auto.
    + apply Hdiags in Hin. discriminate.
  - rewrite filter_app, length_app.
    assert (H0 : filter (fun e => negb (isDiagnostic e)) diags = []).
    { clear - Hdiags. induction diags as [|e l IH]; simpl; auto.
      rewrite (Hdiags e (or_introl eq_refl)). simpl.
      apply IH. intros x Hx. apply Hdiags. now right. }
    rewrite H0. simpl. rewrite Nat.add_0_r.
    etransitivity; [apply filter_length_le|exact Hl].
Qed.

(** X3: a violated superclass, same-type or layout requirement of the
    top level is diagnosed (unlike a conformance requirement of the top
    level): with a valid location, and unless the listener says it
    diagnosed the requirement, the call returns [Failure] after the
    primary diagnostic and one note, without notes about a parent
    chain; the requirements after it are not looked at. *)
Theorem top_level_violation_is_diagnosed :
  forall fuel pre r rest st1 f s d n,
    checkRequirements [] pre (mkState true [] []) = Next st1 ->
    read [] r = Violated f s d n ->
    getKind r <> Conformance ->
    checkGenericArguments (S fuel) (pre ++ r :: rest)
    = Some (Failure,
            events st1
            ++ if listenerDiagnoses listener r f s [] then []
               else if isValid loc
                    then [Diagnose loc d owner f s;
                          DiagnoseNote noteLoc n (getFirstType r)
                            (getSecondType r)
                            (if isEmpty genericParams then EmptyString
                             else gatherGenericParamBindingsText tc
                                    [Some (getFirstType r); getSecondType r]
                                    genericParams)]
                    else []).
Proof.
  intros fuel pre r rest st1 f s d n Hpre Hr Hk.
  unfold GenericArguments.checkGenericArguments.
  rewrite (@violated_returns tc loc noteLoc owner genericParams listener
             fuel [] pre r rest [] true [] st1 f s d n Hpre Hr).
  unfold failureEvents, diagnosticsOf, diagnoseConformanceStack.
  destruct (getKind r); try congruence; reflexivity.
Qed.

(** X4: the verdict does not depend on the order of the requirements:
    when a call returns, every call on a reordered list that returns
    gives the same result (the events may differ), and when the result
    is not [Failure] the call on the reordered list does return. *)
Theorem verdict_is_order_independent :
  forall reqs reqs' fuel res ev,
    Permutation reqs reqs' ->
    checkGenericArguments fuel reqs = Some (res, ev) ->
    (forall fuel' res' ev',
        checkGenericArguments fuel' reqs' = Some (res', ev') -> res' = res)
    /\ (res <> Failure ->
        exists fuel' ev',
          checkGenericArguments fuel' reqs' = Some (res, ev')).
Proof.
  intros reqs reqs' fuel res ev HP E.
  assert (Hmove : forall l l' k r e,
             Permutation l l' ->
             checkGenericArguments k l = Some (r, e) -> r <> Failure ->
             exists k' e', checkGenericArguments k' l' = Some (r, e')).
  { intros l l' k r e Hp Hrun Hr.
    destruct (returns_Passes _ _ Hrun Hr) as (b & Hb & ->).
    apply (Passes_Permutation Hp) in Hb. apply (Passes_returns Hb). }
  split.
  - intros fuel' res' ev' E'.
    destruct res.
    + destruct (Hmove _ _ _ _ _ HP E) as (k & e & Ek); [discriminate|].
      pose proof (checkGenericArguments_agree _ _ _ E' Ek). congruence.
    + destruct res'; auto.
      * destruct (Hmove _ _ _ _ _ (Permutation_sym HP) E') as (k & e & Ek);
          [discriminate|].
        pose proof (checkGenericArguments_agree _ _ _ E Ek). congruence.
      * destruct (Hmove _ _ _ _ _ (Permutation_sym HP) E') as (k & e & Ek);
          [discriminate|].
        pose proof (checkGenericArguments_agree _ _ _ E Ek). congruence.
    + destruct (Hmove _ _ _ _ _ HP E) as (k & e & Ek); [discriminate|].
      pose proof (checkGenericArguments_agree _ _ _ E' Ek). congruence.
  - intros Hr. apply (Hmove _ _ _ _ _ HP E Hr).
Qed.

(** X5: checking two lists of requirements at once succeeds exactly when
    checking each of them succeeds, and returns without [Failure]
    exactly when each of them does. *)
Theorem concatenated_requirements :
  forall reqs1 reqs2,
    ((exists fuel ev,
         checkGenericArguments fuel (reqs1 ++ reqs2) = Some (Success, ev))
     <-> (exists fuel ev,
             checkGenericArguments fuel reqs1 = Some (Success, ev))
         /\ (exists fuel ev,
                checkGenericArguments fuel reqs2 = Some (Success, ev)))
    /\ ((exists fuel res ev,
            checkGenericArguments fuel (reqs1 ++ reqs2) = Some (res, ev)
            /\ res <> Failure)
        <-> (exists fuel res ev,
                checkGenericArguments fuel reqs1 = Some (res, ev)
                /\ res <> Failure)
            /\ (exists fuel res ev,
                   checkGenericArguments fuel reqs2 = Some (res, ev)
                   /\ res <> Failure)).
Proof.
  intros reqs1 reqs2.
  assert (Hs : forall l,
             (exists fuel ev,
                 checkGenericArguments fuel l = Some (Success, ev))
             <-> Passes [] l false).
  { intros l. split.
    - intros (fuel & ev & E).
      destruct (returns_Passes _ _ E) as (b & Hb & Hres); [discriminate|].
      destruct b; [discriminate|exact Hb].
    - intros H. apply (Passes_returns H). }
  assert (Hn : forall l,
             (exists fuel res ev,
                 checkGenericArguments fuel l = Some (res, ev)
                 /\ res <> Failure)
             <-> exists b, Passes [] l b).
  { intros l. split.
    - intros (fuel & res & ev & E & Hr).
      destruct (returns_Passes _ _ E Hr) as (b & Hb & _). eauto.
    - intros (b & H). destruct (Passes_returns H) as (fuel & ev & E).
      exists fuel, (if b then SubstitutionFailure else Success), ev.
      split; [exact E|]. destruct b; discriminate. }
  split.
  - rewrite !Hs. split.
    + intros H. apply Passes_app_inv in H as (b1 & b2 & H1 & H2 & Hb).
      symmetry in Hb. apply orb_false_elim in Hb as [-> ->]. auto.
    + intros [H1 H2]. apply (Passes_app H1 H2).
  - rewrite !Hn. split.
    + intros (b & H). apply Passes_app_inv in H as (b1 & b2 & H1 & H2 & _).
      eauto.
    + intros [(b1 & H1) (b2 & H2)]. exists (b1 || b2).
      apply (Passes_app H1 H2).
Qed.

Lemma Passes_no_violation : forall ps rs b,
  Passes ps rs b -> ~ ViolationIn tc listener ps rs.
Proof.
  intros ps rs b H. induction H; intros HV;
    inversion HV as [r0 rs0 f0 s0 d0 n0 Hr|r0 rs0 f0 p0 c0 Hr Hbelow
                     |r0 rs0 Hlater]; subst;
    try congruence; try (now apply IHPasses).
Qed.

(** X19: a violated requirement is never overlooked: when a requirement
    of the list, or a conditional requirement reached from it, is
    violated, every call that returns returns [Failure], whatever comes
    before or after the requirement and whatever substitution failures
    occur. *)
Theorem violated_requirement_is_never_overlooked :
  forall reqs fuel res ev,
    ViolationIn tc listener [] reqs ->
    checkGenericArguments fuel reqs = Some (res, ev) ->
    res = Failure.
Proof.
  intros reqs fuel res ev HV E.
  destruct res; auto.
  - destruct (returns_Passes _ _ E) as (b & Hb & _); [discriminate|].
    exfalso. exact (Passes_no_violation Hb HV).
  - destruct (returns_Passes _ _ E) as (b & Hb & _); [discriminate|].
    exfalso. exact (Passes_no_violation Hb HV).
Qed.

Lemma checkRequirements_unconditional : forall ps rs st,
  unconditional tc ->
  match checkRequirements ps rs st with
  | Next st' => pendingReqs st' = pendingReqs st
  | Return _ _ => True
  end.
Proof.
  intros ps rs st Hu. revert st.
  induction rs as [|r rs IH]; intros st; simpl; [reflexivity|].
  rewrite checkRequirement_read.
  destruct (read ps r) as [| | |f p c|f s d n] eqn:Er.
  - simpl. specialize (IH (setInvalid st)).
    destruct (checkRequirements ps rs (setInvalid st)); auto.
  - simpl. apply IH.
  - simpl. apply IH.
  - destruct (read_conformance_inv _ _ Er) as (s & _ & _ & Hc).
    unfold RequirementTrees.act. rewrite (Hu _ _ _ Hc). simpl.
    match goal with
    | |- match checkRequirements ps rs ?st1 with _ => _ end =>
        specialize (IH st1);
        assert (Hp : pendingReqs st1 = pendingReqs st)
          by (destruct listener;
              [destruct (valid st && isEmpty ps)|]; reflexivity);
        destruct (checkRequirements ps rs st1); auto; congruence
    end.
  - destruct (act_Violated_Return tc loc noteLoc owner genericParams
                                  listener ps r f s d n st) as [st2 ->].
    exact I.
Qed.

(** X20: when no conformance has conditional requirements the work-list
    never grows: the call returns after the one pass over the
    requirements it was given. *)
Theorem no_conditional_requirements_one_pass :
  unconditional tc ->
  forall reqs, exists res ev,
    checkGenericArguments 1 reqs = Some (res, ev).
Proof.
  intros Hu reqs. unfold GenericArguments.checkGenericArguments. simpl.
  pose proof (checkRequirements_unconditional [] reqs (mkState true [] [])
                                              Hu) as H.
  destruct (checkRequirements [] reqs (mkState true [] [])) as [st'|r st'].
  - simpl in H. rewrite H. eauto.
  - eauto.
Qed.

End CheckerVerdicts.

Section CheckerVerdictSamples.
Import GenericArguments RequirementTrees ArgumentEvents Samples.

(** X1, at the sample call site: the diagnostics of [Int: Q] come with
    [Failure] and a valid location. *)
Lemma diagnostics_need_failure_and_location_witness :
  checkGenericArguments sampleOps sampleLoc sampleNoteLoc sampleOwner []
    None 2 [ConformanceReq T "P"] = Some (Failure, qDiagnostics)
  /\ existsb isDiagnostic qDiagnostics = true
  /\ Failure = Failure /\ isValid sampleLoc = true.
Proof.
  split; [reflexivity|]. split; [reflexivity|].
  apply (@diagnostics_need_failure_and_location sampleOps sampleLoc
           sampleNoteLoc sampleOwner [] None 2 [ConformanceReq T "P"]
           Failure qDiagnostics); reflexivity.
Defined.

(** X2, at the sample call site: the report about [Int: Equatable]. *)
Lemma listener_hears_top_level_conformances_only_witness :
  checkGenericArguments sampleOps sampleLoc sampleNoteLoc sampleOwner []
    (Some diagnosingListener) 1 [ConformanceReq Int "Equatable"]
  = Some (Success, [SatisfiedConformance Int Int intEquatable])
  /\ exists r s p,
      In r [ConformanceReq Int "Equatable"] /\ getFirstType r = Int
      /\ Requirement_subst sampleOps r = Some (ConformanceReq s p)
      /\ Int = intoContext sampleOps s
      /\ conformsToProtocol sampleOps Int p = Some intEquatable.
Proof.
  split; [reflexivity|].
  destruct (@listener_hears_top_level_conformances_only sampleOps sampleLoc
              sampleNoteLoc sampleOwner [] (Some diagnosingListener) 1
              [ConformanceReq Int "Equatable"] Success
              [SatisfiedConformance Int Int intEquatable] eq_refl)
    as [H _].
  destruct (H Int Int intEquatable (or_introl eq_refl)) as [_ H'].
  exact H'.
Defined.

(** X3, at the sample call site: [Int == String] at the top level. *)
Lemma top_level_violation_is_diagnosed_witness :
  checkGenericArguments sampleOps sampleLoc sampleNoteLoc sampleOwner []
    None 1 [SameTypeReq Int Str; intQ]
  = Some (Failure,
          [Diagnose sampleLoc types_not_equal sampleOwner Int (Some Str);
           DiagnoseNote sampleNoteLoc types_not_equal_requirement Int
                        (Some Str) EmptyString]).
Proof.
  exact (@top_level_violation_is_diagnosed sampleOps sampleLoc sampleNoteLoc
           sampleOwner [] None 0 [] (SameTypeReq Int Str) [intQ]
           (mkState true [] []) Int (Some Str) types_not_equal
           types_not_equal_requirement eq_refl eq_refl
           (fun H : SameType = Conformance =>
              eq_ind SameType
                     (fun k => match k with SameType => True | _ => False end)
                     I Conformance H)).
Defined.

(** X4, at the sample call site: two satisfied requirements, swapped. *)
Lemma verdict_is_order_independent_witness :
  checkGenericArguments sampleOps sampleLoc sampleNoteLoc sampleOwner []
    None 1 [ConformanceReq Int "Equatable"; SameTypeReq Int Int]
  = Some (Success, [])
  /\ exists fuel' ev',
      checkGenericArguments sampleOps sampleLoc sampleNoteLoc sampleOwner []
        None fuel' [SameTypeReq Int Int; ConformanceReq Int "Equatable"]
      = Some (Success, ev').
Proof.
  split; [reflexivity|].
  destruct (@verdict_is_order_independent sampleOps sampleLoc sampleNoteLoc
              sampleOwner [] None
              [ConformanceReq Int "Equatable"; SameTypeReq Int Int]
              [SameTypeReq Int Int; ConformanceReq Int "Equatable"]
              1 Success []
              (perm_swap (SameTypeReq Int Int)
                         (ConformanceReq Int "Equatable") [])
              eq_refl) as [_ H].
  apply H. discriminate.
Defined.

(** X19, at the sample call site: [Int: Q], a conditional requirement of
    [Array<Int>: P], is violated. *)
Lemma violated_requirement_is_never_overlooked_witness :
  checkGenericArguments sampleOps sampleLoc sampleNoteLoc sampleOwner []
    None 2 [SameTypeReq U U; ConformanceReq T "P"]
  = Some (Failure, qDiagnostics)
  /\ ViolationIn sampleOps None [] [SameTypeReq U U; ConformanceReq T "P"]
  /\ Failure = Failure.
Proof.
  assert (HV : ViolationIn sampleOps None []
                           [SameTypeReq U U; ConformanceReq T "P"]).
  { apply Violation_later.
    apply (@Violation_below sampleOps None [] (ConformanceReq T "P") []
             (ArrayOf Int) "P"%string arrayConformance eq_refl).
    apply (@Violation_here sampleOps None [arrayFrame] intQ [intR] Int
             (Some (ProtocolType "Q")) type_does_not_conform_owner
             type_does_not_inherit_or_conform_requirement eq_refl). }
  split; [reflexivity|]. split; [exact HV|].
  apply (@violated_requirement_is_never_overlooked sampleOps sampleLoc
           sampleNoteLoc sampleOwner [] None
           [SameTypeReq U U; ConformanceReq T "P"] 2 Failure qDiagnostics
           HV eq_refl).
Defined.

(** X20, at a call site without conditional conformances. *)
Lemma no_conditional_requirements_one_pass_witness :
  exists res ev,
    checkGenericArguments plainOps sampleLoc sampleNoteLoc sampleOwner []
      None 1 [ConformanceReq Int "Equatable"; SameTypeReq Int Int]
    = Some (res, ev).
Proof.
  apply (@no_conditional_requirements_one_pass plainOps sampleLoc
           sampleNoteLoc sampleOwner [] None).
  intros t p c. simpl.
  destruct (isEqual t (NominalType "Int" []) && String.eqb p "Equatable");
    intros E; inversion E; reflexivity.
Defined.

End CheckerVerdictSamples.

(* ================================================================== *)
(** ** The text of the bindings: [gatherGenericParamBindingsText] *)
(* ================================================================== *)

Module BindingsText.
Import GenericArguments.

Section Named.
Variable tc : TypeCheckerOps.

(** The parameters of [genericParams] that occur in [types], in the
    order of [genericParams]. *)
Definition namedParams (types : list (option Ty))
           (genericParams : list GenericParam) : list GenericParam :=
  filter (fun gp => existsb (isEqual (gpType gp)) (knownGenericParams types))
         genericParams.

(** [name = type], for a parameter the substitution binds. *)
Definition binding (gp : GenericParam) : string :=
  match substitutions tc (gpType gp) with
  | Some type => (gpName gp ++ " = " ++ getString tc type)%string
  | None => EmptyString
  end.

(** The bindings between brackets, separated by commas. *)
Definition bindingsText (named : list GenericParam) : string :=
  match named with
  | [] => "]"%string
  | _ => (" [with " ++ String.concat ", " (map binding named) ++ "]")%string
  end.

End Named.

(** A call site that binds [T] to [Int] and [U] to [String] and prints
    nominal types by name. *)
Definition printingOps : TypeCheckerOps :=
  mkOps (fun t => Some t)
        (fun t => if isEqual t (GenericTypeParamType 0 0)
                  then Some (NominalType "Int" [])
                  else if isEqual t (GenericTypeParamType 0 1)
                       then Some (NominalType "String" [])
                       else None)
        (fun _ _ => None) (fun t => t) (fun _ _ => false) (fun _ => false)
        (fun t => match t with
                  | NominalType n _ => n
                  | _ => "_"%string
                  end).

End BindingsText.

Section BindingsFacts.
Import GenericArguments BindingsText.

Variable tc : TypeCheckerOps.

Lemma string_app_assoc : forall a b c : string,
  ((a ++ b) ++ c = a ++ (b ++ c))%string.
Proof.
  induction a as [|ch a IH]; intros b c; simpl; [reflexivity|].
  now rewrite IH.
Qed.

Lemma string_app_nonempty : forall a b : string,
  String.eqb a EmptyString = false ->
  String.eqb (a ++ b) EmptyString = false.
Proof. intros [|ch a] b H; [discriminate|reflexivity]. Qed.

(** The separator the loop puts before the next binding. *)
Lemma separator_nonempty : forall result : string,
  String.eqb (if String.eqb result EmptyString
              then (result ++ " [with ")%string
              else (result ++ ", ")%string) EmptyString = false.
Proof.
  intros result. destruct (String.eqb result EmptyString) eqn:E.
  - apply String.eqb_eq in E. subst. reflexivity.
  - now apply string_app_nonempty.
Qed.

Lemma binding_Some : forall gp type,
  substitutions tc (gpType gp) = Some type ->
  binding tc gp = (gpName gp ++ " = " ++ getString tc type)%string.
Proof. intros gp type E. unfold binding. now rewrite E. Qed.

Lemma gatherBindings_text : forall known gps result,
  (forall gp,
      In gp (filter (fun gp => existsb (isEqual (gpType gp)) known) gps) ->
      substitutions tc (gpType gp) <> None) ->
  gatherBindings tc known gps result
  = match filter (fun gp => existsb (isEqual (gpType gp)) known) gps with
    | [] => (result ++ "]")%string
    | named =>
        ((if String.eqb result EmptyString
          then (result ++ " [with ")%string
          else (result ++ ", ")%string)
         ++ String.concat ", " (map (binding tc) named) ++ "]")%string
    end.
Proof.
  intros known gps. induction gps as [|gp gps IH]; intros result Hall.
  - reflexivity.
  - cbn [filter] in Hall. cbn [filter gatherBindings].
    destruct (existsb (isEqual (gpType gp)) known) eqn:Ek; cbn [negb].
    + assert (Hgp : substitutions tc (gpType gp) <> None).
      { apply Hall. now left. }
      destruct (substitutions tc (gpType gp)) as [type|] eqn:Es;
        [|congruence].
      rewrite IH by (intros g Hg; apply Hall; now right).
      set (sep := if String.eqb result EmptyString
                  then (result ++ " [with ")%string
                  else (result ++ ", ")%string).
      assert (Hne : String.eqb ((sep ++ gpName gp ++ " = ")
                                ++ getString tc type) EmptyString = false).
      { apply string_app_nonempty, string_app_nonempty.
        apply separator_nonempty. }
      rewrite Hne.
      destruct (filter _ gps) as [|g named]; cbn [map String.concat];
        rewrite (binding_Some _ Es); now rewrite !string_app_assoc.
    + apply IH. exact Hall.
Qed.

Lemma gatherBindings_fails : forall known gps result gp,
  In gp (filter (fun gp => existsb (isEqual (gpType gp)) known) gps) ->
  substitutions tc (gpType gp) = None ->
  gatherBindings tc known gps result = EmptyString.
Proof.
  intros known gps. induction gps as [|g gps IH]; intros result gp Hin Hs.
  - simpl in Hin. destruct Hin.
  - cbn [filter] in Hin. cbn [gatherBindings].
    destruct (existsb (isEqual (gpType g)) known) eqn:Ek; cbn [negb].
    + destruct (substitutions tc (gpType g)) as [type|] eqn:Eg;
        [|reflexivity].
      destruct Hin as [->|Hin]; [congruence|].
      eapply IH; eauto.
    + eapply IH; eauto.
Qed.

Lemma bindingsText_nonempty : forall named,
  bindingsText tc named <> EmptyString.
Proof. intros [|g named]; discriminate. Qed.

(** X6: when a type mentions a generic parameter and the substitution
    binds every parameter of the list that is mentioned, the text is the
    bracketed, comma-separated list of [name = type] for exactly the
    mentioned parameters, in the order of the parameter list; when no
    parameter of the list is mentioned it is a lone closing bracket. *)
Theorem bindings_text_lists_named_parameters :
  forall types genericParams,
    knownGenericParams types <> [] ->
    (forall gp, In gp (namedParams types genericParams) ->
                substitutions tc (gpType gp) <> None) ->
    gatherGenericParamBindingsText tc types genericParams
    = bindingsText tc (namedParams types genericParams).
Proof.
  intros types genericParams Hk Hall.
  unfold gatherGenericParamBindingsText, namedParams in *.
  destruct (knownGenericParams types) as [|k known] eqn:Ek; [congruence|].
  rewrite gatherBindings_text by exact Hall.
  unfold bindingsText.
  destruct (filter _ genericParams); reflexivity.
Qed.

(** X7: the text is empty exactly when no type mentions a generic
    parameter, or when the substitution has no type for one of the
    mentioned parameters of the list. *)
Theorem bindings_text_is_empty_iff :
  forall types genericParams,
    gatherGenericParamBindingsText tc types genericParams = EmptyString
    <-> knownGenericParams types = []
        \/ exists gp, In gp (namedParams types genericParams)
                      /\ substitutions tc (gpType gp) = None.
Proof.
  intros types genericParams. split.
  - intros E.
    destruct (knownGenericParams types) as [|k known] eqn:Ek; [now left|].
    right.
    destruct (existsb (fun gp => match substitutions tc (gpType gp) with
                                 | None => true
                                 | Some _ => false
                                 end)
                      (namedParams types genericParams)) eqn:Ex.
    + apply existsb_exists in Ex as (gp & Hin & Hgp). exists gp.
      destruct (substitutions tc (gpType gp)); [discriminate|auto].
    + exfalso.
      apply (@bindingsText_nonempty (namedParams types genericParams)).
      rewrite <- bindings_text_lists_named_parameters; auto.
      * rewrite Ek. discriminate.
      * intros gp Hin Hs.
        assert (Hc : existsb (fun gp => match substitutions tc (gpType gp) with
                                        | None => true
                                        | Some _ => false
                                        end)
                             (namedParams types genericParams) = true).
        { apply existsb_exists. exists gp. rewrite Hs. auto. }
        congruence.
  - intros [Hk|(gp & Hin & Hs)].
    + unfold gatherGenericParamBindingsText. now rewrite Hk.
    + unfold gatherGenericParamBindingsText.
      destruct (knownGenericParams types) as [|k known] eqn:Ek;
        [reflexivity|].
      unfold namedParams in Hin. rewrite Ek in Hin.
      eapply gatherBindings_fails; eauto.
Qed.

End BindingsFacts.

Section BindingsSamples.
Import GenericArguments BindingsText Samples.

(** X6, on [Dictionary<T, U>] with the parameters [T], [U] and an unused
    [V]. *)
Lemma bindings_text_lists_named_parameters_witness :
  gatherGenericParamBindingsText printingOps
    [Some (NominalType "Dictionary" [T; U]); None]
    [mkGenericParam "T" 0 0; mkGenericParam "U" 0 1; mkGenericParam "V" 0 2]
  = " [with T = Int, U = String]"%string.
Proof.
  apply (@bindings_text_lists_named_parameters printingOps
           [Some (NominalType "Dictionary" [T; U]); None]
           [mkGenericParam "T" 0 0; mkGenericParam "U" 0 1;
            mkGenericParam "V" 0 2]).
  - discriminate.
  - intros gp [<-|[<-|[]]]; discriminate.
Defined.

End BindingsSamples.

(* ================================================================== *)
(** ** More about [checkReferencedGenericParams]: the walker, the
       search and the order of the errors *)
(* ================================================================== *)

Module ReferencedOrder.
Import ReferencedParams.

(** The parameter is at the depth of the declaration's own parameters
    and is not in the set. *)
Definition unreferencedIn (fnGenericParamsDepth : Z) (refs : SmallPtrSet)
           (gp : GenericParam) : bool :=
  Z.eqb (gpDepth gp) fnGenericParamsDepth && negb (count (gpType gp) refs).

(** The search has nothing more to find, or will not be run again. *)
Definition settled (reqs : list Requirement) (st : LoopState) : Prop :=
  requirements st <> []
  \/ visitRequirements reqs (referencedGenericParams st)
     = (referencedGenericParams st, false).

(** [func h<T: Equatable>(_: T)]: [T] occurs in the parameter types. *)
Definition usedDecl : GenericContext :=
  mkContext false (Some (mkGenericParam "T" 0 0, []))
            (mkSig [mkGenericParam "T" 0 0]
                   [ConformanceReq (GenericTypeParamType 0 0) "Equatable"])
            [GenericTypeParamType 0 0] (NominalType "Void" []).

End ReferencedOrder.

Section WalkerFacts.
Import GenericArguments ReferencedParams.











End WalkerFacts.

Section SearchFacts.
Import ReferencedParams ReferencedClosure ReferencedRule ReferencedOrder.

Lemma visitRequirements_candidates : forall reqs refs x,
  In x (fst (visitRequirements reqs refs)) ->
  In x refs \/ isGenericTypeParam x = true /\ In x (candidates reqs).
Proof.
  intros reqs refs.
  apply (@visitRequirements_sound
           (fun x => In x refs
                     \/ isGenericTypeParam x = true /\ In x (candidates reqs))).
  - intros req t u Hreq Ht Hgp _ _. right. split; auto.
    apply candidates_In. exists req. auto.
  - intros x Hx. now left.
Qed.

Lemma FindReferenced_grows : forall fuel reqs refs refs',
  FindReferencedGenericParamsInRequirements fuel reqs refs = Some refs' ->
  (forall x, In x refs -> In x refs')
  /\ (forall x, In x refs' ->
                In x refs
                \/ isGenericTypeParam x = true /\ In x (candidates reqs)).
Proof.
  induction fuel as [|fuel IH]; intros reqs refs refs' E; [discriminate|].
  simpl in E.
  pose proof (visitRequirements_incl reqs refs) as Hincl.
  pose proof (visitRequirements_candidates reqs refs) as Hcand.
  destruct (visitRequirements reqs refs) as [refs1 found].
  simpl in Hincl, Hcand. destruct found.
  - destruct (IH _ _ _ E) as [H1 H2]. split.
    + intros x Hx. apply H1, Hincl, Hx.
    + intros x Hx. destruct (H2 _ Hx) as [H|H]; auto.
  - inversion E; subst. split; auto.
Qed.

Lemma FindReferenced_fixed : forall fuel reqs refs refs',
  FindReferencedGenericParamsInRequirements fuel reqs refs = Some refs' ->
  visitRequirements reqs refs' = (refs', false).
Proof.
  induction fuel as [|fuel IH]; intros reqs refs refs' E; [discriminate|].
  simpl in E.
  pose proof (visitRequirements_old reqs refs) as Hold.
  destruct (visitRequirements reqs refs) as [refs1 found] eqn:Ev.
  destruct found.
  - eapply IH; eauto.
  - inversion E; subst. simpl in Hold. destruct (Hold eq_refl) as [-> _].
    exact Ev.
Qed.


Section OneLoop.

Variable fuel : nat.
Variable sig : GenericSignature.
Variable fnGenericParamsDepth : Z.

Local Abbreviation reqs := (getRequirements sig).
Local Abbreviation settled := (settled (getRequirements sig)).
Local Abbreviation unreferencedIn := (unreferencedIn fnGenericParamsDepth).

(** Parameters that are in the set do not change the state. *)
Lemma checkParams_direct : forall params st,
  (forall gp, In gp params -> gpDepth gp = fnGenericParamsDepth ->
              In (gpType gp) (referencedGenericParams st)) ->
  checkParams fuel sig fnGenericParamsDepth params st = Some st.
Proof.
  induction params as [|gp params IH]; intros st H; simpl; [reflexivity|].
  unfold checkParam.
  destruct (Z.eqb (gpDepth gp) fnGenericParamsDepth) eqn:Ed; simpl.
  - apply Z.eqb_eq in Ed.
    assert (Hc : count (gpType gp) (referencedGenericParams st) = true).
    { apply count_In, H; auto. now left. }
    rewrite Hc. apply IH. intros g Hg. apply H. now right.
  - apply IH. intros g Hg. apply H. now right.
Qed.

Lemma checkParam_settled : forall gp st st',
  settled st ->
  checkParam fuel sig fnGenericParamsDepth gp st = Some st' ->
  referencedGenericParams st' = referencedGenericParams st /\ settled st'.
Proof.
  intros gp st st' Hs. unfold checkParam.
  destruct (negb (Z.eqb (gpDepth gp) fnGenericParamsDepth)).
  { intros E; inversion E; subst; auto. }
  destruct (count (gpType gp) (referencedGenericParams st)).
  { intros E; inversion E; subst; auto. }
  destruct (requirements st) as [|r0 rs] eqn:Er.
  - destruct Hs as [Hs|Hs]; [congruence|].
    destruct fuel as [|k]; [discriminate|].
    simpl. rewrite Hs.
    destruct (count (gpType gp) (referencedGenericParams st));
      intros E; inversion E; subst; simpl; split; auto;
      right; exact Hs.
  - intros E; inversion E; subst; simpl. split; auto. left. discriminate.
Qed.

Lemma checkParams_settled : forall params st st',
  settled st ->
  checkParams fuel sig fnGenericParamsDepth params st = Some st' ->
  referencedGenericParams st' = referencedGenericParams st.
Proof.
  induction params as [|gp params IH]; intros st st' Hs; simpl.
  - intros E; inversion E; reflexivity.
  - destruct (checkParam fuel sig fnGenericParamsDepth gp st) as [st1|] eqn:E1;
      [|discriminate].
    destruct (checkParam_settled gp Hs E1) as [Hr Hs1].
    intros E. rewrite (IH _ _ Hs1 E). exact Hr.
Qed.

(** The loop diagnoses, in the order of the parameters, those that are
    not in the set it ends with. *)
Lemma checkParams_order : forall params st st',
  checkParams fuel sig fnGenericParamsDepth params st = Some st' ->
  (forall x, In x (referencedGenericParams st) ->
             In x (referencedGenericParams st'))
  /\ diagnosed (decl st')
     = diagnosed (decl st)
       ++ filter (unreferencedIn (referencedGenericParams st')) params.
Proof.
  induction params as [|gp params IH]; intros st st'; simpl.
  - intros E; inversion E; subst. split; auto. now rewrite app_nil_r.
  - destruct (checkParam fuel sig fnGenericParamsDepth gp st) as [st1|] eqn:E1;
      [|discriminate].
    intros E. destruct (IH _ _ E) as [Hincl Hd]. rewrite Hd. clear Hd.
    assert (Hyes : forall d,
               Z.eqb (gpDepth gp) fnGenericParamsDepth = true ->
               count (gpType gp) (referencedGenericParams st') = false ->
               diagnosed (decl st1) = d ++ [gp] ->
               diagnosed (decl st1)
               ++ filter (unreferencedIn (referencedGenericParams st')) params
               = d ++ (if unreferencedIn (referencedGenericParams st') gp
                       then gp :: filter (unreferencedIn
                                            (referencedGenericParams st'))
                                         params
                       else filter (unreferencedIn
                                      (referencedGenericParams st')) params)).
    { intros d H1 H2 ->. unfold ReferencedOrder.unreferencedIn at 2.
      rewrite H1, H2. simpl. now rewrite <- app_assoc. }
    assert (Hno : unreferencedIn (referencedGenericParams st') gp = false ->
               diagnosed (decl st1)
               ++ filter (unreferencedIn (referencedGenericParams st')) params
               = diagnosed (decl st1)
                 ++ (if unreferencedIn (referencedGenericParams st') gp
                     then gp :: filter (unreferencedIn
                                          (referencedGenericParams st'))
                                       params
                     else filter (unreferencedIn
                                    (referencedGenericParams st')) params)).
    { intros ->. reflexivity. }
    assert (Hcount : forall refs,
               (forall x, In x refs -> In x (referencedGenericParams st')) ->
               count (gpType gp) refs = true ->
               unreferencedIn (referencedGenericParams st') gp = false).
    { intros refs Hi Hc. unfold ReferencedOrder.unreferencedIn.
      apply count_In in Hc. apply Hi in Hc. apply count_In in Hc.
      rewrite Hc. apply andb_false_r. }
    unfold checkParam in E1.
    destruct (Z.eqb (gpDepth gp) fnGenericParamsDepth) eqn:Ed; simpl in E1.
    2:{ injection E1 as <-. split; [exact Hincl|]. apply Hno.
        unfold ReferencedOrder.unreferencedIn. now rewrite Ed. }
    destruct (count (gpType gp) (referencedGenericParams st)) eqn:Ec.
    { injection E1 as <-. split; [exact Hincl|]. apply Hno.
      apply (Hcount _ Hincl Ec). }
    destruct (requirements st) as [|r0 rs] eqn:Er.
    + destruct (FindReferencedGenericParamsInRequirements
                  fuel reqs (referencedGenericParams st)) as [refs|] eqn:Ef;
        [|discriminate].
      destruct (FindReferenced_grows _ _ _ Ef) as [Hg _].
      pose proof (FindReferenced_fixed _ _ _ Ef) as Hfix.
      destruct (count (gpType gp) refs) eqn:Ec1.
      * injection E1 as <-. simpl in *. split.
        { intros x Hx. apply Hincl, Hg, Hx. }
        apply Hno. apply (Hcount _ Hincl Ec1).
      * injection E1 as <-. simpl in *.
        assert (Hsame : referencedGenericParams st' = refs).
        { eapply eq_trans;
            [eapply checkParams_settled; [|exact E]|reflexivity].
          right. exact Hfix. }
        split.
        { intros x Hx. apply Hincl, Hg, Hx. }
        apply Hyes; auto. now rewrite Hsame.
    + injection E1 as <-. simpl in *.
      assert (Hsame : referencedGenericParams st'
                      = referencedGenericParams st).
      { eapply eq_trans;
          [eapply checkParams_settled; [|exact E]|reflexivity].
        left. simpl. discriminate. }
      split; [exact Hincl|].
      apply Hyes; auto. now rewrite Hsame.
Qed.

End OneLoop.

(** X10: the search is lazy: when every parameter of the declaration's
    own depth stands on its own in a parameter type or in the result
    type (and not only as the base of a dependent member type), the
    requirements are not looked at (no round of the search is needed)
    and the declaration is left as it is. *)
Theorem directly_referenced_parameters_need_no_search :
  forall fuel dc front others,
    ownGenericParams dc = Some (front, others) ->
    (forall gp,
        In gp (getGenericParams (getGenericSignatureOfContext dc)) ->
        gpDepth gp = gpDepth front ->
        exists ty, In ty (signatureTypes dc) /\ Outermost (gpType gp) ty) ->
    checkReferencedGenericParams fuel dc = Some (initialDecl dc).
Proof.
  intros fuel dc front others Eown H. unfold checkReferencedGenericParams.
  destruct (isAccessorDecl dc); [reflexivity|]. rewrite Eown.
  rewrite checkParams_direct; [reflexivity|].
  intros gp Hin Hd. simpl. apply paramsAndResultWalker_Outermost.
  exact (H gp Hin Hd).
Qed.

(** X11: the errors come in the order of the parameters of the
    signature, one for each parameter of the declaration's own depth
    that is not referenced by the rule of the check (it stands on its
    own neither in a parameter or result type nor in a requirement that
    the closure reaches). *)
Theorem unreferenced_parameters_in_declaration_order :
  forall k dc front others (unreferenced : GenericParam -> bool),
    isAccessorDecl dc = false ->
    ownGenericParams dc = Some (front, others) ->
    (forall gp,
        In gp (getGenericParams (getGenericSignatureOfContext dc)) ->
        (unreferenced gp = true
         <-> gpDepth gp = gpDepth front
             /\ ~ ReferencedByRule dc (gpType gp))) ->
    exists out,
      checkReferencedGenericParams (searchBound dc + k) dc = Some out
      /\ diagnosed out
         = filter unreferenced
                  (getGenericParams (getGenericSignatureOfContext dc)).
Proof.
  intros k dc front others unreferenced Eacc Eown Hrule.
  assert (Hf : forall gp,
             In gp (getGenericParams (getGenericSignatureOfContext dc)) ->
             (unreferenced gp = true
              <-> gpDepth gp = gpDepth front
                  /\ ~ Referenced dc (gpType gp))).
  { intros gp Hgp. rewrite Referenced_rule. exact (Hrule gp Hgp). }
  unfold checkReferencedGenericParams. rewrite Eacc, Eown.
  assert (Hinit : loopInvariant dc (gpDepth front) []
                    (mkLoop (paramsAndResultWalker dc) [] (initialDecl dc))).
  { repeat split; simpl; auto; try contradiction.
    - intros x. apply Referenced_directly.
    - intros [H _]; contradiction. }
  assert (Hfuel : List.length
                    (candidates
                       (getRequirements (getGenericSignatureOfContext dc)))
                  < searchBound dc + k)
    by (unfold searchBound; lia).
  destruct (@checkParams_invariant dc (gpDepth front) (searchBound dc + k)
              (getGenericParams (getGenericSignatureOfContext dc)) [] _
              Hfuel Hinit) as (st & E & Hinv).
  rewrite E. exists (decl st). split; [reflexivity|].
  destruct Hinv as (_ & _ & _ & Hdiag & _ & _). simpl in Hdiag.
  destruct (checkParams_order _ _ _ _ _ E) as [_ Hd]. simpl in Hd.
  rewrite Hd. apply filter_ext_in. intros gp Hgp.
  assert (Hiff : unreferencedIn (gpDepth front) (referencedGenericParams st)
                                gp = true
                 <-> unreferenced gp = true).
  { split.
    - intros Hu. apply (Hf gp Hgp).
      assert (Hin : In gp (diagnosed (decl st))).
      { rewrite Hd. apply filter_In. split; assumption. }
      apply Hdiag in Hin. tauto.
    - intros Hu. apply (Hf gp Hgp) in Hu.
      assert (Hin : In gp (diagnosed (decl st))).
      { apply Hdiag. split; [exact Hgp|exact Hu]. }
      rewrite Hd in Hin. apply filter_In in Hin. tauto. }
  destruct (unreferencedIn _ _ gp), (unreferenced gp); auto.
  - symmetry. now apply Hiff.
  - now apply Hiff.
Qed.

End SearchFacts.

Section SearchSamples.
Import ReferencedParams ReferencedClosure ReferencedRule ReferencedOrder.
Import Samples.


(** X10, on [h]: [T] is a parameter type, and no fuel is needed. *)
Lemma directly_referenced_parameters_need_no_search_witness :
  checkReferencedGenericParams 0 usedDecl = Some (initialDecl usedDecl).
Proof.
  apply (@directly_referenced_parameters_need_no_search
           0 usedDecl (mkGenericParam "T" 0 0) [] eq_refl).
  intros gp [<-|[]] _. exists (GenericTypeParamType 0 0).
  split; [now left|now apply Outermost_here].
Defined.

(** What the rule gives on [k]: [B] and [D.M], which are parameter
    types, and [C], which the requirement equates with [B]. *)
Lemma orderDecl_referenced : forall x,
  ReferencedByRule orderDecl x ->
  x = GenericTypeParamType 0 1
  \/ x = DependentMemberType (GenericTypeParamType 0 3) "M"
  \/ x = GenericTypeParamType 0 2.
Proof.
  intros x H. induction H as [x ty Hin Hout|req g u Hreq Hg Ht Hu _ _].
  - destruct Hin as [<-|[<-|[<-|[]]]].
    + apply Outermost_typeParameter in Hout; auto.
    + apply Outermost_typeParameter in Hout; auto.
    + apply Outermost_hasTypeParameter in Hout. discriminate.
  - destruct Hreq as [<-|[]]. destruct Ht as (ty & [<-|[<-|[]]] & Hout);
      apply Outermost_typeParameter in Hout; auto.
Qed.

(** X11, on [k]: of [A], [B], [C], [D] the errors name [A] and [D], in
    that order, once each. *)
Lemma unreferenced_parameters_in_declaration_order_witness :
  exists out,
    checkReferencedGenericParams (searchBound orderDecl + 0) orderDecl
    = Some out
    /\ diagnosed out
       = [mkGenericParam "A" 0 0; mkGenericParam "D" 0 3].
Proof.
  apply (@unreferenced_parameters_in_declaration_order
           0 orderDecl (mkGenericParam "A" 0 0) (tl orderParams)
           (fun gp => Z.eqb (gpIndex gp) 0 || Z.eqb (gpIndex gp) 3)
           eq_refl eq_refl).
  intros gp [<-|[<-|[<-|[<-|[]]]]]; simpl; split;
    try discriminate; try reflexivity.
  - intros _. split; [reflexivity|]. intros H.
    apply orderDecl_referenced in H. destruct H as [H|[H|H]]; discriminate.
  - intros [_ Hn]. exfalso. apply Hn.
    apply (@Rule_directly orderDecl _ (GenericTypeParamType 0 1));
      [now left|now apply Outermost_here].
  - intros [_ Hn]. exfalso. apply Hn.
    apply (@Rule_by_requirement orderDecl
             (SameTypeReq (GenericTypeParamType 0 2)
                          (GenericTypeParamType 0 1))
             _ (GenericTypeParamType 0 1)); try reflexivity.
    + now left.
    + exists (GenericTypeParamType 0 2).
      split; [now left|now apply Outermost_here].
    + exists (GenericTypeParamType 0 1).
      split; [right; now left|now apply Outermost_here].
    + apply (@Rule_directly orderDecl _ (GenericTypeParamType 0 1));
        [now left|now apply Outermost_here].
  - intros _. split; [reflexivity|]. intros H.
    apply orderDecl_referenced in H. destruct H as [H|[H|H]]; discriminate.
Defined.

End SearchSamples.

(* ================================================================== *)
(** ** More about the builder's callers: what reaches the builder *)
(* ================================================================== *)

Module ParameterLists.
Import Builder GenericEnvironments.

(** The types of the parameters of one list. *)
Definition listParameters (l : GenericParamList) : list Ty :=
  map gpType (getParams l).

(** The requirement constrains [Self] of an extension of an existential
    type to the extended type. *)
Definition constrainsSelfToExtendedType (e : ExtensionTypes)
           (req : Requirement) : Prop :=
  extendedTypeIsExistential e = true
  /\ getFirstType req = getSelfInterfaceType e
  /\ getSecondType req = Some (getExtendedType e).

Definition constrainsSelfToExtendedTypeb (e : ExtensionTypes)
           (req : Requirement) : bool :=
  extendedTypeIsExistential e
  && isEqual (getFirstType req) (getSelfInterfaceType e)
  && match getSecondType req with
     | Some rhs => isEqual rhs (getExtendedType e)
     | None => false
     end.

(** The diagnostics expected of one list: one for each requirement of
    the where clause of an extension that constrains [Self] to the
    extended type, in the order written. *)
Definition listDiagnostics (l : GenericParamList) : list Diagnostic :=
  match getDeclContext l with
  | None => []
  | Some e =>
      map (fun _ => protocol_extension_redundant_requirement
                      (getExtendedType e) (getSelfInterfaceType e)
                      (getExtendedType e))
          (filter (constrainsSelfToExtendedTypeb e) (getWhereClause l))
  end.

(** The condition under which [checkGenericEnvironment] creates a
    builder, read off the [if] of lines 706-708. *)
Definition runsBuilder (genericParams : GenericParamList)
           (ext : option ExtensionDecl) (mustInferRequirements : bool)
  : Prop :=
  ext = None
  \/ mustInferRequirements = true
  \/ exists e,
      ext = Some e
      /\ (getTrailingWhereClause e = true
          \/ exists depth,
              getExtendedTypeGenericDepth e = Some depth
              /\ depth <> gpDepth (backParam genericParams)).

(** [struct Outer<A> { struct Inner<B> where B: Equatable }]. *)
Definition outerList : GenericParamList :=
  mkParamList (mkGenericParam "A" 0 0) [] [] None None.

Definition innerList : GenericParamList :=
  mkParamList (mkGenericParam "B" 1 0) []
              [ConformanceReq (GenericTypeParamType 1 0) "Equatable"]
              None (Some outerList).

(** [protocol Foo {}; extension Foo where Self: Foo, Self: Hashable]. *)
Definition fooExtensionTypes : ExtensionTypes :=
  mkExtTypes (ProtocolType "Foo") (GenericTypeParamType 0 0) true.

Definition fooSelf : GenericParam := mkGenericParam "Self" 0 0.

Definition fooExtensionList : GenericParamList :=
  mkParamList fooSelf []
              [ConformanceReq (GenericTypeParamType 0 0) "Foo";
               ConformanceReq (GenericTypeParamType 0 0) "Hashable"]
              (Some fooExtensionTypes) None.

(** [extension Foo where Self: AnyObject]. *)
Definition fooClassExtensionList : GenericParamList :=
  mkParamList fooSelf [] [LayoutReq (GenericTypeParamType 0 0) LayoutClass]
              (Some fooExtensionTypes) None.

(** [struct Outer<A> { ... }] with a member list nested in the extension
    [extension Foo where Self: AnyObject]. *)
Definition nestedInClassExtension : GenericParamList :=
  mkParamList (mkGenericParam "B" 1 0) [] [] None
              (Some fooClassExtensionList).

End ParameterLists.

Section ParameterListFacts.
Import Builder GenericEnvironments OpaqueResult ParameterLists.

Lemma addedParameters_parameters : forall l : list GenericParam,
  addedParameters (map (fun p => addGenericParameter (gpType p)) l)
  = map gpType l.
Proof. induction l as [|p l IH]; simpl; [reflexivity|now rewrite IH]. Qed.

Lemma addedParameters_parameterRequirements : forall l : list GenericParam,
  addedParameters (map addGenericParameterRequirements l) = [].
Proof. induction l as [|p l IH]; simpl; auto. Qed.

Lemma addedParameters_requirements : forall l : list Requirement,
  addedParameters (map (fun req => addRequirement req forExplicit) l) = [].
Proof. induction l as [|p l IH]; simpl; auto. Qed.

Lemma addedRequirements_parameters : forall l : list GenericParam,
  addedRequirements (map (fun p => addGenericParameter (gpType p)) l) = [].
Proof. induction l as [|p l IH]; simpl; auto. Qed.

Lemma addedRequirements_parameterRequirements : forall l : list GenericParam,
  addedRequirements (map addGenericParameterRequirements l) = [].
Proof. induction l as [|p l IH]; simpl; auto. Qed.

Lemma addedRequirements_requirements : forall l : list Requirement,
  addedRequirements (map (fun req => addRequirement req forExplicit) l) = l.
Proof. induction l as [|p l IH]; simpl; [reflexivity|now rewrite IH]. Qed.

(** The diagnostics of a defined visit of a where clause. *)
Lemma visitWhereClause_diags :
  forall ext reqs builder diags builder' diags',
    visitWhereClause ext reqs (builder, diags) = Some (builder', diags') ->
    diags'
    = diags
      ++ match ext with
         | None => []
         | Some e =>
             map (fun _ => protocol_extension_redundant_requirement
                             (getExtendedType e) (getSelfInterfaceType e)
                             (getExtendedType e))
                 (filter (constrainsSelfToExtendedTypeb e) reqs)
         end.
Proof.
  intros ext reqs. induction reqs as [|req rest IH];
    intros builder diags builder' diags'; cbn [visitWhereClause].
  - intros E. inversion E; subst. destruct ext; simpl; now rewrite app_nil_r.
  - destruct (redundantRequirement ext req) as [ds|] eqn:Er; [|discriminate].
    intros E. apply IH in E. subst diags'. cbn [fst snd].
    rewrite <- app_assoc. f_equal.
    destruct ext as [e|].
    + unfold redundantRequirement in Er. cbn [filter].
      assert (Eb : constrainsSelfToExtendedTypeb e req
                   = extendedTypeIsExistential e
                     && isEqual (getFirstType req) (getSelfInterfaceType e)
                     && match getSecondType req with
                        | Some rhs => isEqual rhs (getExtendedType e)
                        | None => false
                        end) by reflexivity.
      destruct (getSecondType req) as [rhs|]; [|discriminate].
      rewrite Eb. clear Eb. inversion Er; subst ds.
      destruct (extendedTypeIsExistential e
                && isEqual (getFirstType req) (getSelfInterfaceType e)
                && isEqual rhs (getExtendedType e)) eqn:Eb.
      * apply andb_prop in Eb. destruct Eb as [_ Eb].
        apply isEqual_eq in Eb. subst rhs. reflexivity.
      * reflexivity.
    + simpl in Er. inversion Er; subst ds. reflexivity.
Qed.

Lemma constrainsSelfToExtendedTypeb_iff : forall e req,
  constrainsSelfToExtendedTypeb e req = true
  <-> constrainsSelfToExtendedType e req.
Proof.
  intros e req.
  unfold constrainsSelfToExtendedTypeb, constrainsSelfToExtendedType.
  rewrite !andb_true_iff. split.
  - intros [[H1 H2] H3]. apply isEqual_eq in H2.
    destruct (getSecondType req) as [rhs|]; [|discriminate].
    apply isEqual_eq in H3. subst rhs. auto.
  - intros (H1 & H2 & H3). rewrite H1, H2, H3, !isEqual_refl. auto.
Qed.

(** What one defined call of [checkGenericParamList] adds. *)
Lemma checkGenericParamList_added :
  forall builder genericParams parentSig builder' diags,
    checkGenericParamList builder genericParams parentSig
    = Some (builder', diags) ->
    addedParameters builder'
    = addedParameters builder ++ listParameters genericParams
    /\ addedRequirements builder'
       = addedRequirements builder ++ getWhereClause genericParams
    /\ diags = listDiagnostics genericParams.
Proof.
  intros builder genericParams parentSig builder' diags E.
  unfold checkGenericParamList in E.
  pose proof (visitWhereClause_calls _ _ _ _ E) as Hb.
  apply visitWhereClause_diags in E. subst builder'.
  unfold listParameters, listDiagnostics.
  rewrite !addedParameters_app, !addedRequirements_app.
  rewrite addedParameters_parameters, addedParameters_parameterRequirements,
    addedParameters_requirements, addedRequirements_parameters,
    addedRequirements_parameterRequirements, addedRequirements_requirements.
  simpl. rewrite !app_nil_r. auto.
Qed.

(** X12: [checkGenericParamList] has no result exactly when the list
    belongs to an extension and its where clause holds a layout
    requirement, of which line 82 asks the second type.  When it has a
    result, every requirement of the where clause has reached the
    builder, in the order written, also when it is diagnosed as
    redundant; the parameters of the list were added in their order; and
    the redundancy diagnostic is emitted exactly for the requirements of
    the where clause of an extension of an existential type that
    constrain [Self] to the extended type. *)
Theorem where_clause_reaches_the_builder :
  forall builder genericParams parentSig,
    (checkGenericParamList builder genericParams parentSig = None
     <-> constrainsLayoutInExtension genericParams)
    /\ forall builder' diags,
        checkGenericParamList builder genericParams parentSig
        = Some (builder', diags) ->
        addedParameters builder'
        = addedParameters builder ++ map gpType (getParams genericParams)
        /\ addedRequirements builder'
           = addedRequirements builder ++ getWhereClause genericParams
        /\ forall d,
            In d diags
            <-> exists e req,
                getDeclContext genericParams = Some e
                /\ In req (getWhereClause genericParams)
                /\ constrainsSelfToExtendedType e req
                /\ d = protocol_extension_redundant_requirement
                         (getExtendedType e) (getSelfInterfaceType e)
                         (getExtendedType e).
Proof.
  intros builder genericParams parentSig.
  split; [apply checkGenericParamList_None|].
  intros builder' diags E.
  destruct (checkGenericParamList_added _ _ _ E) as (Hp & Hr & Hd).
  split; [exact Hp|]. split; [exact Hr|].
  intros d. rewrite Hd. unfold listDiagnostics.
  destruct (getDeclContext genericParams) as [e|].
  - rewrite in_map_iff. split.
    + intros (req & <- & Hin). apply filter_In in Hin.
      destruct Hin as [Hin Hb].
      apply constrainsSelfToExtendedTypeb_iff in Hb.
      exists e, req. auto.
    + intros (e' & req & He & Hin & Hc & ->). inversion He; subst e'.
      exists req. split; [reflexivity|]. apply filter_In.
      split; [exact Hin|]. now apply constrainsSelfToExtendedTypeb_iff.
  - split; [intros []|]. intros (e & req & He & _). discriminate.
Qed.

(** The defined visit of the lists, outermost first. *)
Fixpoint visitOuterToInner_added (genericParams : GenericParamList)
  : forall builder diags builder' diags',
    visitOuterToInner genericParams (builder, diags)
    = Some (builder', diags') ->
    addedParameters builder'
    = addedParameters builder
      ++ flat_map listParameters (outermostFirst genericParams)
    /\ addedRequirements builder'
       = addedRequirements builder
         ++ flat_map getWhereClause (outermostFirst genericParams)
    /\ diags'
       = diags ++ flat_map listDiagnostics (outermostFirst genericParams).
Proof.
  destruct genericParams as [p ps w dc o].
  intros builder diags builder' diags'.
  cbn [visitOuterToInner outermostFirst].
  assert (Houter : forall builder1 diags1,
             match o with
             | Some outerGenericParams =>
                 visitOuterToInner outerGenericParams (builder, diags)
             | None => Some (builder, diags)
             end = Some (builder1, diags1) ->
             addedParameters builder1
             = addedParameters builder
               ++ flat_map listParameters
                    (match o with
                     | Some outerGenericParams =>
                         outermostFirst outerGenericParams
                     | None => []
                     end)
             /\ addedRequirements builder1
                = addedRequirements builder
                  ++ flat_map getWhereClause
                       (match o with
                        | Some outerGenericParams =>
                            outermostFirst outerGenericParams
                        | None => []
                        end)
             /\ diags1
                = diags
                  ++ flat_map listDiagnostics
                       (match o with
                        | Some outerGenericParams =>
                            outermostFirst outerGenericParams
                        | None => []
                        end)).
  { destruct o as [outerGenericParams|]; intros builder1 diags1 E.
    - exact (visitOuterToInner_added outerGenericParams _ _ _ _ E).
    - inversion E; subst. simpl. rewrite !app_nil_r. auto. }
  destruct (match o with
            | Some outerGenericParams =>
                visitOuterToInner outerGenericParams (builder, diags)
            | None => Some (builder, diags)
            end) as [[builder1 diags1]|]; [|discriminate].
  destruct (Houter _ _ eq_refl) as (H1 & H2 & H3).
  destruct (checkGenericParamList builder1 (mkParamList p ps w dc o) None)
    as [[builder2 diags2]|] eqn:E; [|discriminate].
  intros E'. inversion E'; subst builder' diags'.
  destruct (checkGenericParamList_added _ _ _ E) as (Hp & Hr & Hd).
  rewrite !flat_map_app. cbn [flat_map]. rewrite !app_nil_r.
  rewrite Hp, Hr, Hd, H1, H2, H3, !app_assoc. auto.
Qed.

(** X13: [visitOuterToInner] checks the enclosing lists before the list
    itself.  The visit has no result exactly when one of the lists is
    that of an extension whose where clause holds a layout requirement;
    when it has one, the builder got the parameters and the where clauses
    of the lists outermost first, and the diagnostics come in that
    order. *)
Theorem outer_lists_are_checked_first :
  forall genericParams builder diags,
    (visitOuterToInner genericParams (builder, diags) = None
     <-> exists l, In l (outermostFirst genericParams)
                   /\ constrainsLayoutInExtension l)
    /\ (forall builder' diags',
          visitOuterToInner genericParams (builder, diags)
          = Some (builder', diags') ->
          addedParameters builder'
          = addedParameters builder
            ++ flat_map (fun l => map gpType (getParams l))
                        (outermostFirst genericParams)
          /\ addedRequirements builder'
             = addedRequirements builder
               ++ flat_map getWhereClause (outermostFirst genericParams)
          /\ diags'
             = diags
               ++ flat_map listDiagnostics (outermostFirst genericParams))
    /\ exists enclosing,
        outermostFirst genericParams = enclosing ++ [genericParams].
Proof.
  intros genericParams builder diags.
  split; [apply visitOuterToInner_None|]. split.
  - intros builder' diags' E. exact (visitOuterToInner_added _ _ _ E).
  - destruct genericParams as [p ps w dc o]. simpl. eauto.
Qed.

Section Environment.

Variable computeGenericSignature :
  GenericSignatureBuilder -> bool -> GenericSignaturePtr.

Lemma checkedLists_added : forall genericParams parentSig builder diags,
  match getOuterParameters genericParams, parentSig with
  | Some _, None => visitOuterToInner genericParams ([], [])
  | _, _ => checkGenericParamList [] genericParams parentSig
  end = Some (builder, diags) ->
  addedParameters builder
  = flat_map listParameters (checkedLists genericParams parentSig)
  /\ addedRequirements builder
     = flat_map getWhereClause (checkedLists genericParams parentSig)
  /\ diags = flat_map listDiagnostics (checkedLists genericParams parentSig).
Proof.
  intros genericParams parentSig builder diags. unfold checkedLists.
  destruct (getOuterParameters genericParams) as [outerList|];
    [destruct parentSig as [parent|]|]; intros E.
  2: exact (visitOuterToInner_added _ _ _ E).
  all: destruct (checkGenericParamList_added _ _ _ E) as (Hp & Hr & Hd);
    simpl in *; rewrite !app_nil_r; auto.
Qed.

(** X14: when [checkGenericEnvironment] runs a builder and has a result,
    the builder was given, before the inference callback, the parameters
    and the where clauses of every list, outermost first, if there are
    enclosing lists and no parent signature, and of the given list alone
    otherwise; the signature of the environment is computed from the
    builder after the callback, with [allowConcreteGenericParams] as
    passed. *)
Theorem environment_builder_sees_checked_lists :
  forall genericParams parentSig allowConcreteGenericParams ext
         inferRequirements mustInferRequirements out calls,
    checkGenericEnvironment computeGenericSignature genericParams parentSig
      allowConcreteGenericParams ext inferRequirements mustInferRequirements
    = Some out ->
    GenericEnvironments.builderRun out = Some calls ->
    exists built,
      calls = inferRequirements built
      /\ GenericEnvironments.environment out
         = createGenericEnvironment
             (computeGenericSignature calls allowConcreteGenericParams)
      /\ addedParameters built
         = flat_map listParameters (checkedLists genericParams parentSig)
      /\ addedRequirements built
         = flat_map getWhereClause (checkedLists genericParams parentSig)
      /\ GenericEnvironments.diagnostics out
         = flat_map listDiagnostics (checkedLists genericParams parentSig).
Proof.
  intros genericParams parentSig allowConcreteGenericParams ext
         inferRequirements mustInferRequirements out calls.
  unfold checkGenericEnvironment.
  destruct (needsBuilder genericParams ext mustInferRequirements)
    as [[|]|]; [| |discriminate].
  - cbv zeta.
    pose proof (checkedLists_added genericParams parentSig) as HA.
    unfold GenericSignatureBuilder in *.
    destruct (match getOuterParameters genericParams with
              | Some _ => _
              | None => _
              end) as [[builder1 diags]|]; [|discriminate].
    destruct (HA _ _ eq_refl) as (Hp & Hr & Hd).
    intros E Hb. inversion E; subst. simpl in Hb. inversion Hb; subst.
    exists builder1. simpl. repeat split; auto.
  - destruct ext as [e|]; [|discriminate].
    destruct (getSelfNominalTypeDecl e) as [nominal|]; [|discriminate].
    destruct (nominalSignature nominal) as [sig|]; [|discriminate].
    intros E Hb. inversion E; subst. discriminate.
Qed.

Lemma needsBuilder_runsBuilder :
  forall genericParams ext mustInferRequirements,
    needsBuilder genericParams ext mustInferRequirements = Some true
    <-> runsBuilder genericParams ext mustInferRequirements.
Proof.
  intros genericParams ext mustInfer. unfold needsBuilder, runsBuilder.
  destruct ext as [e|]; [|split; auto].
  destruct mustInfer; simpl; [split; auto|].
  destruct (getTrailingWhereClause e) eqn:Ew.
  { split; [|reflexivity]. intros _. right. right. exists e. auto. }
  destruct (getExtendedTypeGenericDepth e) as [depth|] eqn:Ed.
  - split.
    + intros E. inversion E as [E']. apply negb_true_iff in E'.
      apply Z.eqb_neq in E'. right. right. exists e. split; [reflexivity|].
      right. exists depth. auto.
    + intros [H|[H|(e' & He & [H|(depth' & Hd & Hne)])]];
        try discriminate; inversion He; subst e'; [congruence|].
      rewrite Ed in Hd. inversion Hd; subst depth'.
      apply Z.eqb_neq in Hne. now rewrite Hne.
  - split; [discriminate|].
    intros [H|[H|(e' & He & [H|(depth' & Hd & Hne)])]];
      try discriminate; inversion He; subst e'; congruence.
Qed.

(** X15: the call has no result in these cases only.  For an extension
    without trailing where clause that need not infer requirements: when
    the signature of the extended type has no parameter, or when there
    is no extended type or no signature of it and the depth of the last
    parameter of the list is [static_cast<unsigned>(-1)], the value that
    stands for "no depth".  For a call that creates a builder: when one
    of the lists it checks is that of an extension whose where clause
    holds a layout requirement. *)
Theorem environment_is_undefined_only_for :
  forall genericParams parentSig allowConcreteGenericParams ext
         inferRequirements mustInferRequirements,
    checkGenericEnvironment computeGenericSignature genericParams parentSig
      allowConcreteGenericParams ext inferRequirements mustInferRequirements
    = None
    <-> (exists e,
          ext = Some e
          /\ mustInferRequirements = false
          /\ getTrailingWhereClause e = false
          /\ (getExtendedTypeGenericDepth e = None
              \/ extendedDepth e = None
                 /\ gpDepth (backParam genericParams) = NO_DEPTH))
        \/ (runsBuilder genericParams ext mustInferRequirements
            /\ exists l, In l (checkedLists genericParams parentSig)
                         /\ constrainsLayoutInExtension l).
Proof.
  intros genericParams parentSig allowConcreteGenericParams ext
         inferRequirements mustInferRequirements.
  rewrite <- needsBuilder_runsBuilder.
  rewrite <- (checkedLists_None genericParams parentSig).
  unfold checkGenericEnvironment. cbv zeta.
  unfold GenericSignatureBuilder in *.
  destruct (needsBuilder genericParams ext mustInferRequirements)
    as [[|]|] eqn:En.
  - destruct (match getOuterParameters genericParams with
              | Some _ => _
              | None => _
              end) as [[builder1 diags]|].
    + split; [discriminate|].
      intros [(e & He & Hm & Hw & Hd)|[_ H]]; [|discriminate].
      exfalso. unfold needsBuilder in En. rewrite He, Hm, Hw in En.
      cbn [orb] in En. destruct Hd as [Hd|[Hd Hno]].
      * rewrite Hd in En. discriminate.
      * unfold getExtendedTypeGenericDepth, extendedDepth in *.
        destruct (getSelfNominalTypeDecl e) as [nominal|].
        -- destruct (nominalSignature nominal) as [sig|].
           ++ rewrite Hd in En. discriminate.
           ++ rewrite Hno, Z.eqb_refl in En. discriminate.
        -- rewrite Hno, Z.eqb_refl in En. discriminate.
    + split; [|reflexivity]. intros _. right. auto.
  - unfold needsBuilder in En.
    destruct ext as [e|]; [|discriminate].
    destruct mustInferRequirements; [discriminate|].
    destruct (getTrailingWhereClause e) eqn:Ew; [discriminate|].
    cbn [orb] in En. unfold getExtendedTypeGenericDepth, extendedDepth in *.
    destruct (getSelfNominalTypeDecl e) as [nominal|] eqn:Enom.
    + destruct (nominalSignature nominal) as [sig|] eqn:Es.
      * destruct (back (getGenericParams (pointee sig))) as [p|] eqn:Eb;
          [|discriminate].
        split; [discriminate|].
        intros [(e' & He & _ & _ & [H|[H _]])|[H _]]; try discriminate;
          inversion He; subst e'; rewrite Enom, Es, Eb in H; discriminate.
      * split; [|reflexivity]. intros _. left. exists e.
        repeat split; auto. right. rewrite Enom, Es. split; [reflexivity|].
        destruct (Z.eqb NO_DEPTH (gpDepth (backParam genericParams)))
        eqn:E'; [|discriminate]. apply Z.eqb_eq in E'.
        now symmetry.
    + split; [|reflexivity]. intros _. left. exists e.
      repeat split; auto. right. rewrite Enom. split; [reflexivity|].
      destruct (Z.eqb NO_DEPTH (gpDepth (backParam genericParams)))
        eqn:E'; [|discriminate]. apply Z.eqb_eq in E'.
      now symmetry.
  - split; [|reflexivity]. intros _. left.
    unfold needsBuilder in En.
    destruct ext as [e|]; [|discriminate].
    destruct mustInferRequirements; [discriminate|].
    destruct (getTrailingWhereClause e) eqn:Ew; [discriminate|].
    cbn [orb] in En.
    destruct (getExtendedTypeGenericDepth e) eqn:Ed; [discriminate|].
    exists e. auto.
Qed.

End Environment.

End ParameterListFacts.

Section ParameterListSamples.
Import Builder GenericEnvironments OpaqueResult ParameterLists Samples.

(** X12, on [extension Foo where Self: Foo, Self: Hashable]: both
    requirements reach the builder and the first one is diagnosed; on
    [extension Foo where Self: AnyObject] there is no result. *)
Lemma where_clause_reaches_the_builder_witness :
  checkGenericParamList [] fooClassExtensionList None = None
  /\ exists builder' diags,
      checkGenericParamList [] fooExtensionList None
      = Some (builder', diags)
      /\ addedParameters builder' = [GenericTypeParamType 0 0]
      /\ addedRequirements builder'
         = [ConformanceReq (GenericTypeParamType 0 0) "Foo";
            ConformanceReq (GenericTypeParamType 0 0) "Hashable"]
      /\ In (protocol_extension_redundant_requirement
               (ProtocolType "Foo") (GenericTypeParamType 0 0)
               (ProtocolType "Foo")) diags.
Proof.
  split.
  - apply (where_clause_reaches_the_builder [] fooClassExtensionList None).
    exists fooExtensionTypes, (LayoutReq (GenericTypeParamType 0 0) LayoutClass).
    repeat split. now left.
  - destruct (checkGenericParamList [] fooExtensionList None)
      as [[builder' diags]|] eqn:E; [|discriminate E].
    exists builder', diags. split; [reflexivity|].
    destruct (where_clause_reaches_the_builder [] fooExtensionList None)
      as [_ H].
    destruct (H _ _ E) as (Hp & Hr & Hd).
    split; [exact Hp|]. split; [exact Hr|].
    apply Hd.
    exists fooExtensionTypes, (ConformanceReq (GenericTypeParamType 0 0) "Foo").
    repeat split. now left.
Defined.

(** X13, on [Inner] inside [Outer]: [A] is added before [B]; on a list
    nested in [extension Foo where Self: AnyObject] the visit has no
    result. *)
Lemma outer_lists_are_checked_first_witness :
  visitOuterToInner nestedInClassExtension ([], []) = None
  /\ exists builder' diags,
      visitOuterToInner innerList ([], []) = Some (builder', diags)
      /\ addedParameters builder'
         = [GenericTypeParamType 0 0; GenericTypeParamType 1 0]
      /\ addedRequirements builder'
         = [ConformanceReq (GenericTypeParamType 1 0) "Equatable"]
      /\ diags = [].
Proof.
  split.
  - apply (outer_lists_are_checked_first nestedInClassExtension [] []).
    exists fooClassExtensionList. split; [now left|].
    exists fooExtensionTypes, (LayoutReq (GenericTypeParamType 0 0) LayoutClass).
    repeat split. now left.
  - destruct (visitOuterToInner innerList ([], []))
      as [[builder' diags]|] eqn:E; [|discriminate E].
    exists builder', diags. split; [reflexivity|].
    destruct (outer_lists_are_checked_first innerList [] []) as (_ & H & _).
    exact (H _ _ E).
Defined.

(** X14, on [Inner] inside [Outer] without a parent signature: both
    lists are checked, [Outer]'s first. *)
Lemma environment_builder_sees_checked_lists_witness :
  exists built,
    addedParameters built
    = [GenericTypeParamType 0 0; GenericTypeParamType 1 0]
    /\ addedRequirements built
       = [ConformanceReq (GenericTypeParamType 1 0) "Equatable"].
Proof.
  destruct (@environment_builder_sees_checked_lists sampleCompute innerList
              None false None (fun b => b) false _ _ eq_refl eq_refl)
    as (built & _ & _ & Hp & Hr & _).
  exists built. split; [exact Hp|exact Hr].
Defined.

(** X15, on [extension Array where Element: AnyObject]: the call creates
    a builder and has no result. *)
Lemma environment_is_undefined_only_for_witness :
  checkGenericEnvironment sampleCompute layoutExtensionParams None false
    (Some constrainedArrayExtension) (fun b => b) false
  = None.
Proof.
  apply (environment_is_undefined_only_for sampleCompute
           layoutExtensionParams None false (Some constrainedArrayExtension)
           (fun b => b) false).
  right. split.
  - right. right. exists constrainedArrayExtension. split; [reflexivity|].
    now left.
  - exists layoutExtensionParams. split; [now left|].
    exists arrayExtensionTypes, (LayoutReq (gpType Element) LayoutClass).
    repeat split. now left.
Defined.

End ParameterListSamples.

(* ================================================================== *)
(** ** More about [getOrCreateOpaqueResultType]: get after create *)
(* ================================================================== *)

Module OpaqueAgain.
Import OpaqueResult.

(** [originatingDecl->setOpaqueResultTypeDecl(opaqueDecl)]: the
    declaration as the next call finds it. *)
Definition withOpaqueResultTypeDecl (opaqueDecl : OpaqueTypeDecl)
           (d : OriginatingDecl) : OriginatingDecl :=
  mkOriginating (inProtocol d) (isProtocolRequirement d) (Some opaqueDecl)
                (getGenericSignatureOfContext d)
                (hasGenericEnvironmentOfContext d)
                (DisableAvailabilityChecking d)
                (runningOSIsContainedInAvailability d)
                (validationError d) (constraintType d).

(** The call ended with an error about the declaration or about the
    constraint. *)
Definition rejected (diags : list Diagnostic) : Prop :=
  In opaque_type_in_protocol_requirement diags
  \/ In opaque_type_invalid_constraint diags.

(** [func area() -> some Int] on an OS without the runtime support:
    [Int] is neither a class nor an existential type. *)
Definition invalidDecl : OriginatingDecl :=
  mkOriginating false false None None false false false false
                (NominalType "Int" []).

End OpaqueAgain.

Section OpaqueAgainFacts.
Import Builder OpaqueResult OpaqueAgain.

Variable getClassOrBoundGenericClass : Ty -> bool.
Variable isExistentialType : Ty -> bool.
Variable getExistentialLayout : Ty -> ExistentialLayout.
Variable computeGenericSignature :
  GenericSignatureBuilder -> bool -> GenericSignaturePtr.

Local Abbreviation getOrCreateOpaqueResultType :=
  (getOrCreateOpaqueResultType getClassOrBoundGenericClass isExistentialType
                               getExistentialLayout computeGenericSignature).

(** X16: the opaque type declaration of a declaration is created once:
    after a call that set it, the next call on the declaration returns
    the declared interface type of that same declaration, runs no
    builder and emits nothing, not even the availability diagnostic. *)
Theorem opaque_result_type_is_created_once :
  forall d out opaqueDecl,
    getOrCreateOpaqueResultType d = Some out ->
    setOpaqueResultTypeDecl out = Some opaqueDecl ->
    getOrCreateOpaqueResultType (withOpaqueResultTypeDecl opaqueDecl d)
    = Some (mkOutcome (DeclaredInterfaceTypeOf opaqueDecl) [] None None).
Proof.
  intros d out opaqueDecl E Hset.
  unfold OpaqueResult.getOrCreateOpaqueResultType in *. simpl.
  destruct (inProtocol d && isProtocolRequirement d).
  { inversion E; subst. discriminate. }
  reflexivity.
Qed.

(** X17: a call on a protocol requirement is rejected before anything
    else is looked at; a call that ends with an error about the
    declaration or about the constraint returns a plain type, runs no
    builder and sets no opaque type declaration; and a declaration is
    set exactly when a builder ran, the returned type then being the
    opaque archetype of that declaration. *)
Theorem opaque_result_errors_create_nothing :
  forall d out,
    getOrCreateOpaqueResultType d = Some out ->
    (inProtocol d && isProtocolRequirement d = true ->
     out = mkOutcome (PlainType ErrorType)
                     [opaque_type_in_protocol_requirement] None None)
    /\ (rejected (diagnostics out) ->
        builderRun out = None /\ setOpaqueResultTypeDecl out = None
        /\ exists t, returned out = PlainType t
                     /\ (t = ErrorType \/ t = constraintType d))
    /\ (builderRun out = None <-> setOpaqueResultTypeDecl out = None)
    /\ (forall opaqueDecl,
           setOpaqueResultTypeDecl out = Some opaqueDecl ->
           returned out
           = OpaqueTypeArchetypeType opaqueDecl
                                     (getGenericSignatureOfContext d)
           /\ exists builder,
               builderRun out = Some builder
               /\ getOpaqueInterfaceGenericSignature opaqueDecl
                  = computeGenericSignature builder false).
Proof.
  intros d out E.
  unfold OpaqueResult.getOrCreateOpaqueResultType in E.
  assert (Havail : forall diags : list Diagnostic,
             diags = [] \/ diags = [opaque_type_unavailable] ->
             ~ rejected diags).
  { intros diags [-> | ->] [H|H]; simpl in H; intuition discriminate. }
  destruct (inProtocol d && isProtocolRequirement d) eqn:Eproto.
  { inversion E; subst; simpl. split; [reflexivity|]. split.
    - intros _. repeat split; auto. exists ErrorType. auto.
    - split; [split; reflexivity|]. intros od Hod. discriminate. }
  split; [discriminate|].
  destruct (getOpaqueResultTypeDecl d) as [existingDecl|].
  { inversion E; subst; simpl. split.
    - intros [H|H]; destruct H.
    - split; [split; reflexivity|]. intros od Hod. discriminate. }
  set (diags1 := if negb (DisableAvailabilityChecking d)
                    && negb (runningOSIsContainedInAvailability d)
                 then [opaque_type_unavailable] else []) in E.
  assert (Hd1 : diags1 = [] \/ diags1 = [opaque_type_unavailable]).
  { unfold diags1.
    destruct (negb (DisableAvailabilityChecking d)
              && negb (runningOSIsContainedInAvailability d));
      [right|left]; reflexivity. }
  destruct (validationError d).
  { inversion E; subst; simpl. split.
    - intros _. repeat split; auto. exists (constraintType d). auto.
    - split; [split; reflexivity|]. intros od Hod. discriminate. }
  destruct (negb (getClassOrBoundGenericClass (constraintType d))
            && negb (isExistentialType (constraintType d))).
  { inversion E; subst; simpl. split.
    - intros _. repeat split; auto. exists (constraintType d). auto.
    - split; [split; reflexivity|]. intros od Hod. discriminate. }
  destruct (returnTypeDepth (getGenericSignatureOfContext d)) as [depth|];
    [|discriminate].
  inversion E; subst; simpl.
  split; [|split].
  - intros H. exfalso. exact (Havail _ Hd1 H).
  - split; discriminate.
  - intros opaqueDecl Hod. inversion Hod; subst. split; [reflexivity|].
    eexists. split; reflexivity.
Qed.

End OpaqueAgainFacts.

Section OpaqueAgainSamples.
Import Builder OpaqueResult OpaqueAgain Samples.

(** X16, on [make] inside [Array]: the second call finds the declaration
    the first call set. *)
Lemma opaque_result_type_is_created_once_witness :
  exists opaqueDecl,
    getUnderlyingInterfaceType opaqueDecl = GenericTypeParamType 1 0
    /\ getOrCreateOpaqueResultType (fun _ => false)
         (fun t => isEqual t shapeBound) (fun _ => shapeLayout) sampleCompute
         (withOpaqueResultTypeDecl opaqueDecl makeDecl)
       = Some (mkOutcome (DeclaredInterfaceTypeOf opaqueDecl) [] None None).
Proof.
  eexists. split.
  2:{ apply (@opaque_result_type_is_created_once (fun _ => false)
               (fun t => isEqual t shapeBound) (fun _ => shapeLayout)
               sampleCompute makeDecl _ _ eq_refl eq_refl). }
  reflexivity.
Defined.

(** X17, on [area]: the availability diagnostic, then the error about
    the constraint; nothing is created. *)
Lemma opaque_result_errors_create_nothing_witness :
  getOrCreateOpaqueResultType (fun _ => false) (fun _ => false)
    (fun _ => shapeLayout) sampleCompute invalidDecl
  = Some (mkOutcome (PlainType (NominalType "Int" []))
                    [opaque_type_unavailable; opaque_type_invalid_constraint]
                    None None)
  /\ (None = None :> option GenericSignatureBuilder
      <-> None = None :> option OpaqueTypeDecl).
Proof.
  split; [reflexivity|].
  destruct (@opaque_result_errors_create_nothing (fun _ => false)
              (fun _ => false) (fun _ => shapeLayout) sampleCompute
              invalidDecl _ eq_refl) as (_ & _ & H & _).
  exact H.
Defined.

End OpaqueAgainSamples.

(* ================================================================== *)
(** ** Requirements that restrict [Self]:
       [checkProtocolSelfRequirements] *)
(* ================================================================== *)

Module ProtocolSelf.

(** [isSelfDerivedOrConcrete]: the type is [Self], an associated type of
    [Self], or a concrete type. *)
Definition isSelfDerivedOrConcrete (protoSelf type : Ty) : bool :=
  (* Check for a concrete type. *)
  if negb (hasTypeParameter type) then true
  else if isTypeParameter type
          && isEqual (getRootGenericParam type) protoSelf
       then true
       else false.

Inductive Diagnostic : Type :=
| requirement_restricts_self (first : Ty) (kind : RequirementKind)
                             (second : Ty).

(** What the function reads of the declaration: the protocol its
    declaration context is (the protocol and its [Self] interface
    type), if it is one, and the requirements of the signature of its
    innermost context. *)
Record ValueDecl : Type := mkValueDecl {
  getProtocolContext : option (string * Ty);
  getRequirementsOfContext : list Requirement
}.

(** The body of the loop, for one requirement.  The second type is asked
    for only when the first type is [Self]-derived or concrete; [None]
    stands for [getSecondType()] asked of a layout requirement, which
    has no second type. *)
Definition checkRequirement (proto : string) (protoSelf : Ty)
           (req : Requirement) : option (list Diagnostic) :=
  if negb (isSelfDerivedOrConcrete protoSelf (getFirstType req)) then Some []
  else
    match getSecondType req with
    | None => None
    | Some second =>
        if negb (isSelfDerivedOrConcrete protoSelf second) then Some []
        else
          (* The conformance of 'Self' to the protocol is okay. *)
          if match req with
             | ConformanceReq first p =>
                 String.eqb p proto && isGenericTypeParam first
             | _ => false
             end
          then Some []
          else Some [requirement_restricts_self (getFirstType req)
                                                (getKind req) second]
    end.

Fixpoint checkRequirements (proto : string) (protoSelf : Ty)
         (reqs : list Requirement) : option (list Diagnostic) :=
  match reqs with
  | [] => Some []
  | req :: rest =>
      match checkRequirement proto protoSelf req with
      | None => None
      | Some diags1 =>
          match checkRequirements proto protoSelf rest with
          | None => None
          | Some diags2 => Some (diags1 ++ diags2)
          end
      end
  end.

(** [TypeChecker::checkProtocolSelfRequirements]. *)
Definition checkProtocolSelfRequirements (decl : ValueDecl)
  : option (list Diagnostic) :=
  match getProtocolContext decl with
  | None => Some []
  | Some (proto, protoSelf) =>
      checkRequirements proto protoSelf (getRequirementsOfContext decl)
  end.

(** [Self], an associated type of [Self], or a concrete type. *)
Definition SelfDerivedOrConcrete (protoSelf type : Ty) : Prop :=
  hasTypeParameter type = false
  \/ isTypeParameter type = true /\ getRootGenericParam type = protoSelf.

(** [protocol P { associatedtype A; func f<T>(_: T) where T: Q,
    Self.A == Int }]: the signature of [f] has [Self: P], [T: Q] and
    [Self.A == Int]. *)
Definition Self : Ty := GenericTypeParamType 0 0.

Definition methodInProtocol : ValueDecl :=
  mkValueDecl (Some ("P"%string, Self))
              [ConformanceReq Self "P";
               ConformanceReq (GenericTypeParamType 1 0) "Q";
               SameTypeReq (DependentMemberType Self "A")
                           (NominalType "Int" [])].

End ProtocolSelf.

Section ProtocolSelfFacts.
Import ProtocolSelf.

Lemma isSelfDerivedOrConcrete_iff : forall protoSelf type,
  isSelfDerivedOrConcrete protoSelf type = true
  <-> SelfDerivedOrConcrete protoSelf type.
Proof.
  intros protoSelf type.
  unfold isSelfDerivedOrConcrete, SelfDerivedOrConcrete.
  destruct (hasTypeParameter type); simpl.
  - destruct (isTypeParameter type); simpl.
    + destruct (isEqual (getRootGenericParam type) protoSelf) eqn:E.
      * apply isEqual_eq in E. intuition.
      * apply isEqual_false_iff in E. intuition discriminate.
    + intuition discriminate.
  - intuition.
Qed.

(** The conformance [Self: proto] is the only requirement the loop lets
    pass although both its sides are [Self]-derived or concrete. *)
Lemma exempt_iff : forall proto protoSelf req,
  isGenericTypeParam protoSelf = true ->
  SelfDerivedOrConcrete protoSelf (getFirstType req) ->
  (match req with
   | ConformanceReq first p => String.eqb p proto && isGenericTypeParam first
   | _ => false
   end = true
   <-> req = ConformanceReq protoSelf proto).
Proof.
  intros proto protoSelf req Hself Hfirst.
  destruct req as [first p|s t|s t|s l]; simpl in *;
    try (split; [discriminate|intros H; discriminate]).
  split.
  - intros H. apply andb_prop in H as [Hp Hg].
    apply String.eqb_eq in Hp. subst p.
    destruct first; try discriminate.
    destruct Hfirst as [H|[_ H]]; [discriminate|].
    simpl in H. now rewrite H.
  - intros H. inversion H; subst.
    now rewrite String.eqb_refl, Hself.
Qed.

Lemma checkRequirement_diagnoses : forall proto protoSelf req diags,
  isGenericTypeParam protoSelf = true ->
  checkRequirement proto protoSelf req = Some diags ->
  forall first kind second,
    In (requirement_restricts_self first kind second) diags
    <-> getFirstType req = first /\ getKind req = kind
        /\ getSecondType req = Some second
        /\ SelfDerivedOrConcrete protoSelf first
        /\ SelfDerivedOrConcrete protoSelf second
        /\ req <> ConformanceReq protoSelf proto.
Proof.
  intros proto protoSelf req diags Hself E first kind second.
  unfold checkRequirement in E.
  destruct (isSelfDerivedOrConcrete protoSelf (getFirstType req)) eqn:E1;
    simpl in E.
  2:{ inversion E; subst. split; [intros []|].
      intros (<- & _ & _ & H & _). apply isSelfDerivedOrConcrete_iff in H.
      congruence. }
  apply isSelfDerivedOrConcrete_iff in E1.
  destruct (getSecondType req) as [snd|] eqn:Es; [|discriminate].
  destruct (isSelfDerivedOrConcrete protoSelf snd) eqn:E2; simpl in E.
  2:{ inversion E; subst. split; [intros []|].
      intros (_ & _ & Hs & _ & H & _). inversion Hs; subst.
      apply isSelfDerivedOrConcrete_iff in H. congruence. }
  apply isSelfDerivedOrConcrete_iff in E2.
  pose proof (exempt_iff proto req Hself E1) as Hex.
  destruct (match req with
            | ConformanceReq first0 p =>
                String.eqb p proto && isGenericTypeParam first0
            | _ => false
            end).
  - inversion E; subst. split; [intros []|].
    intros (_ & _ & _ & _ & _ & H). apply H, Hex. reflexivity.
  - inversion E; subst. split.
    + intros [H|[]]. inversion H; subst. repeat split; auto.
      intros Hc. apply Hex in Hc. discriminate.
    + intros (<- & <- & Hs & _). inversion Hs; subst. now left.
Qed.

(** X18: in a protocol whose [Self] is a generic parameter, a
    requirement of the signature is diagnosed as restricting [Self]
    exactly when each of its two types is [Self], an associated type of
    [Self] or a concrete type, and it is not the conformance of [Self]
    to the protocol; a requirement that involves another generic
    parameter on one side is never diagnosed.  Outside a protocol
    nothing is diagnosed. *)
Theorem self_restricting_requirements_are_diagnosed :
  forall decl diags,
    checkProtocolSelfRequirements decl = Some diags ->
    (getProtocolContext decl = None -> diags = [])
    /\ forall proto protoSelf,
        getProtocolContext decl = Some (proto, protoSelf) ->
        isGenericTypeParam protoSelf = true ->
        forall first kind second,
          In (requirement_restricts_self first kind second) diags
          <-> exists req,
              In req (getRequirementsOfContext decl)
              /\ getFirstType req = first /\ getKind req = kind
              /\ getSecondType req = Some second
              /\ SelfDerivedOrConcrete protoSelf first
              /\ SelfDerivedOrConcrete protoSelf second
              /\ req <> ConformanceReq protoSelf proto.
Proof.
  intros decl diags E. unfold checkProtocolSelfRequirements in E.
  split.
  - intros H. rewrite H in E. now inversion E.
  - intros proto protoSelf H Hself. rewrite H in E. clear H.
    revert diags E.
    induction (getRequirementsOfContext decl) as [|req reqs IH];
      intros diags E first kind second; simpl in E.
    + inversion E; subst. split; [intros []|intros (req & [] & _)].
    + destruct (checkRequirement proto protoSelf req) as [diags1|] eqn:E1;
        [|discriminate].
      destruct (checkRequirements proto protoSelf reqs) as [diags2|];
        [|discriminate].
      inversion E; subst. rewrite in_app_iff.
      rewrite (checkRequirement_diagnoses _ _ _ Hself E1 first kind second).
      rewrite (IH _ eq_refl first kind second).
      split.
      * intros [H|(r & Hin & H)].
        -- exists req. split; [now left|exact H].
        -- exists r. split; [now right|exact H].
      * intros (r & [<-|Hin] & H); [now left|].
        right. exists r. auto.
Qed.

End ProtocolSelfFacts.

Section ProtocolSelfSamples.
Import ProtocolSelf.

(** X18, on [f] in [P]: [Self.A == Int] restricts [Self]; [Self: P] and
    [T: Q] are not diagnosed. *)
Lemma self_restricting_requirements_are_diagnosed_witness :
  checkProtocolSelfRequirements methodInProtocol
  = Some [requirement_restricts_self (DependentMemberType Self "A") SameType
                                     (NominalType "Int" [])]
  /\ exists req,
      In req (getRequirementsOfContext methodInProtocol)
      /\ getFirstType req = DependentMemberType Self "A"
      /\ getKind req = SameType
      /\ getSecondType req = Some (NominalType "Int" [])
      /\ SelfDerivedOrConcrete Self (DependentMemberType Self "A")
      /\ SelfDerivedOrConcrete Self (NominalType "Int" [])
      /\ req <> ConformanceReq Self "P".
Proof.
  split; [reflexivity|].
  destruct (@self_restricting_requirements_are_diagnosed methodInProtocol
              _ eq_refl) as [_ H].
  apply (H "P"%string Self eq_refl eq_refl). now left.
Defined.

End ProtocolSelfSamples.
